(** * Backup-checker: [scripts/generate_lorem.py]

    A shallow embedding of the lorem-ipsum Markdown generator and the
    verification of its specification.

    Conventions of the embedding:
    - a Python [int] is a [Z];
    - a Python [str] is a [list ascii]: a sequence of characters whose code
      point is below 256.  Every string the generator itself builds is
      plain ASCII (the word pool, spaces, periods, the heading marker);
    - [len] is Python's [len], with a [Z] result;
    - the [random.Random] instance is a state threaded through the
      generation functions (see [RandomSource]);
    - the [while] loops are written with a fuel argument; the theorems
      prove that the fuel the callers provide is never exhausted. *)

From Stdlib Require Import ZArith Ascii String List Bool Lia.
Import ListNotations.

Open Scope Z_scope.

(** * Part I: the program *)

(** ** Python built-ins used by the script *)

Abbreviation str := (list ascii).

Definition txt (s : string) : str := list_ascii_of_string s.

Definition len {A : Type} (l : list A) : Z := Z.of_nat (length l).

(** [range(n)] *)
Definition range (n : Z) : list Z := map Z.of_nat (seq 0 (Z.to_nat n)).

(** [sum(l)]: a left fold starting from 0. *)
Definition sum (l : list Z) : Z := fold_left Z.add l 0.

(** Code point of a character. *)
Definition code (c : ascii) : N := N_of_ascii c.

Definition between (lo hi : N) (c : ascii) : bool :=
  ((lo <=? code c) && (code c <=? hi))%N.

Definition chr (n : N) : ascii := ascii_of_N n.

Definition SPACE : ascii := chr 32.
Definition NEWLINE : ascii := chr 10.
Definition PERIOD : ascii := chr 46.
Definition HYPHEN : ascii := chr 45.
Definition TAB : ascii := chr 9.
Definition CR : ascii := chr 13.

(** [c.isspace()] on code points below 256: the characters that
    [str.strip] and [str.split] treat as whitespace. *)
Definition isspace (c : ascii) : bool :=
  between 9 13 c || between 28 32 c || (code c =? 133)%N || (code c =? 160)%N.

(** ASCII letters. *)
Definition is_lower (c : ascii) : bool := between 97 122 c.

Definition is_alpha (c : ascii) : bool := between 65 90 c || between 97 122 c.

(** The ASCII punctuation marks ([string.punctuation]). *)
Definition is_punctuation (c : ascii) : bool :=
  between 33 47 c || between 58 64 c || between 91 96 c || between 123 126 c.

(** The characters at which [str.splitlines] ends a line. *)
Definition is_line_break (c : ascii) : bool :=
  between 10 13 c || between 28 30 c || (code c =? 133)%N.

(** [s.lstrip()], [s.rstrip()], [s.strip()] *)
Fixpoint lstrip (s : str) : str :=
  match s with
  | [] => []
  | c :: s' => if isspace c then lstrip s' else s
  end.

Definition rstrip (s : str) : str := rev (lstrip (rev s)).

Definition strip (s : str) : str := rstrip (lstrip s).

(** [s.split()]: the maximal runs of non-whitespace characters.
    [word] is the run being read. *)
Fixpoint split_from (word : str) (s : str) : list str :=
  match s with
  | [] => match word with [] => [] | _ => [word] end
  | c :: s' =>
      if isspace c
      then match word with
           | [] => split_from [] s'
           | _ => word :: split_from [] s'
           end
      else split_from (word ++ [c]) s'
  end.

Definition split (s : str) : list str := split_from [] s.

(** [sep.join(parts)] *)
Fixpoint join (sep : str) (parts : list str) : str :=
  match parts with
  | [] => []
  | [p] => p
  | p :: rest => p ++ sep ++ join sep rest
  end.

(** [s.split(sep)] for a one-character separator: the pieces between the
    occurrences of [sep]; never empty. *)
Fixpoint split_on (sep : ascii) (s : str) : list str :=
  match s with
  | [] => [[]]
  | c :: s' =>
      if Ascii.eqb c sep then [] :: split_on sep s'
      else match split_on sep s' with
           | [] => [[c]]
           | piece :: pieces => (c :: piece) :: pieces
           end
  end.

(** [s[:e]] and [s[e:]], with Python's reading of a negative index. *)
Definition slice_to (s : str) (e : Z) : str :=
  firstn (Z.to_nat (if e <? 0 then len s + e else e)) s.

Definition slice_from (s : str) (e : Z) : str :=
  skipn (Z.to_nat (if e <? 0 then len s + e else e)) s.

(** [s.endswith(c)] for a one-character suffix. *)
Definition endswith (s : str) (c : ascii) : bool :=
  match rev s with
  | [] => false
  | d :: _ => Ascii.eqb d c
  end.

(** Index of the last occurrence of [c] in [s], or [-1]:
    [s.rfind(c)].  [i] is the index of the head of [s]. *)
Fixpoint rfind_from (c : ascii) (i : Z) (s : str) : Z :=
  match s with
  | [] => -1
  | d :: s' =>
      let later := rfind_from c (i + 1) s' in
      if 0 <=? later then later
      else if Ascii.eqb d c then i else -1
  end.

(** [s.rfind(c, 0, e)] *)
Definition rfind (c : ascii) (s : str) (e : Z) : Z :=
  rfind_from c 0 (slice_to s e).

(** [w.capitalize()]: first character in upper case, the others in lower
    case.  Modelled on ASCII letters, the only characters of the strings
    the script capitalizes (the words of the pool); other characters are
    left as they are. *)
Definition upper_char (c : ascii) : ascii :=
  if between 97 122 c then chr (code c - 32) else c.

Definition lower_char (c : ascii) : ascii :=
  if between 65 90 c then chr (code c + 32) else c.

Definition capitalize (w : str) : str :=
  match w with
  | [] => []
  | c :: w' => upper_char c :: map lower_char w'
  end.

(** Results of the functions that loop or raise: a value, Python's
    [ValueError], or a loop cut short by lack of fuel (which the theorems
    below exclude). *)
Inductive res (A : Type) : Type :=
| Val (a : A)
| ValueError
| NoFuel.

Arguments Val {A} a.
Arguments ValueError {A}.
Arguments NoFuel {A}.

Definition bind {A B : Type} (r : res A) (k : A -> res B) : res B :=
  match r with
  | Val a => k a
  | ValueError => ValueError
  | NoFuel => NoFuel
  end.

Notation "'let*' x ':=' r 'in' k" := (bind r (fun x => k))
  (at level 10, x pattern, r at level 100, k at level 200).

(** ** The standard [textwrap] module, as [render_markdown] calls it

    The module is part of the Python library, not of the repository; the
    model follows [Lib/textwrap.py] of CPython 3.11.
    [textwrap.fill(p, width=w)] builds a [TextWrapper] whose options all
    have their default value: [expand_tabs], [replace_whitespace],
    [break_long_words], [drop_whitespace] and [break_on_hyphens] are true,
    [fix_sentence_endings] is false, both indents are empty, [tabsize] is
    8 and [max_lines] is [None].  The definitions follow the methods of the
    class under these options. *)

Module textwrap.

(** The characters of [_whitespace = '\t\n\x0b\x0c\r ']. *)
Definition is_whitespace (c : ascii) : bool :=
  between 9 13 c || (code c =? 32)%N.

(** The regular-expression classes of [wordsep_re] on code points below
    256: [\w]; [letter], the word characters that are not digits; and
    [word_punct], the word characters and the seven punctuation marks
    exclamation mark, double quote, apostrophe, ampersand, period, comma
    and question mark. *)
Definition is_word (c : ascii) : bool :=
  between 48 57 c || between 65 90 c || (code c =? 95)%N || between 97 122 c
  || (code c =? 170)%N || between 178 179 c || (code c =? 181)%N
  || between 185 186 c || between 188 190 c || between 192 214 c
  || between 216 246 c || between 248 255 c.

Definition is_letter (c : ascii) : bool :=
  is_word c && negb (between 48 57 c).

Definition is_word_punct (c : ascii) : bool :=
  is_word c || between 33 34 c || between 38 39 c || (code c =? 44)%N
  || (code c =? 46)%N || (code c =? 63)%N.

Definition is_hyphen (c : ascii) : bool := Ascii.eqb c HYPHEN.

(** [text.expandtabs(tabsize)]; [line_pos] is the column of the head. *)
Fixpoint expandtabs_from (tabsize line_pos : Z) (text : str) : str :=
  match text with
  | [] => []
  | c :: text' =>
      if Ascii.eqb c TAB then
        if 0 <? tabsize then
          let incr := tabsize - line_pos mod tabsize in
          repeat SPACE (Z.to_nat incr)
          ++ expandtabs_from tabsize (line_pos + incr) text'
        else expandtabs_from tabsize line_pos text'
      else
        c :: expandtabs_from tabsize
               (if Ascii.eqb c NEWLINE || Ascii.eqb c CR then 0
                else line_pos + 1)
               text'
  end.

Definition expandtabs (tabsize : Z) (text : str) : str :=
  expandtabs_from tabsize 0 text.

(** [text.translate(unicode_whitespace_trans)] *)
Definition translate_whitespace (text : str) : str :=
  map (fun c => if is_whitespace c then SPACE else c) text.

Definition munge_whitespace (text : str) : str :=
  translate_whitespace (expandtabs 8 text).

(** *** [wordsep_re]

    The pattern is one capturing group with three alternatives; at every
    position of a non-empty remainder one of them matches at least one
    character, so [wordsep_re.split] returns the successive matches
    separated by empty strings, and [_split] keeps the matches.  In the
    functions below [before] is the text already read, last character
    first, and [after] is the remainder. *)

(** Length of the longest prefix made of characters satisfying [f]. *)
Fixpoint span (f : ascii -> bool) (s : str) : nat :=
  match s with
  | c :: s' => if f c then S (span f s') else O
  | [] => O
  end.

(** [-{2,}\w] matches at the head of [s]. *)
Definition dashes_then_word (s : str) : bool :=
  let n := span is_hyphen s in
  (2 <=? n)%nat && match skipn n s with c :: _ => is_word c | [] => false end.

(** [(?<=word_punct)] *)
Definition after_word_punct (before : str) : bool :=
  match before with b :: _ => is_word_punct b | [] => false end.

(** [(?<=letter{2}-) | (?<=letter-letter-)], the hyphen being the head of
    [before]. *)
Definition hyphen_lookbehind (before : str) : bool :=
  match before with
  | h :: b1 :: b2 :: before' =>
      is_hyphen h && is_letter b1
      && (is_letter b2
          || (is_hyphen b2
              && match before' with b3 :: _ => is_letter b3 | [] => false end))
  | _ => false
  end.

(** [(?= letter -? letter)] *)
Definition hyphen_lookahead (after : str) : bool :=
  match after with
  | a1 :: a2 :: after' =>
      is_letter a1
      && (is_letter a2
          || (is_hyphen a2
              && match after' with a3 :: _ => is_letter a3 | [] => false end))
  | _ => false
  end.

(** Third alternative, [nowhitespace+?] followed by one of: a hyphen of a
    compound word, the end of the word, the start of an em-dash.  At least
    one character has been read; the result is the number of further
    characters of the match. *)
Fixpoint word_rest (before after : str) : nat :=
  match after with
  | [] => O
  | c :: after' =>
      if is_hyphen c && hyphen_lookbehind (c :: before)
         && hyphen_lookahead after' then 1%nat
      else if is_whitespace c then O
      else if after_word_punct before && dashes_then_word after then O
      else S (word_rest (c :: before) after')
  end.

(** Length of the match of [wordsep_re] at the head of [after]. *)
Definition match_length (before after : str) : nat :=
  match after with
  | [] => O
  | c :: after' =>
      if is_whitespace c then span is_whitespace after
      else if after_word_punct before && dashes_then_word after
      then span is_hyphen after
      else S (word_rest (c :: before) after')
  end.

Fixpoint split_loop (fuel : nat) (before after : str) : list str :=
  match after, fuel with
  | [], _ => []
  | _, O => []
  | _, S fuel' =>
      let n := match_length before after in
      firstn n after
      :: split_loop fuel' (rev (firstn n after) ++ before) (skipn n after)
  end.

(** [_split(text)]: the chunks of [text]. *)
Definition split (text : str) : list str :=
  split_loop (length text) [] text.

Definition split_chunks (text : str) : list str :=
  split (munge_whitespace text).

(** [chunk.strip() == ''] *)
Definition is_blank (chunk : str) : bool :=
  match strip chunk with [] => true | _ => false end.

(** *** [_handle_long_word] and [_wrap_chunks]

    The source reverses [chunks] and uses the list as a stack whose top is
    its last element; here the stack is the list in text order and its top
    is the head.  The functions return the values of the variables they
    assign. *)

(** [_handle_long_word(reversed_chunks, cur_line, cur_len, width)]:
    returns the new [reversed_chunks] and [cur_line]. *)
Definition handle_long_word (chunks cur_line : list str) (cur_len width : Z)
  : list str * list str :=
  let space_left := if width <? 1 then 1 else width - cur_len in
  match chunks with
  | [] => (chunks, cur_line)
  | chunk :: chunks' =>
      let hyphen := rfind HYPHEN chunk space_left in
      let end_ :=
        if (space_left <? len chunk)
           && (0 <? hyphen)
           && existsb (fun c => negb (is_hyphen c)) (slice_to chunk hyphen)
        then hyphen + 1
        else space_left in
      (slice_from chunk end_ :: chunks', cur_line ++ [slice_to chunk end_])
  end.

(** The inner loop of [_wrap_chunks]: move chunks from the stack to the
    line while they fit.  Returns [cur_line], [cur_len] and the stack. *)
Fixpoint fit_chunks (width : Z) (cur_line : list str) (cur_len : Z)
  (chunks : list str) : list str * Z * list str :=
  match chunks with
  | [] => (cur_line, cur_len, [])
  | chunk :: chunks' =>
      let l := len chunk in
      if cur_len + l <=? width
      then fit_chunks width (cur_line ++ [chunk]) (cur_len + l) chunks'
      else (cur_line, cur_len, chunks)
  end.

(** [if chunks[-1].strip() == '' and lines: del chunks[-1]] *)
Definition drop_blank_start (chunks lines : list str) : list str :=
  match chunks, lines with
  | chunk :: chunks', _ :: _ => if is_blank chunk then chunks' else chunks
  | _, _ => chunks
  end.

(** [if cur_line and cur_line[-1].strip() == '': del cur_line[-1]] *)
Definition drop_blank_end (cur_line : list str) : list str :=
  match rev cur_line with
  | last_chunk :: _ =>
      if is_blank last_chunk then removelast cur_line else cur_line
  | [] => cur_line
  end.

(** [if cur_line: lines.append(''.join(cur_line))] *)
Definition append_line (cur_line lines : list str) : list str :=
  match cur_line with
  | [] => lines
  | _ :: _ => lines ++ [concat cur_line]
  end.

(** One pass of the outer loop on a non-empty stack: the new stack and
    the new [lines].  ([cur_len] is not read after the inner loop and
    [_handle_long_word] when [max_lines] is [None].) *)
Definition wrap_line (width : Z) (chunks lines : list str)
  : list str * list str :=
  let chunks1 := drop_blank_start chunks lines in
  let '(cur_line, cur_len, chunks2) := fit_chunks width [] 0 chunks1 in
  let '(chunks3, cur_line1) :=
    match chunks2 with
    | chunk :: _ =>
        if width <? len chunk
        then handle_long_word chunks2 cur_line cur_len width
        else (chunks2, cur_line)
    | [] => (chunks2, cur_line)
    end in
  (chunks3, append_line (drop_blank_end cur_line1) lines).

Fixpoint wrap_loop (fuel : nat) (width : Z) (chunks lines : list str)
  : res (list str) :=
  match chunks, fuel with
  | [], _ => Val lines
  | _ :: _, O => NoFuel
  | _ :: _, S fuel' =>
      let '(chunks', lines') := wrap_line width chunks lines in
      wrap_loop fuel' width chunks' lines'
  end.

(** [_wrap_chunks(chunks)]; every pass of the loop removes at least one
    character from the stack, which bounds the number of passes. *)
Definition wrap_chunks (width : Z) (chunks : list str) : res (list str) :=
  if width <=? 0 then ValueError
  else wrap_loop (length (concat chunks)) width chunks [].

(** [textwrap.wrap(text, width=width)] *)
Definition wrap (text : str) (width : Z) : res (list str) :=
  wrap_chunks width (split_chunks text).

(** [textwrap.fill(text, width=width)] *)
Definition fill (text : str) (width : Z) : res str :=
  let* lines := wrap text width in Val (join [NEWLINE] lines).

End textwrap.

(** ** [random.Random]

    The script draws through [rng.choice] and [rng.randint] only; both
    draw through [_randbelow(n)], documented as returning "a random int in
    the range [0,n)" for [n > 0].  A generator is any state type with such
    a draw; [seeded s] is the state of [random.Random(s)] for an integer
    [s]. *)

Class RandomSource : Type := {
  rng : Type;
  seeded : Z -> rng;
  randbelow : Z -> rng -> Z * rng;
  randbelow_range : forall n g, 0 < n -> 0 <= fst (randbelow n g) < n
}.

(** A linear congruential generator, to run the model on. *)
#[export] Instance Lcg : RandomSource := {|
  rng := Z;
  seeded := fun s => s mod 2147483648;
  randbelow := fun n g =>
    ((g / 65536) mod n, (1103515245 * g + 12345) mod 2147483648);
  randbelow_range := fun n g H => Z.mod_pos_bound (g / 65536) n H
|}.

(** ** The script *)

Definition LOREM_WORDS : list str :=
  split (txt
    ("lorem ipsum dolor sit amet consectetur adipiscing elit sed do eiusmod tempor incididunt "
     ++ "ut labore et dolore magna aliqua ut enim ad minim veniam quis nostrud exercitation ullamco "
     ++ "laboris nisi ut aliquip ex ea commodo consequat duis aute irure dolor in reprehenderit in "
     ++ "voluptate velit esse cillum dolore eu fugiat nulla pariatur excepteur sint occaecat cupidatat "
     ++ "non proident sunt in culpa qui officia deserunt mollit anim id est laborum")%string).

Record Settings : Type := {
  output_path : str;
  characters : Z;
  paragraphs : Z;
  max_line_length : Z;
  include_title : bool;
  title_characters : Z;
  seed : option Z
}.

Definition DEFAULT_SETTINGS : Settings := {|
  output_path := txt "content/lorem.md";
  characters := 1000;
  paragraphs := 3;
  max_line_length := 80;
  include_title := true;
  title_characters := 40;
  seed := None
|}.

Definition distribute_chars (total_chars paragraphs : Z) : list Z :=
  if paragraphs <=? 0 then []
  else
    let base := total_chars / paragraphs in
    let remainder := total_chars mod paragraphs in
    map (fun i => base + (if i <? remainder then 1 else 0)) (range paragraphs).

(** [words[-1] = words[-1] + "."] *)
Definition end_sentence (words : list str) : list str :=
  removelast words ++ [last words [] ++ [PERIOD]].

Section Generator.

Context {R : RandomSource}.

(** [rng.choice(seq)], for a non-empty [seq]; the script calls it on
    [LOREM_WORDS] only. *)
Definition choice (seq : list str) (g : rng) : str * rng :=
  let '(i, g') := randbelow (len seq) g in (nth (Z.to_nat i) seq [], g').

(** [rng.randint(a, b)], for [a <= b]; the script calls it with the
    constant bounds 8, 16 and 6, 20. *)
Definition randint (a b : Z) (g : rng) : Z * rng :=
  let '(r, g') := randbelow (b + 1 - a) g in (a + r, g').

(** The loop of [gen_title]. *)
Fixpoint gen_title_loop (fuel : nat) (char_count : Z) (words : list str)
  (g : rng) : res (list str * rng) :=
  if len (join [SPACE] words) <? char_count then
    match fuel with
    | O => NoFuel
    | S fuel' =>
        let '(w, g') := choice LOREM_WORDS g in
        gen_title_loop fuel' char_count
          (words ++ [match words with [] => capitalize w | _ :: _ => w end]) g'
    end
  else Val (words, g).

Definition gen_title (char_count : Z) (g : rng) : res (str * rng) :=
  if char_count <=? 0 then Val ([], g)
  else
    let* (words, g') :=
      gen_title_loop (Z.to_nat char_count) char_count [] g in
    let title := rstrip (slice_to (join [SPACE] words) char_count) in
    Val (strip title, g').

(** The loop of [gen_paragraph]. *)
Fixpoint gen_paragraph_loop (fuel : nat) (target_chars : Z)
  (words : list str) (char_len sentence_len words_in_sentence : Z) (g : rng)
  : res (list str * rng) :=
  if char_len <? target_chars then
    match fuel with
    | O => NoFuel
    | S fuel' =>
        let '(w, g1) := choice LOREM_WORDS g in
        let w := if words_in_sentence =? 0 then capitalize w else w in
        let words := words ++ [w] in
        let words_in_sentence := words_in_sentence + 1 in
        let char_len := len (join [SPACE] words) in
        if sentence_len <=? words_in_sentence then
          let words := end_sentence words in
          let '(sentence_len, g2) := randint 6 20 g1 in
          gen_paragraph_loop fuel' target_chars words char_len sentence_len 0 g2
        else
          gen_paragraph_loop fuel' target_chars words char_len sentence_len
            words_in_sentence g1
    end
  else Val (words, g).

Definition gen_paragraph (target_chars : Z) (g : rng) : res (str * rng) :=
  if target_chars <=? 0 then Val ([], g)
  else
    let '(sentence_len, g0) := randint 8 16 g in
    let* (words, g') :=
      gen_paragraph_loop (Z.to_nat target_chars) target_chars [] 0
        sentence_len 0 g0 in
    let paragraph := strip (join [SPACE] words) in
    Val (if endswith paragraph PERIOD then paragraph
         else paragraph ++ [PERIOD], g').

(** [[gen_paragraph(n, rng) for n in distribution]] *)
Fixpoint gen_paragraphs (distribution : list Z) (g : rng)
  : res (list str * rng) :=
  match distribution with
  | [] => Val ([], g)
  | n :: distribution' =>
      let* (p, g1) := gen_paragraph n g in
      let* (ps, g2) := gen_paragraphs distribution' g1 in
      Val (p :: ps, g2)
  end.

End Generator.

(** The loop of [render_markdown] over the paragraphs: each one appends
    its wrapped text and an empty part to [parts]. *)
Fixpoint render_paragraphs (paragraphs : list str) (max_line_len : Z)
  (parts : list str) : res (list str) :=
  match paragraphs with
  | [] => Val parts
  | p :: paragraphs' =>
      let* wrapped := textwrap.fill p max_line_len in
      render_paragraphs paragraphs' max_line_len (parts ++ [wrapped; []])
  end.

(** [if parts and parts[-1] == "": parts.pop()] *)
Definition pop_blank (parts : list str) : list str :=
  match rev parts with
  | [] :: _ => removelast parts
  | _ => parts
  end.

Definition render_markdown (title : str) (paragraphs : list str)
  (max_line_len : Z) : res str :=
  let parts :=
    match title with
    | [] => []
    | _ :: _ => [txt "# " ++ title; []]
    end in
  let* parts := render_paragraphs paragraphs max_line_len parts in
  Val (join [NEWLINE] (pop_blank parts)).

(** The block of [main] that precedes the distribution:
    [if total_chars < paragraphs * 20:
         total_chars = max(total_chars, paragraphs * 20)]. *)
Definition min_budget_fallback (total_chars paragraphs : Z) : Z :=
  if total_chars <? paragraphs * 20
  then Z.max total_chars (paragraphs * 20)
  else total_chars.

Section Main.

Context {R : RandomSource}.

(** [random.Random(seed)]: an integer seed determines the state; with
    [None] the state comes from the system ([entropy]), anew in each run. *)
Definition Random (seed : option Z) (entropy : rng) : rng :=
  match seed with
  | Some s => seeded s
  | None => entropy
  end.

(** The paragraphs and the title as [main] generates them from the
    generator [g]: the final values of [paragraphs_text] and
    [title_text]. *)
Definition generate (settings : Settings) (g : rng) : res (list str * str) :=
  let total_chars :=
    min_budget_fallback (characters settings) (paragraphs settings) in
  let distribution := distribute_chars total_chars (paragraphs settings) in
  let* (paragraphs_text, g1) := gen_paragraphs distribution g in
  let* (title_text, _) :=
    if include_title settings then gen_title (title_characters settings) g1
    else Val ([], g1) in
  Val (paragraphs_text, title_text).

(** [main], from the loaded settings to the file it writes: the path and
    the text. *)
Definition main (settings : Settings) (entropy : rng) : res (str * str) :=
  let g := Random (seed settings) entropy in
  let* (paragraphs_text, title_text) := generate settings g in
  let* md := render_markdown title_text paragraphs_text
               (max_line_length settings) in
  Val (output_path settings, md).

End Main.

(** ** Vocabulary of the properties *)

(** The words of a paragraph: a word of the pool, possibly capitalized,
    possibly followed by a period. *)
Definition pool_token (t : str) : Prop :=
  exists w, In w LOREM_WORDS /\
    (t = w \/ t = capitalize w
     \/ t = w ++ [PERIOD] \/ t = capitalize w ++ [PERIOD]).

(** What every word of the pool is: at least two lower-case letters. *)
Definition pool_word (w : str) : bool :=
  (2 <=? length w)%nat && forallb is_lower w.

(** A word of a title or of a paragraph before punctuation: letters only,
    at least two. *)
Definition letters (w : str) : Prop :=
  (2 <= length w)%nat /\ Forall (fun c => is_alpha c = true) w.

(** A string with a character that is not whitespace. *)
Definition visible (s : str) : Prop :=
  exists c, In c s /\ isspace c = false.

(** The lines made by the passes of the loop. *)
Definition good_line (width : Z) (within : str) (line : str) : Prop :=
  line <> [] /\ len line <= width /\ incl line within.

(** A chunk that [_wrap_chunks] does not drop at the ends of lines. *)
Definition nonblank (chunk : str) : bool := negb (textwrap.is_blank chunk).

(** [group] is a run of consecutive elements of [chunks]. *)
Definition run_of (chunks group : list str) : Prop :=
  exists before after, chunks = before ++ group ++ after.

(** The parts of a document: the heading and an empty part, then each
    wrapped paragraph and an empty part, less the last empty part. *)
Definition document_parts (title : str) (wrapped : list str) : list str :=
  pop_blank
    (match title with [] => [] | _ :: _ => [txt "# " ++ title; []] end
     ++ flat_map (fun text => [text; []]) wrapped).

(** What [render_markdown] makes of a paragraph [p]: the text [text] that
    [textwrap.fill] returns, whose lines fit the width; and, when every
    chunk of [p] fits the width, lines that are runs of consecutive chunks
    of [p], no chunk being cut and no chunk other than blank ones being
    left out. *)
Definition wrapped_as (width : Z) (p text : str) : Prop :=
  textwrap.fill p width = Val text
  /\ Forall (fun line => len line <= width) (split_on NEWLINE text)
  /\ (Forall (fun chunk => len chunk <= width) (textwrap.split_chunks p) ->
      exists groups,
        text = join [NEWLINE] (map (@concat ascii) groups)
        /\ Forall (fun group =>
                     group <> [] /\ run_of (textwrap.split_chunks p) group)
             groups
        /\ filter nonblank (concat groups)
           = filter nonblank (textwrap.split_chunks p)).

Section Order.

Context {R : RandomSource}.

(** The order of the draws as the specification words it: the paragraphs
    are generated one after the other, each from the state in which the
    one before left the generator. *)
Inductive paragraphs_in_order : list Z -> rng -> list str -> rng -> Prop :=
| in_order_nil (g : rng) : paragraphs_in_order [] g [] g
| in_order_cons (n : Z) (budgets : list Z) (g g1 g2 : rng) (p : str)
    (ps : list str) :
    gen_paragraph n g = Val (p, g1) ->
    paragraphs_in_order budgets g1 ps g2 ->
    paragraphs_in_order (n :: budgets) g (p :: ps) g2.

End Order.

(** The configuration of the example of the specification. *)
Definition example_settings : Settings := {|
  output_path := txt "content/lorem.md";
  characters := 100;
  paragraphs := 2;
  max_line_length := 40;
  include_title := true;
  title_characters := 20;
  seed := Some 42
|}.

(** ** Vocabulary of the further properties *)

(** The characters of a string that are not whitespace, in order. *)
Definition visible_chars (s : str) : str :=
  filter (fun c => negb (isspace c)) s.

(** [parts] with an empty part between two consecutive parts. *)
Fixpoint separated (parts : list str) : list str :=
  match parts with
  | [] => []
  | [p] => [p]
  | p :: rest => p :: [] :: separated rest
  end.

(** The lines of blocks of lines set one after the other with one empty
    line between two consecutive blocks. *)
Fixpoint blocks_lines (blocks : list (list str)) : list str :=
  match blocks with
  | [] => []
  | [b] => b
  | b :: rest => b ++ [] :: blocks_lines rest
  end.

(** The block of lines of the heading. *)
Definition heading_block (title : str) : list (list str) :=
  match title with
  | [] => []
  | _ :: _ => [[txt "# " ++ title]]
  end.

(** A sentence before its period: a capitalized word of the pool, then
    words of the pool. *)
Definition sentence_body (body : list str) : Prop :=
  exists w ws,
    In w LOREM_WORDS /\ Forall (fun x => In x LOREM_WORDS) ws
    /\ body = capitalize w :: ws.

(** A sentence: such words, with a period after the last one. *)
Definition sentence (s : list str) : Prop :=
  exists body, sentence_body body /\ s = end_sentence body.

(** The state of the loop of [gen_paragraph]: [words] is made of full
    sentences followed by the words of the sentence being written, which
    are as many as [words_in_sentence] says and fewer than [sentence_len];
    [char_len] is the length of the joined words, less the period when
    the last sentence has just been closed. *)
Definition paragraph_state (target_chars : Z) (words : list str)
  (char_len sentence_len words_in_sentence : Z) : Prop :=
  exists done current,
    words = concat done ++ current
    /\ Forall (fun s => sentence s /\ 6 <= len s <= 20) done
    /\ ((current = [] /\ words_in_sentence = 0)
        \/ (sentence_body current /\ words_in_sentence = len current))
    /\ 0 <= words_in_sentence < sentence_len
    /\ 6 <= sentence_len <= 20
    /\ len (join [SPACE] words)
       = char_len + match current, done with [], _ :: _ => 1 | _, _ => 0 end
    /\ char_len <= target_chars + 14.

(** A word that [textwrap] keeps whole: not empty, without whitespace and
    without hyphen. *)
Definition plain_word (t : str) : Prop :=
  t <> [] /\ Forall (fun c => isspace c = false /\ c <> HYPHEN) t.

(** The chunks of words that follow the first word of a text whose words
    are joined by single spaces: a space before each word. *)
Definition spaced (tokens : list str) : list str :=
  flat_map (fun t => [[SPACE]; t]) tokens.

(** Lines of words filled greedily: the first word of a line did not fit
    at the end of the line before. *)
Fixpoint filled (width : Z) (lines : list (list str)) : Prop :=
  match lines with
  | [] => True
  | line :: rest =>
      match rest with
      | (w :: _) :: _ => width < len (join [SPACE] (line ++ [w]))
      | _ => True
      end
      /\ filled width rest
  end.

(** The characters of the paragraphs: ASCII letters, the space and the
    period. *)
Definition text_char (c : ascii) : Prop :=
  is_alpha c = true \/ c = SPACE \/ c = PERIOD.

(** The characters of the documents: those, the newline and the hash
    sign of the heading. *)
Definition document_char (c : ascii) : Prop :=
  text_char c \/ c = NEWLINE \/ c = "#"%char.

(** * Part II: the properties *)

(** ** Facts about the built-ins *)

Lemma len_nonneg {A} (l : list A) : 0 <= len l.
Proof. unfold len; lia. Qed.

Lemma len_app {A} (l1 l2 : list A) : len (l1 ++ l2) = len l1 + len l2.
Proof. unfold len; rewrite length_app; lia. Qed.

Lemma len_nil {A} : len (@nil A) = 0.
Proof. reflexivity. Qed.

Lemma len_cons {A} (a : A) l : len (a :: l) = 1 + len l.
Proof. unfold len; simpl length; lia. Qed.

Lemma fold_add_shift (l : list Z) (a : Z) :
  fold_left Z.add l a = a + fold_left Z.add l 0.
Proof.
  revert a; induction l as [|x l IH]; intros a; simpl.
  - lia.
  - rewrite (IH (a + x)), (IH x); lia.
Qed.

Lemma sum_app (l1 l2 : list Z) : sum (l1 ++ l2) = sum l1 + sum l2.
Proof.
  unfold sum; rewrite fold_left_app.
  now rewrite fold_add_shift.
Qed.

Lemma range_length (n : Z) : 0 <= n -> len (range n) = n.
Proof.
  intros Hn; unfold len, range.
  rewrite length_map, length_seq; lia.
Qed.

Lemma range_nth (n i : Z) :
  0 <= i < n -> nth (Z.to_nat i) (range n) 0 = i.
Proof.
  intros Hi; unfold range.
  change (nth (Z.to_nat i) (map Z.of_nat (seq 0 (Z.to_nat n))) 0)
    with (nth (Z.to_nat i) (map Z.of_nat (seq 0 (Z.to_nat n))) (Z.of_nat 0)).
  rewrite map_nth, seq_nth by lia.
  lia.
Qed.

Lemma range_In (n i : Z) : In i (range n) <-> 0 <= i < n.
Proof.
  unfold range; rewrite in_map_iff; split.
  - intros (k & <- & Hk); apply in_seq in Hk; lia.
  - intros Hi; exists (Z.to_nat i); split; [lia | apply in_seq; lia].
Qed.

(** ** [distribute_chars]: the budget of every paragraph *)

Section Distribute.

Variables base remainder : Z.

Let entry (i : Z) : Z := base + (if i <? remainder then 1 else 0).

(** Sum of the first [k] entries: [k] times the base plus one unit for
    each index below the remainder. *)
Lemma sum_entries (k : nat) :
  0 <= remainder ->
  sum (map entry (map Z.of_nat (seq 0 k)))
  = Z.of_nat k * base + Z.min (Z.of_nat k) remainder.
Proof.
  intros Hr; induction k as [|k IH].
  - simpl; unfold sum; simpl; lia.
  - rewrite seq_S, !map_app, sum_app, IH.
    cbn [map Nat.add]; unfold sum; cbn [fold_left]; unfold entry.
    rewrite Nat2Z.inj_succ.
    destruct (Z.ltb_spec (Z.of_nat k) remainder); lia.
Qed.

End Distribute.

Lemma distribute_chars_pos (total_chars paragraphs : Z) :
  0 < paragraphs ->
  distribute_chars total_chars paragraphs
  = map (fun i => total_chars / paragraphs
                  + (if i <? total_chars mod paragraphs then 1 else 0))
        (range paragraphs).
Proof.
  intros Hp; unfold distribute_chars.
  destruct (Z.leb_spec paragraphs 0); [lia | reflexivity].
Qed.

Lemma distribute_chars_In (total_chars paragraphs n : Z) :
  0 < paragraphs ->
  In n (distribute_chars total_chars paragraphs) ->
  n = total_chars / paragraphs \/ n = total_chars / paragraphs + 1.
Proof.
  intros Hp; rewrite distribute_chars_pos by assumption.
  rewrite in_map_iff; intros (i & <- & _).
  destruct (i <? total_chars mod paragraphs); lia.
Qed.

(** C1: for [total_chars >= 0] and [paragraphs > 0], [distribute_chars]
    returns exactly [paragraphs] non-negative integers that sum to
    [total_chars], any two of them differ by at most 1, and the entry at
    index [i] is the quotient plus one exactly when [i] is below the
    remainder of the division (the first [remainder] entries get the +1). *)
Theorem distribute_chars_spec (total_chars paragraphs : Z) :
  0 <= total_chars -> 0 < paragraphs ->
  let d := distribute_chars total_chars paragraphs in
  len d = paragraphs /\
  Forall (fun n => 0 <= n) d /\
  sum d = total_chars /\
  (forall a b, In a d -> In b d -> Z.abs (a - b) <= 1) /\
  (forall i, 0 <= i < paragraphs ->
     nth (Z.to_nat i) d 0
     = total_chars / paragraphs
       + (if i <? total_chars mod paragraphs then 1 else 0)).
Proof.
  intros Ht Hp d.
  assert (Hq : 0 <= total_chars / paragraphs) by (apply Z.div_pos; lia).
  assert (Hr := Z.mod_pos_bound total_chars paragraphs Hp).
  repeat split.
  - subst d; rewrite distribute_chars_pos by assumption.
    unfold len; rewrite length_map; apply range_length; lia.
  - apply Forall_forall; intros n Hn.
    apply distribute_chars_In in Hn; [lia | assumption].
  - subst d; rewrite distribute_chars_pos by assumption.
    unfold range; rewrite sum_entries by lia.
    rewrite Z2Nat.id by lia.
    rewrite (Z.div_mod total_chars paragraphs) at 3 by lia.
    lia.
  - intros a b Ha Hb.
    apply distribute_chars_In in Ha, Hb; try assumption; lia.
  - intros i Hi; subst d; rewrite distribute_chars_pos by assumption.
    set (f := fun j => _ + _).
    assert (E : f 0 = f 0) by reflexivity.
    rewrite (nth_indep _ 0 (f 0)).
    + rewrite map_nth, range_nth by lia; reflexivity.
    + rewrite length_map.
      pose proof (range_length paragraphs) as L; unfold len in L; lia.
Qed.

Lemma distribute_chars_spec_witness :
  let d := distribute_chars 10 3 in
  len d = 3 /\
  Forall (fun n => 0 <= n) d /\
  sum d = 10 /\
  (forall a b, In a d -> In b d -> Z.abs (a - b) <= 1) /\
  (forall i, 0 <= i < 3 ->
     nth (Z.to_nat i) d 0 = 10 / 3 + (if i <? 10 mod 3 then 1 else 0)).
Proof. apply (distribute_chars_spec 10 3); lia. Defined.

(** C9: with no paragraphs requested the distribution is empty, whatever
    the total. *)
Theorem distribute_chars_zero (x : Z) : distribute_chars x 0 = [].
Proof. reflexivity. Qed.

(** ** The minimum budget *)

Lemma min_budget_fallback_ge (total_chars paragraphs : Z) :
  paragraphs * 20 <= min_budget_fallback total_chars paragraphs.
Proof.
  unfold min_budget_fallback.
  destruct (Z.ltb_spec total_chars (paragraphs * 20)); lia.
Qed.

Lemma distribute_chars_ge (total_chars paragraphs m : Z) :
  0 <= m -> paragraphs * m <= total_chars ->
  Forall (fun n => m <= n) (distribute_chars total_chars paragraphs).
Proof.
  intros Hm Ht; apply Forall_forall; intros n Hn.
  destruct (Z.leb_spec paragraphs 0) as [Hp|Hp].
  - unfold distribute_chars in Hn.
    destruct (Z.leb_spec paragraphs 0); [contradiction | lia].
  - apply distribute_chars_In in Hn; [|assumption].
    assert (m <= total_chars / paragraphs)
      by (apply Z.div_le_lower_bound; lia).
    lia.
Qed.

(** C6: when [total_chars < paragraphs * 20] the total handed to
    [distribute_chars] is [max(total_chars, paragraphs * 20)]; with the
    total so adjusted every budget of the distribution is at least 20; and
    5 paragraphs with 10 characters give the total 100. *)
Theorem min_budget_fallback_spec (total_chars paragraphs : Z) :
  (total_chars < paragraphs * 20 ->
   min_budget_fallback total_chars paragraphs
   = Z.max total_chars (paragraphs * 20)) /\
  Forall (fun n => 20 <= n)
    (distribute_chars (min_budget_fallback total_chars paragraphs) paragraphs) /\
  min_budget_fallback 10 5 = 100.
Proof.
  split; [|split].
  - intros H; unfold min_budget_fallback.
    destruct (Z.ltb_spec total_chars (paragraphs * 20)); [reflexivity | lia].
  - apply distribute_chars_ge; [lia | apply min_budget_fallback_ge].
  - reflexivity.
Qed.

Lemma min_budget_fallback_spec_witness :
  10 < 5 * 20 /\
  min_budget_fallback 10 5 = Z.max 10 (5 * 20) /\
  Forall (fun n => 20 <= n) (distribute_chars (min_budget_fallback 10 5) 5).
Proof.
  split; [lia|].
  split.
  - apply (proj1 (min_budget_fallback_spec 10 5)); lia.
  - exact (proj1 (proj2 (min_budget_fallback_spec 10 5))).
Defined.

(** ** Strings *)

(** Case analysis on the 256 characters. *)
Ltac each_char c :=
  destruct c as [[] [] [] [] [] [] [] []]; vm_compute; try reflexivity;
  try discriminate; auto.

Lemma upper_char_alpha (c : ascii) :
  is_lower c = true -> is_alpha (upper_char c) = true.
Proof. each_char c. Qed.

Lemma lower_char_lower (c : ascii) : is_lower c = true -> lower_char c = c.
Proof. each_char c. Qed.

Lemma is_lower_alpha (c : ascii) : is_lower c = true -> is_alpha c = true.
Proof. each_char c. Qed.

Lemma alpha_not_space (c : ascii) : is_alpha c = true -> isspace c = false.
Proof. each_char c. Qed.

Lemma join_cons2 (sep p q : str) (r : list str) :
  join sep (p :: q :: r) = p ++ sep ++ join sep (q :: r).
Proof. reflexivity. Qed.

Lemma join_snoc (sep w : str) (ws : list str) :
  join sep (ws ++ [w])
  = match ws with [] => w | _ :: _ => join sep ws ++ sep ++ w end.
Proof.
  induction ws as [|a ws IH]; [reflexivity|].
  destruct ws as [|b ws].
  - reflexivity.
  - change ((a :: b :: ws) ++ [w]) with (a :: (b :: ws) ++ [w]).
    cbn [app]; rewrite !join_cons2.
    change (b :: ws ++ [w]) with ((b :: ws) ++ [w]); rewrite IH.
    now rewrite <- !app_assoc.
Qed.

Lemma join_snoc_app (sep w x : str) (ws : list str) :
  join sep (ws ++ [w ++ x]) = join sep (ws ++ [w]) ++ x.
Proof.
  rewrite !join_snoc; destruct ws; [reflexivity|].
  now rewrite <- !app_assoc.
Qed.

Lemma len_join_snoc (sep w : str) (ws : list str) :
  len (join sep (ws ++ [w]))
  = len (join sep ws) + (match ws with [] => 0 | _ :: _ => len sep end) + len w.
Proof.
  rewrite join_snoc; destruct ws.
  - simpl join; change (len (@nil ascii)) with 0; lia.
  - rewrite !len_app; lia.
Qed.

Lemma join_Forall (P : ascii -> Prop) (sep : str) (ws : list str) :
  Forall P sep -> Forall (Forall P) ws -> Forall P (join sep ws).
Proof.
  intros Hsep; induction ws as [|a ws IH]; intros H; [constructor|].
  inversion H as [|? ? Ha Hws]; subst.
  destruct ws as [|b ws]; [exact Ha|].
  rewrite join_cons2; rewrite !Forall_app; auto.
Qed.

(** *** [strip] *)

Lemma lstrip_decompose (s : str) :
  exists pre, s = pre ++ lstrip s /\ forallb isspace pre = true.
Proof.
  induction s as [|c s (pre & E & Hpre)].
  - exists []; split; reflexivity.
  - simpl; destruct (isspace c) eqn:Hc.
    + exists (c :: pre); split; [now rewrite E at 1 | simpl; now rewrite Hc].
    + exists []; split; reflexivity.
Qed.

Lemma rstrip_decompose (s : str) :
  exists post, s = rstrip s ++ post /\ forallb isspace post = true.
Proof.
  destruct (lstrip_decompose (rev s)) as (pre & E & Hpre).
  exists (rev pre); split.
  - unfold rstrip; rewrite <- rev_app_distr, <- E; now rewrite rev_involutive.
  - rewrite forallb_forall in *; intros c Hc; apply Hpre.
    now apply in_rev.
Qed.

Lemma strip_decompose (s : str) :
  exists pre post,
    s = pre ++ strip s ++ post
    /\ forallb isspace pre = true /\ forallb isspace post = true.
Proof.
  destruct (lstrip_decompose s) as (pre & E1 & H1).
  destruct (rstrip_decompose (lstrip s)) as (post & E2 & H2).
  exists pre, post; repeat split; try assumption.
  unfold strip; now rewrite <- E2.
Qed.

Lemma lstrip_head (s t : str) (c : ascii) :
  lstrip s = c :: t -> isspace c = false.
Proof.
  induction s as [|d s IH]; simpl; [discriminate|].
  destruct (isspace d) eqn:Hd; [exact IH|].
  intros E; injection E as -> _; exact Hd.
Qed.

Lemma lstrip_snoc (s : str) (c : ascii) :
  isspace c = false -> lstrip (s ++ [c]) = lstrip s ++ [c].
Proof.
  intros Hc; induction s as [|d s IH]; simpl.
  - now rewrite Hc.
  - destruct (isspace d); [exact IH | reflexivity].
Qed.

Lemma rstrip_cons (s : str) (c : ascii) :
  isspace c = false -> rstrip (c :: s) = c :: rstrip s.
Proof.
  intros Hc; unfold rstrip; simpl rev.
  rewrite lstrip_snoc by assumption.
  now rewrite rev_app_distr.
Qed.

Lemma rstrip_last (s t : str) (c : ascii) :
  rstrip s = t ++ [c] -> isspace c = false.
Proof.
  unfold rstrip; intros E.
  apply (f_equal (@rev ascii)) in E.
  rewrite rev_involutive, rev_app_distr in E; simpl in E.
  exact (lstrip_head _ _ _ E).
Qed.

Lemma rstrip_snoc (s : str) (c : ascii) :
  isspace c = false -> rstrip (s ++ [c]) = s ++ [c].
Proof.
  intros Hc; unfold rstrip.
  rewrite rev_app_distr; simpl; rewrite Hc.
  change (c :: rev s) with (rev [c] ++ rev s).
  now rewrite <- rev_app_distr, rev_involutive.
Qed.

Lemma strip_head (s t : str) (c : ascii) :
  strip s = c :: t -> isspace c = false.
Proof.
  unfold strip; destruct (lstrip s) as [|d u] eqn:E.
  - discriminate.
  - pose proof (lstrip_head _ _ _ E) as Hd.
    rewrite rstrip_cons by assumption.
    intros E'; injection E' as <- _; exact Hd.
Qed.

Lemma strip_last (s t : str) (c : ascii) :
  strip s = t ++ [c] -> isspace c = false.
Proof. unfold strip; apply rstrip_last. Qed.

(** A string that neither starts nor ends with whitespace is its own
    [strip]. *)
Lemma strip_id (c d : ascii) (s : str) :
  isspace c = false -> isspace d = false ->
  strip ((c :: s) ++ [d]) = (c :: s) ++ [d].
Proof.
  intros Hc Hd; unfold strip.
  simpl lstrip; rewrite Hc.
  change (c :: s ++ [d]) with ((c :: s) ++ [d]).
  now apply rstrip_snoc.
Qed.

Lemma strip_length (s : str) : len (strip s) <= len s.
Proof.
  destruct (strip_decompose s) as (pre & post & E & _).
  rewrite E at 2; rewrite !len_app.
  pose proof (len_nonneg pre); pose proof (len_nonneg post); lia.
Qed.

Lemma rstrip_length (s : str) : len (rstrip s) <= len s.
Proof.
  destruct (rstrip_decompose s) as (post & E & _).
  rewrite E at 2; rewrite len_app; pose proof (len_nonneg post); lia.
Qed.

Lemma strip_Forall (P : ascii -> Prop) (s : str) :
  Forall P s -> Forall P (strip s).
Proof.
  destruct (strip_decompose s) as (pre & post & E & _).
  rewrite E at 1; rewrite !Forall_app; tauto.
Qed.

Lemma rstrip_Forall (P : ascii -> Prop) (s : str) :
  Forall P s -> Forall P (rstrip s).
Proof.
  destruct (rstrip_decompose s) as (post & E & _).
  rewrite E at 1; rewrite Forall_app; tauto.
Qed.

(** ** The word pool *)

Lemma LOREM_WORDS_words : forallb pool_word LOREM_WORDS = true.
Proof. vm_compute; reflexivity. Qed.

Lemma LOREM_WORDS_length : length LOREM_WORDS = 69%nat.
Proof. vm_compute; reflexivity. Qed.

Lemma LOREM_WORDS_len : len LOREM_WORDS = 69.
Proof. unfold len; now rewrite LOREM_WORDS_length. Qed.

Lemma pool_word_In (w : str) :
  In w LOREM_WORDS -> (2 <= length w)%nat /\ forallb is_lower w = true.
Proof.
  intros Hw.
  pose proof (proj1 (forallb_forall _ _) LOREM_WORDS_words w Hw) as H.
  unfold pool_word in H; apply andb_prop in H as [H1 H2].
  split; [now apply Nat.leb_le | assumption].
Qed.

Lemma capitalize_length (w : str) : length (capitalize w) = length w.
Proof. destruct w; simpl; [|rewrite length_map]; reflexivity. Qed.

Lemma capitalize_alpha (w : str) :
  forallb is_lower w = true ->
  Forall (fun c => is_alpha c = true) (capitalize w).
Proof.
  intros H; destruct w as [|c w]; simpl in *; [constructor|].
  apply andb_prop in H as [Hc Hw]; constructor.
  - now apply upper_char_alpha.
  - rewrite forallb_forall in Hw; apply Forall_forall; intros d Hd.
    apply in_map_iff in Hd as (e & <- & He).
    rewrite lower_char_lower by auto.
    apply is_lower_alpha; auto.
Qed.

Lemma lower_word_alpha (w : str) :
  forallb is_lower w = true -> Forall (fun c => is_alpha c = true) w.
Proof.
  rewrite forallb_forall; intros H; apply Forall_forall; intros c Hc.
  apply is_lower_alpha; auto.
Qed.

Lemma pool_letters (w : str) : In w LOREM_WORDS -> letters w.
Proof.
  intros H; apply pool_word_In in H as [H1 H2]; split;
    [assumption | now apply lower_word_alpha].
Qed.

Lemma pool_capitalize_letters (w : str) :
  In w LOREM_WORDS -> letters (capitalize w).
Proof.
  intros H; apply pool_word_In in H as [H1 H2]; split;
    [now rewrite capitalize_length | now apply capitalize_alpha].
Qed.

(** ** The generator *)

Section GeneratorFacts.

Context {R : RandomSource}.

Lemma choice_In (g g' : rng) (w : str) :
  choice LOREM_WORDS g = (w, g') -> In w LOREM_WORDS.
Proof.
  unfold choice.
  pose proof (randbelow_range (len LOREM_WORDS) g) as Hr.
  destruct (randbelow (len LOREM_WORDS) g) as [i g1]; cbn [fst] in Hr.
  rewrite LOREM_WORDS_len in Hr.
  intros E; injection E as Ew _; rewrite <- Ew.
  assert (Hi : (Z.to_nat i < length LOREM_WORDS)%nat)
    by (rewrite LOREM_WORDS_length; lia).
  exact (nth_In LOREM_WORDS [] Hi).
Qed.

Lemma letters_len (w : str) : letters w -> 2 <= len w.
Proof. intros [H _]; unfold len; lia. Qed.

(** *** [gen_title] *)

(** The loop of [gen_title] returns, whatever the draws, once the words
    joined by spaces reach [char_count]: each pass adds a character at
    least. *)
Lemma gen_title_loop_spec (char_count : Z) (fuel : nat) :
  forall (words : list str) (g : rng),
    Forall letters words ->
    char_count <= Z.of_nat fuel + len (join [SPACE] words) ->
    exists words' g',
      gen_title_loop fuel char_count words g = Val (words', g')
      /\ Forall letters words'
      /\ char_count <= len (join [SPACE] words').
Proof.
  induction fuel as [|fuel IH]; intros words g Hw Hfuel; simpl.
  - destruct (Z.ltb_spec (len (join [SPACE] words)) char_count); [lia|].
    exists words, g; auto.
  - destruct (Z.ltb_spec (len (join [SPACE] words)) char_count).
    + destruct (choice LOREM_WORDS g) as [w g1] eqn:Hc.
      apply choice_In in Hc.
      set (w' := match words with [] => capitalize w | _ :: _ => w end).
      assert (Hw' : letters w').
      { subst w'; destruct words;
          [now apply pool_capitalize_letters | now apply pool_letters]. }
      apply IH.
      * apply Forall_app; split; [assumption | now constructor].
      * rewrite len_join_snoc.
        pose proof (letters_len _ Hw').
        assert (0 <= match words with [] => 0 | _ :: _ => len [SPACE] end)
          by (destruct words; [lia | apply len_nonneg]).
        lia.
    + exists words, g; auto.
Qed.

Lemma letters_or_space_join (words : list str) :
  Forall letters words ->
  Forall (fun c => is_alpha c = true \/ c = SPACE) (join [SPACE] words).
Proof.
  intros H; apply join_Forall.
  - constructor; [now right | constructor].
  - eapply Forall_impl; [|exact H].
    intros w [_ Hw]; eapply Forall_impl; [|exact Hw]; now left.
Qed.

Lemma slice_to_Forall (P : ascii -> Prop) (s : str) (e : Z) :
  Forall P s -> Forall P (slice_to s e).
Proof.
  intros H; unfold slice_to.
  rewrite <- (firstn_skipn (Z.to_nat (if e <? 0 then len s + e else e)) s) in H.
  now apply Forall_app in H.
Qed.

Lemma slice_to_length (s : str) (e : Z) : 0 <= e -> len (slice_to s e) <= e.
Proof.
  intros He; unfold slice_to, len.
  destruct (Z.ltb_spec e 0); [lia|].
  rewrite length_firstn; lia.
Qed.

Lemma alpha_or_space_facts (c : ascii) :
  is_alpha c = true \/ c = SPACE ->
  is_punctuation c = false /\ is_line_break c = false.
Proof. intros [H| ->]; [|split; reflexivity]. revert H; each_char c. Qed.

(** [gen_title] returns, and what it returns. *)
Lemma gen_title_returns (char_count : Z) (g : rng) :
  (0 < char_count ->
   exists title g',
     gen_title char_count g = Val (title, g')
     /\ len title <= char_count
     /\ Forall (fun c => is_alpha c = true \/ c = SPACE) title
     /\ Forall (fun c => is_line_break c = false) title
     /\ Forall (fun c => is_punctuation c = false) title
     /\ (forall c t, title = c :: t -> isspace c = false)
     /\ (forall c t, title = t ++ [c] -> isspace c = false))
  /\ (char_count <= 0 -> gen_title char_count g = Val ([], g)).
Proof.
  split; intros Hc; unfold gen_title.
  - destruct (Z.leb_spec char_count 0); [lia|].
    destruct (gen_title_loop_spec char_count (Z.to_nat char_count) [] g
                (Forall_nil _))
      as (words & g' & -> & Hw & _); [cbn [join]; unfold len; simpl; lia|].
    cbn [bind].
    set (title := strip (rstrip (slice_to (join [SPACE] words) char_count))).
    assert (Hchars : Forall (fun c => is_alpha c = true \/ c = SPACE) title).
    { apply strip_Forall, rstrip_Forall, slice_to_Forall.
      now apply letters_or_space_join. }
    exists title, g'; repeat split.
    + subst title.
      pose proof (strip_length
        (rstrip (slice_to (join [SPACE] words) char_count))).
      pose proof (rstrip_length (slice_to (join [SPACE] words) char_count)).
      pose proof (slice_to_length (join [SPACE] words) char_count).
      lia.
    + exact Hchars.
    + eapply Forall_impl; [|exact Hchars].
      intros c Hcs; now apply alpha_or_space_facts.
    + eapply Forall_impl; [|exact Hchars].
      intros c Hcs; now apply alpha_or_space_facts.
    + intros c t E; exact (strip_head _ _ _ E).
    + intros c t E; exact (strip_last _ _ _ E).
  - destruct (Z.leb_spec char_count 0); [reflexivity | lia].
Qed.

(** C7: for [char_count > 0], whatever the state of the generator,
    [gen_title] returns a title of at most [char_count] characters, made
    of letters and spaces only, hence on one line and without punctuation,
    which neither starts nor ends with whitespace; for [char_count <= 0]
    it returns the empty string. *)
Theorem gen_title_spec (char_count : Z) (g : rng) :
  (0 < char_count ->
   exists title g',
     gen_title char_count g = Val (title, g')
     /\ len title <= char_count
     /\ Forall (fun c => is_alpha c = true \/ c = SPACE) title
     /\ Forall (fun c => is_line_break c = false) title
     /\ Forall (fun c => is_punctuation c = false) title
     /\ (forall c t, title = c :: t -> isspace c = false)
     /\ (forall c t, title = t ++ [c] -> isspace c = false))
  /\ (char_count <= 0 -> gen_title char_count g = Val ([], g)).
Proof. exact (gen_title_returns char_count g). Qed.

(** *** [gen_paragraph] *)

Lemma end_sentence_snoc (words : list str) (w : str) :
  end_sentence (words ++ [w]) = words ++ [w ++ [PERIOD]].
Proof.
  unfold end_sentence; now rewrite removelast_last, last_last.
Qed.

Lemma pool_token_plain (w : str) (b : bool) :
  In w LOREM_WORDS -> pool_token (if b then capitalize w else w).
Proof. intros H; exists w; destruct b; auto. Qed.

Lemma pool_token_period (w : str) (b : bool) :
  In w LOREM_WORDS ->
  pool_token ((if b then capitalize w else w) ++ [PERIOD]).
Proof. intros H; exists w; destruct b; auto. Qed.

(** A token is a run of letters, or such a run and a period. *)
Lemma pool_token_letters (t : str) :
  pool_token t -> letters t \/ exists u, letters u /\ t = u ++ [PERIOD].
Proof.
  intros (w & Hw & [-> | [-> | [-> | ->]]]).
  - left; now apply pool_letters.
  - left; now apply pool_capitalize_letters.
  - right; exists w; split; [now apply pool_letters | reflexivity].
  - right; exists (capitalize w); split;
      [now apply pool_capitalize_letters | reflexivity].
Qed.

Lemma pool_token_len (t : str) : pool_token t -> 2 <= len t.
Proof.
  intros H; apply pool_token_letters in H as [H | (u & H & ->)].
  - now apply letters_len.
  - apply letters_len in H; rewrite len_app; pose proof (len_nonneg [PERIOD]).
    lia.
Qed.

(** The loop of [gen_paragraph] returns, whatever the draws: [char_len]
    grows at each pass and never exceeds the length of the joined words. *)
Lemma gen_paragraph_loop_spec (target_chars : Z) (fuel : nat) :
  forall (words : list str) (char_len sentence_len words_in_sentence : Z)
         (g : rng),
    Forall pool_token words ->
    char_len <= len (join [SPACE] words) ->
    target_chars <= Z.of_nat fuel + char_len ->
    exists words' g',
      gen_paragraph_loop fuel target_chars words char_len sentence_len
        words_in_sentence g = Val (words', g')
      /\ Forall pool_token words'
      /\ target_chars <= len (join [SPACE] words').
Proof.
  induction fuel as [|fuel IH];
    intros words char_len sentence_len wis g Hw Hlen Hfuel;
    cbn [gen_paragraph_loop].
  - destruct (Z.ltb_spec char_len target_chars); [lia|].
    exists words, g; repeat split; [assumption | lia].
  - destruct (Z.ltb_spec char_len target_chars);
      [|exists words, g; repeat split; [assumption | lia]].
    destruct (choice LOREM_WORDS g) as [w g1] eqn:Hc.
    apply choice_In in Hc.
    set (w' := if wis =? 0 then capitalize w else w).
    assert (Hgrow : len (join [SPACE] words) + 2
                    <= len (join [SPACE] (words ++ [w']))).
    { rewrite len_join_snoc.
      pose proof (pool_token_len _ (pool_token_plain w (wis =? 0) Hc)) as Ht.
      fold w' in Ht.
      assert (0 <= match words with [] => 0 | _ :: _ => len [SPACE] end)
        by (destruct words; [lia | apply len_nonneg]).
      lia. }
    destruct (Z.leb_spec sentence_len (wis + 1)).
    + destruct (randint 6 20 g1) as [sentence_len' g2].
      apply IH.
      * rewrite end_sentence_snoc; apply Forall_app; split; [assumption|].
        constructor; [|constructor].
        subst w'; now apply pool_token_period.
      * rewrite end_sentence_snoc, join_snoc_app, len_app.
        pose proof (len_nonneg [PERIOD]); lia.
      * lia.
    + apply IH.
      * apply Forall_app; split; [assumption|].
        constructor; [|constructor].
        subst w'; now apply pool_token_plain.
      * lia.
      * lia.
Qed.

Lemma letters_head (u : str) :
  letters u -> exists c u', u = c :: u' /\ isspace c = false.
Proof.
  intros [Hl Hu]; destruct u as [|c u']; [simpl in Hl; lia|].
  exists c, u'; split; [reflexivity|].
  inversion Hu; subst; now apply alpha_not_space.
Qed.

Lemma letters_last (u : str) :
  letters u -> exists u0 d, u = u0 ++ [d] /\ is_alpha d = true.
Proof.
  intros [Hl Hu].
  destruct (exists_last (l := u)) as (u0 & d & ->).
  { intros ->; simpl in Hl; lia. }
  exists u0, d; split; [reflexivity|].
  apply Forall_app in Hu as [_ Hd]; now inversion Hd.
Qed.

Lemma pool_token_head (t : str) :
  pool_token t -> exists c t', t = c :: t' /\ isspace c = false.
Proof.
  intros H; apply pool_token_letters in H as [H | (u & H & ->)].
  - now apply letters_head.
  - apply letters_head in H as (c & u' & -> & Hc).
    exists c, (u' ++ [PERIOD]); auto.
Qed.

Lemma pool_token_last (t : str) :
  pool_token t -> exists t0 d, t = t0 ++ [d] /\ isspace d = false.
Proof.
  intros H; apply pool_token_letters in H as [H | (u & H & ->)].
  - apply letters_last in H as (u0 & d & -> & Hd).
    exists u0, d; split; [reflexivity | now apply alpha_not_space].
  - exists u, PERIOD; split; reflexivity.
Qed.

Lemma join_head (sep t' : str) (c : ascii) (rest : list str) :
  exists s, join sep ((c :: t') :: rest) = c :: s.
Proof. destruct rest; simpl; eauto. Qed.

Lemma join_last (sep t0 : str) (d : ascii) (ws : list str) :
  exists s, join sep (ws ++ [t0 ++ [d]]) = s ++ [d].
Proof.
  rewrite join_snoc; destruct ws as [|a ws'].
  - now exists t0.
  - exists (join sep (a :: ws') ++ sep ++ t0); now rewrite <- !app_assoc.
Qed.

Lemma strip_outer (s rest pre : str) (c d : ascii) :
  s = c :: rest -> s = pre ++ [d] ->
  isspace c = false -> isspace d = false -> strip s = s.
Proof.
  intros E1 E2 Hc Hd; unfold strip.
  assert (El : lstrip s = s) by (rewrite E1; simpl; now rewrite Hc).
  rewrite El, E2; now apply rstrip_snoc.
Qed.

Lemma endswith_snoc (s : str) (d c : ascii) :
  endswith (s ++ [d]) c = Ascii.eqb d c.
Proof. unfold endswith; now rewrite rev_app_distr. Qed.

(** [gen_paragraph] returns for a positive budget, and what it returns. *)
Lemma gen_paragraph_returns (target_chars : Z) (g : rng) :
  0 < target_chars ->
  exists paragraph g',
    gen_paragraph target_chars g = Val (paragraph, g')
    /\ target_chars <= len paragraph
    /\ endswith paragraph PERIOD = true
    /\ exists tokens,
         paragraph = join [SPACE] tokens /\ Forall pool_token tokens.
Proof.
  intros Ht; unfold gen_paragraph.
  destruct (Z.leb_spec target_chars 0); [lia|].
  destruct (randint 8 16 g) as [sentence_len g0].
  destruct (gen_paragraph_loop_spec target_chars (Z.to_nat target_chars)
              [] 0 sentence_len 0 g0 (Forall_nil _))
    as (words & g' & -> & Hw & Hlen);
    [cbn [join]; unfold len; simpl; lia | lia |].
  cbn [bind].
  destruct (exists_last (l := words)) as (ws & t & ->).
  { intros ->; cbn [join] in Hlen; unfold len in Hlen; simpl in Hlen; lia. }
  pose proof Hw as Hw'.
  apply Forall_app in Hw' as [Hws Htok]; inversion Htok as [|? ? Ht' _]; subst.
  destruct (pool_token_last t Ht') as (t0 & d & -> & Hd).
  assert (Hfirst : exists c rest, join [SPACE] (ws ++ [t0 ++ [d]]) = c :: rest
                                  /\ isspace c = false).
  { destruct ws as [|a ws'].
    - destruct (pool_token_head _ Ht') as (c & t' & E & Hc).
      cbn [app join]; rewrite E; eauto.
    - inversion Hws as [|? ? Ha _]; subst.
      destruct (pool_token_head _ Ha) as (c & a' & -> & Hc).
      destruct (join_head [SPACE] a' c (ws' ++ [t0 ++ [d]])) as (rest & E).
      exists c, rest; split; [exact E | exact Hc]. }
  destruct Hfirst as (c & rest & Ehead & Hc).
  destruct (join_last [SPACE] t0 d ws) as (pre & Elast).
  cbv zeta.
  erewrite strip_outer; [| exact Ehead | exact Elast | exact Hc | exact Hd].
  exists (if endswith (join [SPACE] (ws ++ [t0 ++ [d]])) PERIOD
          then join [SPACE] (ws ++ [t0 ++ [d]])
          else join [SPACE] (ws ++ [t0 ++ [d]]) ++ [PERIOD]), g'.
  split; [reflexivity|].
  destruct (endswith (join [SPACE] (ws ++ [t0 ++ [d]])) PERIOD) eqn:Hend.
  - repeat split; [exact Hlen | exact Hend |].
    exists (ws ++ [t0 ++ [d]]); split; [reflexivity | exact Hw].
  - repeat split.
    + rewrite len_app; pose proof (len_nonneg [PERIOD]); lia.
    + apply endswith_snoc.
    + exists (ws ++ [(t0 ++ [d]) ++ [PERIOD]]); split;
        [symmetry; apply join_snoc_app|].
      apply Forall_app; split; [assumption|].
      constructor; [|constructor].
      rewrite Elast, endswith_snoc in Hend.
      destruct Ht' as (w & Hin & [E | [E | [E | E]]]).
      * rewrite E; exists w; auto.
      * rewrite E; exists w; auto 6.
      * apply app_inj_tail in E as [_ ->].
        now rewrite Ascii.eqb_refl in Hend.
      * apply app_inj_tail in E as [_ ->].
        now rewrite Ascii.eqb_refl in Hend.
Qed.

(** C3: for [target_chars > 0], whatever the state of the generator,
    [gen_paragraph] returns a string of at least [target_chars]
    characters that ends with a period and is made of words of the pool
    joined by single spaces, a word being possibly capitalized and
    possibly followed by a period. *)
Theorem gen_paragraph_spec (target_chars : Z) (g : rng) :
  0 < target_chars ->
  exists paragraph g',
    gen_paragraph target_chars g = Val (paragraph, g')
    /\ target_chars <= len paragraph
    /\ endswith paragraph PERIOD = true
    /\ exists tokens,
         paragraph = join [SPACE] tokens /\ Forall pool_token tokens.
Proof. exact (gen_paragraph_returns target_chars g). Qed.

(** The guard of [gen_paragraph]. *)
Lemma gen_paragraph_guard (target_chars : Z) (g : rng) :
  target_chars <= 0 ->
  gen_paragraph target_chars g = Val ([], g)
  /\ forall paragraph g', gen_paragraph target_chars g = Val (paragraph, g') ->
       paragraph = [] /\ forall n, randbelow n g' = randbelow n g.
Proof.
  intros Ht; unfold gen_paragraph.
  destruct (Z.leb_spec target_chars 0); [|lia].
  split; [reflexivity|].
  intros paragraph g' E; injection E as <- <-; auto.
Qed.

(** C8: for [target_chars <= 0], [gen_paragraph] returns the empty string
    and the generator in the state it received, so that any draw made
    afterwards is the draw the untouched generator makes. *)
Theorem gen_paragraph_nonpositive (target_chars : Z) (g : rng) :
  target_chars <= 0 ->
  gen_paragraph target_chars g = Val ([], g)
  /\ forall paragraph g', gen_paragraph target_chars g = Val (paragraph, g') ->
       paragraph = [] /\ forall n, randbelow n g' = randbelow n g.
Proof. exact (gen_paragraph_guard target_chars g). Qed.

(** A paragraph generated for a positive budget has a visible
    character, its first letter. *)
Lemma gen_paragraph_visible (target_chars : Z) (g g' : rng) (paragraph : str) :
  0 < target_chars ->
  gen_paragraph target_chars g = Val (paragraph, g') -> visible paragraph.
Proof.
  intros Ht E.
  destruct (gen_paragraph_returns target_chars g Ht)
    as (p & g1 & E' & Hlen & _ & tokens & -> & Htokens).
  rewrite E' in E; injection E as <- _.
  destruct tokens as [|t tokens].
  - cbn [join] in Hlen; change (len (@nil ascii)) with 0 in Hlen; lia.
  - inversion Htokens as [|? ? Ht' _]; subst.
    destruct (pool_token_head t Ht') as (c & t' & -> & Hc).
    destruct (join_head [SPACE] t' c tokens) as (rest & ->).
    exists c; split; [now left | assumption].
Qed.

Lemma gen_paragraphs_visible (distribution : list Z) :
  Forall (fun n => 0 < n) distribution ->
  forall g paragraphs_text g',
    gen_paragraphs distribution g = Val (paragraphs_text, g') ->
    Forall visible paragraphs_text.
Proof.
  induction 1 as [|n distribution Hn _ IH]; intros g ps g';
    cbn [gen_paragraphs].
  - intros E; injection E as <- _; constructor.
  - destruct (gen_paragraph n g) as [[p g1]| |] eqn:Ep; cbn [bind];
      try discriminate.
    destruct (gen_paragraphs distribution g1) as [[ps' g2]| |] eqn:Eps;
      cbn [bind]; try discriminate.
    intros E; injection E as <- _; constructor.
    + now apply (gen_paragraph_visible n g g1).
    + now apply (IH g1 ps' g2).
Qed.

(** [gen_paragraph] returns for every budget. *)
Lemma gen_paragraph_total (target_chars : Z) (g : rng) :
  exists paragraph g',
    gen_paragraph target_chars g = Val (paragraph, g')
    /\ (0 < target_chars -> target_chars <= len paragraph).
Proof.
  destruct (Z.leb_spec target_chars 0) as [Hn | Hp].
  - exists [], g; split; [|lia].
    now apply gen_paragraph_guard.
  - destruct (gen_paragraph_returns target_chars g Hp) as (p & g' & E & Hl & _).
    exists p, g'; auto.
Qed.

Lemma gen_paragraphs_spec (distribution : list Z) :
  forall g : rng,
    exists paragraphs_text g',
      gen_paragraphs distribution g = Val (paragraphs_text, g')
      /\ Forall2 (fun n p => 0 < n -> n <= len p) distribution paragraphs_text.
Proof.
  induction distribution as [|n distribution IH]; intros g; cbn [gen_paragraphs].
  - exists [], g; split; [reflexivity | constructor].
  - destruct (gen_paragraph_total n g) as (p & g1 & -> & Hp); cbn [bind].
    destruct (IH g1) as (ps & g2 & -> & Hps); cbn [bind].
    exists (p :: ps), g2; split; [reflexivity | now constructor].
Qed.

(** [generate] returns for every configuration. *)
Lemma generate_total (settings : Settings) (g : rng) :
  exists paragraphs_text title_text,
    generate settings g = Val (paragraphs_text, title_text).
Proof.
  unfold generate.
  destruct (gen_paragraphs_spec
              (distribute_chars
                 (min_budget_fallback (characters settings)
                    (paragraphs settings)) (paragraphs settings)) g)
    as (ps & g1 & -> & _); cbn [bind].
  destruct (include_title settings).
  - destruct (Z.leb_spec (title_characters settings) 0) as [Hn | Hp].
    + rewrite (proj2 (gen_title_returns _ g1) Hn); cbn [bind]; eauto.
    + destruct (proj1 (gen_title_returns _ g1) Hp) as (t & g2 & -> & _).
      cbn [bind]; eauto.
  - cbn [bind]; eauto.
Qed.

Lemma endswith_In (s : str) (c : ascii) : endswith s c = true -> In c s.
Proof.
  unfold endswith; intros H; apply in_rev.
  destruct (rev s) as [|d r]; [discriminate|].
  apply Ascii.eqb_eq in H as ->; now left.
Qed.

(** What [main] hands to [render_markdown]: paragraphs that all have a
    visible character, and a title that does not end with a newline. *)
Lemma generate_spec (settings : Settings) (g : rng) :
  exists paragraphs_text title_text,
    generate settings g = Val (paragraphs_text, title_text)
    /\ Forall visible paragraphs_text
    /\ endswith title_text NEWLINE = false.
Proof.
  destruct (generate_total settings g) as (ps & title & E).
  exists ps, title; split; [exact E|].
  revert E; unfold generate.
  set (d := distribute_chars _ _).
  assert (Hd : Forall (fun n => 0 < n) d).
  { eapply Forall_impl;
      [|apply (distribute_chars_ge _ (paragraphs settings) 20);
        [lia | apply min_budget_fallback_ge]].
    cbn beta; intros; lia. }
  destruct (gen_paragraphs d g) as [[ps' g1]| |] eqn:Eps; cbn [bind];
    try discriminate.
  pose proof (gen_paragraphs_visible d Hd g ps' g1 Eps) as Hvis.
  destruct (include_title settings).
  - destruct (Z.leb_spec (title_characters settings) 0) as [Hn | Hp].
    + rewrite (proj2 (gen_title_returns _ g1) Hn); cbn [bind].
      intros E; injection E as <- <-; auto.
    + destruct (proj1 (gen_title_returns _ g1) Hp)
        as (t & g2 & -> & _ & _ & Hbreak & _); cbn [bind].
      intros E; injection E as <- <-; split; [assumption|].
      destruct (endswith t NEWLINE) eqn:Hend; [|reflexivity].
      apply endswith_In in Hend.
      rewrite Forall_forall in Hbreak; now apply Hbreak in Hend.
  - cbn [bind]; intros E; injection E as <- <-; auto.
Qed.

(** C10: with [paragraphs > 0] and [characters >= 0], the generation
    returns as many paragraphs as requested and each of them has at least
    20 characters: the fallback makes every budget at least 20 and
    [gen_paragraph] reaches its budget. *)
Theorem generate_min_length (settings : Settings) (g : rng) :
  0 < paragraphs settings -> 0 <= characters settings ->
  exists paragraphs_text title_text,
    generate settings g = Val (paragraphs_text, title_text)
    /\ len paragraphs_text = paragraphs settings
    /\ Forall (fun p => 20 <= len p) paragraphs_text.
Proof.
  intros Hp Hc.
  destruct (generate_total settings g) as (ps & t & E).
  exists ps, t; split; [exact E|].
  revert E; unfold generate.
  set (d := distribute_chars _ _).
  destruct (gen_paragraphs_spec d g) as (ps' & g1 & -> & H2); cbn [bind].
  intros E.
  assert (ps = ps').
  { destruct (if include_title settings
              then gen_title (title_characters settings) g1
              else Val ([], g1)) as [[t' g2]| |]; cbn [bind] in E;
      [now injection E as <- _ | discriminate | discriminate]. }
  subst ps'; clear E.
  assert (Hd : Forall (fun n => 20 <= n) d).
  { subst d; apply distribute_chars_ge; [lia | apply min_budget_fallback_ge]. }
  split.
  - unfold len; rewrite <- (Forall2_length H2); fold (len d); subst d.
    rewrite distribute_chars_pos by assumption.
    unfold len; rewrite length_map; apply range_length; lia.
  - clear -H2 Hd; induction H2 as [|n p d ps Hnp _ IH]; [constructor|].
    inversion Hd; subst; constructor; [lia | auto].
Qed.

End GeneratorFacts.

Lemma gen_title_spec_witness :
  exists title g',
    gen_title 10 (seeded 7) = Val (title, g')
    /\ len title <= 10
    /\ Forall (fun c => is_alpha c = true \/ c = SPACE) title
    /\ Forall (fun c => is_line_break c = false) title
    /\ Forall (fun c => is_punctuation c = false) title
    /\ (forall c t, title = c :: t -> isspace c = false)
    /\ (forall c t, title = t ++ [c] -> isspace c = false).
Proof.
  apply (proj1 (gen_title_spec (R := Lcg) 10 (seeded 7))); lia.
Defined.

Lemma gen_paragraph_spec_witness :
  exists paragraph g',
    gen_paragraph 30 (seeded 7) = Val (paragraph, g')
    /\ 30 <= len paragraph
    /\ endswith paragraph PERIOD = true
    /\ exists tokens,
         paragraph = join [SPACE] tokens /\ Forall pool_token tokens.
Proof. apply (gen_paragraph_spec (R := Lcg) 30 (seeded 7)); lia. Defined.

Lemma gen_paragraph_nonpositive_witness :
  gen_paragraph (-5) (seeded 7) = Val ([], seeded 7)
  /\ forall paragraph g', gen_paragraph (-5) (seeded 7) = Val (paragraph, g') ->
       paragraph = [] /\ forall n, randbelow n g' = randbelow n (seeded 7).
Proof. apply (gen_paragraph_nonpositive (R := Lcg) (-5) (seeded 7)); lia. Defined.

Lemma generate_min_length_witness :
  exists paragraphs_text title_text,
    generate DEFAULT_SETTINGS (seeded 7) = Val (paragraphs_text, title_text)
    /\ len paragraphs_text = 3
    /\ Forall (fun p => 20 <= len p) paragraphs_text.
Proof.
  apply (generate_min_length (R := Lcg) DEFAULT_SETTINGS (seeded 7));
    simpl; lia.
Defined.

(** ** [textwrap]: the chunks *)

Lemma span_le (f : ascii -> bool) (s : str) :
  (textwrap.span f s <= length s)%nat.
Proof.
  induction s as [|c s IH]; simpl; [lia|].
  destruct (f c); simpl; lia.
Qed.

Lemma word_rest_le (after : str) :
  forall before, (textwrap.word_rest before after <= length after)%nat.
Proof.
  induction after as [|c after IH]; intros before; simpl; [lia|].
  destruct (_ && _ && _); [lia|].
  destruct (textwrap.is_whitespace c); [lia|].
  destruct (_ && _); [lia|].
  specialize (IH (c :: before)); lia.
Qed.

(** At every position of a non-empty remainder [wordsep_re] matches at
    least one character. *)
Lemma match_length_bounds (before after : str) :
  after <> [] ->
  (1 <= textwrap.match_length before after <= length after)%nat.
Proof.
  destruct after as [|c after]; [congruence|]; intros _.
  unfold textwrap.match_length.
  destruct (textwrap.is_whitespace c) eqn:Hc.
  - pose proof (span_le textwrap.is_whitespace after) as H.
    cbn [textwrap.span length]; rewrite Hc; lia.
  - destruct (_ && _) eqn:Hd.
    + pose proof (span_le textwrap.is_hyphen (c :: after)) as H.
      apply andb_prop in Hd as [_ Hd]; unfold textwrap.dashes_then_word in Hd.
      apply andb_prop in Hd as [Hd _]; apply Nat.leb_le in Hd.
      cbn [length] in *; lia.
    + pose proof (word_rest_le after (c :: before)); cbn [length]; lia.
Qed.

Lemma split_loop_spec (fuel : nat) :
  forall before after,
    (length after <= fuel)%nat ->
    concat (textwrap.split_loop fuel before after) = after
    /\ Forall (fun chunk => chunk <> []) (textwrap.split_loop fuel before after).
Proof.
  induction fuel as [|fuel IH]; intros before after Hf.
  - destruct after; [|simpl in Hf; lia]; simpl; auto.
  - destruct after as [|c after]; [simpl; auto|].
    cbn [textwrap.split_loop].
    pose proof (match_length_bounds before (c :: after)) as Hn.
    set (n := textwrap.match_length before (c :: after)) in *.
    assert (Hn' : (1 <= n <= length (c :: after))%nat) by (apply Hn; congruence).
    destruct (IH (rev (firstn n (c :: after)) ++ before) (skipn n (c :: after)))
      as [E F].
    { rewrite length_skipn; cbn [length] in *; lia. }
    split.
    + cbn [concat]; rewrite E; apply firstn_skipn.
    + constructor; [|exact F].
      intros E0; apply (f_equal (@length ascii)) in E0.
      rewrite length_firstn in E0; cbn [length] in *; lia.
Qed.

(** The chunks of a text are non-empty and their concatenation is the
    text. *)
Lemma split_spec (text : str) :
  concat (textwrap.split text) = text
  /\ Forall (fun chunk => chunk <> []) (textwrap.split text).
Proof. apply split_loop_spec; lia. Qed.

Lemma isspace_false_facts (c : ascii) :
  isspace c = false ->
  textwrap.is_whitespace c = false /\ c <> TAB /\ c <> NEWLINE.
Proof.
  intros H; repeat split; try (intros ->; discriminate H).
  revert H; each_char c.
Qed.

Lemma expandtabs_from_keeps (c : ascii) (tabsize : Z) (text : str) :
  c <> TAB -> In c text ->
  forall line_pos, In c (textwrap.expandtabs_from tabsize line_pos text).
Proof.
  intros Hc; induction text as [|d text IH]; intros Hin line_pos;
    [contradiction|].
  cbn [textwrap.expandtabs_from].
  destruct (Ascii.eqb_spec d TAB) as [-> | Hd].
  - destruct Hin as [E | Hin]; [congruence|].
    destruct (0 <? tabsize); [apply in_or_app; right|]; now apply IH.
  - destruct Hin as [-> | Hin]; [now left | right; now apply IH].
Qed.

Lemma munge_whitespace_keeps (c : ascii) (text : str) :
  isspace c = false -> In c text -> In c (textwrap.munge_whitespace text).
Proof.
  intros Hc Hin; apply isspace_false_facts in Hc as (Hw & Ht & _).
  unfold textwrap.munge_whitespace, textwrap.translate_whitespace.
  apply in_map_iff; exists c; split; [now rewrite Hw|].
  now apply expandtabs_from_keeps.
Qed.

Lemma munge_whitespace_no_newline (text : str) :
  ~ In NEWLINE (textwrap.munge_whitespace text).
Proof.
  unfold textwrap.munge_whitespace, textwrap.translate_whitespace.
  intros H; apply in_map_iff in H as (c & E & _).
  destruct (textwrap.is_whitespace c) eqn:Hc; [discriminate E|].
  subst c; discriminate Hc.
Qed.

Lemma lstrip_blank (s : str) : forallb isspace s = true -> lstrip s = [].
Proof.
  induction s as [|c s IH]; simpl; [reflexivity|].
  intros H; apply andb_prop in H as [-> H]; auto.
Qed.

(** A chunk is blank when all its characters are whitespace. *)
Lemma is_blank_forallb (s : str) : textwrap.is_blank s = forallb isspace s.
Proof.
  unfold textwrap.is_blank.
  destruct (forallb isspace s) eqn:H.
  - unfold strip; now rewrite (lstrip_blank s H).
  - destruct (strip_decompose s) as (pre & post & E & Hpre & Hpost).
    destruct (strip s); [|reflexivity].
    rewrite E, !forallb_app, Hpre, Hpost in H; discriminate H.
Qed.

(** ** [textwrap]: one line *)

Lemma slice_app (s : str) (e : Z) : slice_to s e ++ slice_from s e = s.
Proof. apply firstn_skipn. Qed.

Lemma slice_to_len (s : str) (e : Z) :
  0 <= e <= len s -> len (slice_to s e) = e.
Proof.
  intros He; unfold slice_to, len in *.
  destruct (Z.ltb_spec e 0); [lia|].
  rewrite length_firstn; lia.
Qed.

Lemma slice_from_length (s : str) (e : Z) :
  0 <= e <= len s -> length (slice_from s e) = (length s - Z.to_nat e)%nat.
Proof.
  intros He; unfold slice_from.
  destruct (Z.ltb_spec e 0); [lia|].
  now rewrite length_skipn.
Qed.

Lemma rfind_from_bound (c : ascii) (s : str) :
  forall i, rfind_from c i s = -1 \/ i <= rfind_from c i s < i + len s.
Proof.
  induction s as [|d s IH]; intros i; cbn [rfind_from]; [now left|].
  rewrite len_cons.
  destruct (Z.leb_spec 0 (rfind_from c (i + 1) s)).
  - destruct (IH (i + 1)); [lia | right; lia].
  - destruct (Ascii.eqb d c); [right | now left].
    pose proof (len_nonneg s); lia.
Qed.

Lemma rfind_lt (c : ascii) (s : str) (e : Z) : 0 <= e -> rfind c s e < e.
Proof.
  intros He; unfold rfind.
  pose proof (slice_to_length s e He).
  destruct (rfind_from_bound c (slice_to s e) 0); lia.
Qed.

(** [_handle_long_word] cuts the chunk at an index [e] that fits the room
    left on the line, and that is positive when there is room. *)
Lemma handle_long_word_spec (chunk : str) (chunks' cur_line : list str)
  (cur_len width : Z) :
  1 <= width -> 0 <= cur_len <= width -> width < len chunk ->
  exists e,
    textwrap.handle_long_word (chunk :: chunks') cur_line cur_len width
    = (slice_from chunk e :: chunks', cur_line ++ [slice_to chunk e])
    /\ 0 <= e <= width - cur_len
    /\ (cur_len < width -> 1 <= e).
Proof.
  intros Hw Hc Hl; unfold textwrap.handle_long_word.
  destruct (Z.ltb_spec width 1); [lia|].
  set (space_left := width - cur_len).
  pose proof (rfind_lt HYPHEN chunk space_left) as Hh.
  set (hyphen := rfind HYPHEN chunk space_left) in *.
  destruct ((space_left <? len chunk) && (0 <? hyphen) && _) eqn:Hcond.
  - exists (hyphen + 1); split; [reflexivity|].
    apply andb_prop in Hcond as [Hcond _].
    apply andb_prop in Hcond as [_ Hpos]; apply Z.ltb_lt in Hpos.
    subst space_left; lia.
  - exists space_left; split; [reflexivity | subst space_left; lia].
Qed.

(** The inner loop moves a prefix [fitted] of the stack to the line,
    within the width, and stops at the first chunk that does not fit. *)
Lemma fit_chunks_spec (width : Z) (chunks : list str) :
  forall (cur_line : list str) (cur_len : Z),
    exists fitted tail,
      textwrap.fit_chunks width cur_line cur_len chunks
      = (cur_line ++ fitted, cur_len + len (concat fitted), tail)
      /\ chunks = fitted ++ tail
      /\ (cur_len <= width -> cur_len + len (concat fitted) <= width)
      /\ match tail with
         | [] => True
         | chunk :: _ => width < cur_len + len (concat fitted) + len chunk
         end.
Proof.
  induction chunks as [|chunk chunks IH]; intros cur_line cur_len;
    cbn [textwrap.fit_chunks].
  - exists [], []; rewrite app_nil_r; cbn [concat].
    change (len (@nil ascii)) with 0; rewrite !Z.add_0_r.
    repeat split; auto.
  - destruct (Z.leb_spec (cur_len + len chunk) width).
    + destruct (IH (cur_line ++ [chunk]) (cur_len + len chunk))
        as (fitted & tail & E & -> & Hfit & Htail).
      exists (chunk :: fitted), tail; cbn [concat]; rewrite len_app.
      rewrite E, <- app_assoc; repeat split.
      * f_equal; f_equal; lia.
      * intros _; specialize (Hfit H); lia.
      * destruct tail; [exact I | lia].
    + exists [], (chunk :: chunks); rewrite app_nil_r; cbn [concat].
      change (len (@nil ascii)) with 0; rewrite !Z.add_0_r.
      repeat split; [lia | lia].
Qed.

Lemma drop_blank_start_spec (chunks lines : list str) :
  exists pre,
    chunks = pre ++ textwrap.drop_blank_start chunks lines
    /\ (pre = []
        \/ exists b, pre = [b] /\ textwrap.is_blank b = true /\ lines <> []).
Proof.
  unfold textwrap.drop_blank_start.
  destruct chunks as [|chunk chunks]; [exists []; auto|].
  destruct lines as [|l lines]; [exists []; auto|].
  destruct (textwrap.is_blank chunk) eqn:Hb; [|exists []; auto].
  exists [chunk]; split; [reflexivity | right].
  exists chunk; repeat split; [assumption | discriminate].
Qed.

Lemma drop_blank_end_nil : textwrap.drop_blank_end [] = [].
Proof. reflexivity. Qed.

Lemma drop_blank_end_snoc (cur_line : list str) (chunk : str) :
  textwrap.drop_blank_end (cur_line ++ [chunk])
  = if textwrap.is_blank chunk then cur_line else cur_line ++ [chunk].
Proof.
  unfold textwrap.drop_blank_end.
  rewrite rev_app_distr; cbn [rev app].
  now rewrite removelast_last.
Qed.

(** The two ways a pass of the outer loop goes.  The stack is
    [pre ++ fitted ++ tail]: [pre] is the blank chunk dropped at the start
    of a line, if any; [fitted] are the chunks that fit.  Either the line
    is made of [fitted] and the stack becomes [tail], or the head of
    [tail] is longer than the width and is cut at some index [e]. *)
Lemma wrap_line_cases (width : Z) (chunks lines : list str) :
  1 <= width ->
  exists pre fitted tail,
    chunks = pre ++ fitted ++ tail
    /\ (pre = []
        \/ exists b, pre = [b] /\ textwrap.is_blank b = true /\ lines <> [])
    /\ len (concat fitted) <= width
    /\ ((textwrap.wrap_line width chunks lines
         = (tail, textwrap.append_line (textwrap.drop_blank_end fitted) lines)
         /\ match tail with
            | [] => True
            | chunk :: _ =>
                len chunk <= width /\ width < len (concat fitted) + len chunk
            end)
        \/ exists chunk tail' e,
             tail = chunk :: tail'
             /\ width < len chunk
             /\ 0 <= e <= width - len (concat fitted)
             /\ (len (concat fitted) < width -> 1 <= e)
             /\ textwrap.wrap_line width chunks lines
                = (slice_from chunk e :: tail',
                   textwrap.append_line
                     (textwrap.drop_blank_end (fitted ++ [slice_to chunk e]))
                     lines)).
Proof.
  intros Hw; unfold textwrap.wrap_line.
  destruct (drop_blank_start_spec chunks lines) as (pre & Epre & Hpre).
  destruct (fit_chunks_spec width (textwrap.drop_blank_start chunks lines) [] 0)
    as (fitted & tail & -> & Etail & Hfit & Hstop).
  rewrite Etail in Epre.
  cbn [app] in *; rewrite Z.add_0_l in *.
  assert (Hfit' : len (concat fitted) <= width) by (apply Hfit; lia).
  exists pre, fitted, tail; repeat split; try assumption.
  destruct tail as [|chunk tail']; [left; auto|].
  destruct (Z.ltb_spec width (len chunk)) as [Hlong | Hshort].
  - right.
    pose proof (len_nonneg (concat fitted)).
    destruct (handle_long_word_spec chunk tail' fitted (len (concat fitted))
                width Hw) as (e & -> & He & Hpos); [lia | assumption|].
    exists chunk, tail', e; repeat split; try assumption; lia.
  - left; split; [reflexivity | split; lia].
Qed.

Lemma concat_length_app (l1 l2 : list str) :
  length (concat (l1 ++ l2)) = (length (concat l1) + length (concat l2))%nat.
Proof. now rewrite concat_app, length_app. Qed.

Lemma nonempty_length (s : str) : s <> [] -> (1 <= length s)%nat.
Proof. destruct s; [congruence | simpl; lia]. Qed.

(** Every pass on a non-empty stack of non-empty chunks removes at least
    one character from the stack and leaves non-empty chunks. *)
Lemma wrap_line_progress (width : Z) (chunks lines : list str) :
  1 <= width -> chunks <> [] -> Forall (fun chunk => chunk <> []) chunks ->
  (length (concat (fst (textwrap.wrap_line width chunks lines)))
   < length (concat chunks))%nat
  /\ Forall (fun chunk => chunk <> [])
       (fst (textwrap.wrap_line width chunks lines)).
Proof.
  intros Hw Hne Hall.
  destruct (wrap_line_cases width chunks lines Hw)
    as (pre & fitted & tail & E & Hpre & Hfit & Hcase).
  subst chunks.
  apply Forall_app in Hall as [Hallpre Hall].
  apply Forall_app in Hall as [Hallfit Halltail].
  rewrite !concat_length_app.
  destruct Hcase as [[-> Hstop] | (chunk & tail' & e & -> & Hlong & He & Hpos & ->)];
    cbn [fst].
  - split; [|assumption].
    destruct Hpre as [-> | (b & -> & _ & _)].
    + destruct fitted as [|a fitted].
      * destruct tail as [|chunk tail']; [now cbn [app] in Hne|].
        cbn [concat] in Hstop; change (len (@nil ascii)) with 0 in Hstop; lia.
      * inversion Hallfit as [|? ? Ha Hfitted]; subst.
        cbn [concat]; rewrite length_app.
        pose proof (nonempty_length a Ha); simpl; lia.
    + inversion Hallpre as [|? ? Hb _]; subst.
      cbn [concat]; rewrite length_app.
      pose proof (nonempty_length b Hb); simpl; lia.
  - inversion Halltail as [|? ? Hchunk Htail']; subst.
    assert (Hlen : 0 <= e <= len chunk)
      by (pose proof (len_nonneg (concat fitted)); lia).
    pose proof (slice_from_length chunk e Hlen) as Hsl.
    split.
    + cbn [concat]; rewrite !length_app, Hsl.
      destruct Hpre as [-> | (b & -> & _ & _)].
      * destruct fitted as [|a fitted].
        -- cbn [concat] in Hpos; change (len (@nil ascii)) with 0 in Hpos.
           unfold len in *; simpl; lia.
        -- inversion Hallfit as [|? ? Ha Hfitted]; subst.
           cbn [concat]; rewrite length_app.
           pose proof (nonempty_length a Ha); unfold len in *; simpl; lia.
      * inversion Hallpre as [|? ? Hb _]; subst.
        cbn [concat]; rewrite length_app.
        pose proof (nonempty_length b Hb); unfold len in *; simpl; lia.
    + constructor; [|assumption].
      intros E0; rewrite E0 in Hsl; unfold len in *; simpl in Hsl; lia.
Qed.

Lemma visible_not_blank (s : str) : visible s -> textwrap.is_blank s = false.
Proof.
  intros (c & Hin & Hc); rewrite is_blank_forallb.
  destruct (forallb isspace s) eqn:H; [|reflexivity].
  rewrite forallb_forall in H; rewrite (H c Hin) in Hc; discriminate.
Qed.

Lemma blank_not_visible (s : str) : textwrap.is_blank s = true -> ~ visible s.
Proof.
  intros Hb Hv; apply visible_not_blank in Hv; congruence.
Qed.

Lemma visible_concat (l : list str) :
  visible (concat l) <-> exists s, In s l /\ visible s.
Proof.
  split.
  - intros (c & Hin & Hc); apply in_concat in Hin as (s & Hs & Hcs).
    exists s; split; [assumption | now exists c].
  - intros (s & Hs & c & Hcs & Hc); exists c; split; [|assumption].
    apply in_concat; eauto.
Qed.

Lemma visible_app (s t : str) : visible (s ++ t) <-> visible s \/ visible t.
Proof.
  split.
  - intros (c & Hin & Hc); apply in_app_or in Hin as [H | H];
      [left | right]; now exists c.
  - intros [(c & Hin & Hc) | (c & Hin & Hc)]; exists c; split; auto;
      apply in_or_app; auto.
Qed.

Lemma In_removelast {A : Type} (l : list A) (x : A) :
  In x (removelast l) -> In x l.
Proof.
  induction l as [|a l IH]; [auto|].
  destruct l as [|b l]; [contradiction|].
  change (removelast (a :: b :: l)) with (a :: removelast (b :: l)).
  intros [-> | H]; [now left | right; auto].
Qed.

(** What is left of a line once its blank end is dropped. *)
Lemma drop_blank_end_spec (cur_line : list str) :
  incl (textwrap.drop_blank_end cur_line) cur_line
  /\ len (concat (textwrap.drop_blank_end cur_line)) <= len (concat cur_line)
  /\ (Forall (fun chunk => chunk <> []) (removelast cur_line) ->
      Forall (fun chunk => chunk <> []) (textwrap.drop_blank_end cur_line))
  /\ (forall chunk, In chunk cur_line -> visible chunk ->
      In chunk (textwrap.drop_blank_end cur_line)).
Proof.
  destruct (list_eq_dec (list_eq_dec ascii_dec) cur_line []) as [-> | Hne].
  - rewrite drop_blank_end_nil; repeat split; auto using incl_refl; lia.
  - destruct (exists_last Hne) as (l & x & ->).
    rewrite drop_blank_end_snoc, removelast_last.
    destruct (textwrap.is_blank x) eqn:Hx; repeat split.
    + apply incl_appl, incl_refl.
    + rewrite concat_app, len_app; pose proof (len_nonneg (concat [x])); lia.
    + auto.
    + intros chunk Hin Hv; apply in_app_or in Hin as [Hin | [<- | []]];
        [assumption|].
      now apply blank_not_visible in Hv.
    + apply incl_refl.
    + lia.
    + intros Hl; apply Forall_app; split; [assumption|].
      constructor; [|constructor].
      intros ->; discriminate Hx.
    + auto.
Qed.

Lemma append_line_cases (cur_line lines : list str) :
  (cur_line = [] /\ textwrap.append_line cur_line lines = lines)
  \/ (cur_line <> []
      /\ textwrap.append_line cur_line lines = lines ++ [concat cur_line]).
Proof.
  destruct cur_line; [left | right]; split; auto; discriminate.
Qed.

Lemma concat_nonempty (l : list str) :
  l <> [] -> Forall (fun s => s <> []) l -> concat l <> [].
Proof.
  destruct l as [|s l]; [congruence|]; intros _ H.
  inversion H as [|? ? Hs _]; subst; cbn [concat].
  destruct s; [congruence | discriminate].
Qed.

Lemma incl_concat (l1 l2 : list str) :
  incl l1 l2 -> incl (concat l1) (concat l2).
Proof.
  intros H c Hc; apply in_concat in Hc as (s & Hs & Hcs).
  apply in_concat; exists s; auto.
Qed.

(** The line that a pass appends, if any, is not empty, fits the width
    and is made of characters of the stack; what remains on the stack
    comes from the stack; and a visible character of the stack stays on
    the stack unless a line is appended. *)
Lemma wrap_line_spec (width : Z) (chunks lines : list str) :
  1 <= width -> Forall (fun chunk => chunk <> []) chunks ->
  exists chunks' lines',
    textwrap.wrap_line width chunks lines = (chunks', lines')
    /\ (lines' = lines
        \/ exists line,
             lines' = lines ++ [line] /\ good_line width (concat chunks) line)
    /\ incl (concat chunks') (concat chunks)
    /\ (visible (concat chunks) -> visible (concat chunks') \/ lines' <> []).
Proof.
  intros Hw Hall.
  destruct (wrap_line_cases width chunks lines Hw)
    as (pre & fitted & tail & E & Hpre & Hfit & Hcase).
  subst chunks.
  apply Forall_app in Hall as [_ Hall].
  apply Forall_app in Hall as [Hallfit Halltail].
  assert (Hblank : ~ visible (concat pre)).
  { destruct Hpre as [-> | (b & -> & Hb & _)].
    - intros (c & [] & _).
    - cbn [concat]; rewrite app_nil_r; now apply blank_not_visible. }
  destruct Hcase as [[-> _] | (chunk & tail' & e & -> & Hlong & He & _ & ->)].
  - exists tail, (textwrap.append_line (textwrap.drop_blank_end fitted) lines).
    destruct (drop_blank_end_spec fitted) as (Hincl & Hlen & Hne & Hkeep).
    split; [reflexivity|]; split; [|split].
    + destruct (append_line_cases (textwrap.drop_blank_end fitted) lines)
        as [[_ ->] | [Hg ->]]; [now left | right].
      eexists; split; [reflexivity|]; repeat split.
      * apply concat_nonempty; [assumption|].
        apply Hne, Forall_forall; intros x Hx.
        rewrite Forall_forall in Hallfit; apply Hallfit.
        now apply In_removelast.
      * lia.
      * apply incl_concat; intros x Hx.
        apply in_or_app; right; apply in_or_app; left; now apply Hincl.
    + rewrite !concat_app; apply incl_appr, incl_appr, incl_refl.
    + rewrite !concat_app, !visible_app; intros [H | [H | H]];
        [contradiction | right | now left].
      apply visible_concat in H as (s & Hs & Hv).
      specialize (Hkeep s Hs Hv).
      destruct (append_line_cases (textwrap.drop_blank_end fitted) lines)
        as [[Hg ->] | [_ ->]].
      * rewrite Hg in Hkeep; contradiction.
      * intros E; now apply app_eq_nil in E as [_ E].
  - set (cur_line := fitted ++ [slice_to chunk e]).
    exists (slice_from chunk e :: tail'),
      (textwrap.append_line (textwrap.drop_blank_end cur_line) lines).
    destruct (drop_blank_end_spec cur_line) as (Hincl & Hlen & Hne & Hkeep).
    assert (Hchunk : 0 <= e <= len chunk)
      by (pose proof (len_nonneg (concat fitted)); lia).
    split; [reflexivity|]; split; [|split].
    + destruct (append_line_cases (textwrap.drop_blank_end cur_line) lines)
        as [[_ ->] | [Hg ->]]; [now left | right].
      eexists; split; [reflexivity|]; repeat split.
      * apply concat_nonempty; [assumption|].
        apply Hne; subst cur_line; now rewrite removelast_last.
      * subst cur_line; rewrite concat_app, len_app in Hlen.
        cbn [concat] in Hlen; rewrite app_nil_r, slice_to_len in Hlen by lia.
        lia.
      * intros c Hc; apply (incl_concat _ _ Hincl) in Hc.
        subst cur_line; rewrite !concat_app; rewrite concat_app in Hc.
        apply in_or_app; right.
        apply in_app_or in Hc as [Hc | Hc]; [apply in_or_app; now left|].
        apply in_or_app; right; cbn [concat] in *; apply in_or_app; left.
        rewrite app_nil_r in Hc; rewrite <- (slice_app chunk e).
        apply in_or_app; now left.
    + rewrite !concat_app; apply incl_appr, incl_appr.
      cbn [concat]; intros c Hc; apply in_or_app.
      apply in_app_or in Hc as [Hc | Hc]; [left | now right].
      rewrite <- (slice_app chunk e); apply in_or_app; now right.
    + assert (Hadd : forall s, In s cur_line -> visible s ->
                textwrap.append_line (textwrap.drop_blank_end cur_line) lines
                <> []).
      { intros s Hs Hv; specialize (Hkeep s Hs Hv).
        destruct (append_line_cases (textwrap.drop_blank_end cur_line) lines)
          as [[Hg ->] | [_ ->]].
        - rewrite Hg in Hkeep; contradiction.
        - intros E; now apply app_eq_nil in E as [_ E]. }
      rewrite !concat_app; cbn [concat]; rewrite !visible_app.
      rewrite <- (slice_app chunk e) at 1; rewrite visible_app.
      intros [H | [H | [[H | H] | H]]].
      * contradiction.
      * apply visible_concat in H as (s & Hs & Hv).
        right; apply (Hadd s); [apply in_or_app; now left | assumption].
      * right; apply (Hadd (slice_to chunk e)); [|assumption].
        apply in_or_app; right; now left.
      * left; now left.
      * left; now right.
Qed.

(** ** [textwrap]: all the lines *)

Lemma good_line_incl (width : Z) (s t : str) (line : str) :
  incl s t -> good_line width s line -> good_line width t line.
Proof.
  intros Hst (H1 & H2 & H3); repeat split; auto.
  eapply incl_tran; eassumption.
Qed.

(** The loop of [_wrap_chunks] returns with the fuel [wrap_chunks] gives
    it; the lines it appends are not empty, fit the width and are made of
    characters of the chunks; there is at least one line when the chunks
    have a visible character. *)
Lemma wrap_loop_spec (width : Z) (fuel : nat) :
  1 <= width ->
  forall chunks lines,
    Forall (fun chunk => chunk <> []) chunks ->
    (length (concat chunks) <= fuel)%nat ->
    exists new,
      textwrap.wrap_loop fuel width chunks lines = Val (lines ++ new)
      /\ Forall (good_line width (concat chunks)) new
      /\ (visible (concat chunks) -> lines ++ new <> []).
Proof.
  intros Hw; induction fuel as [|fuel IH]; intros chunks lines Hall Hfuel.
  - destruct chunks as [|chunk chunks].
    + exists []; rewrite app_nil_r; repeat split; [constructor|].
      intros (c & [] & _).
    + inversion Hall as [|? ? Hc _]; subst.
      apply nonempty_length in Hc.
      cbn [concat] in Hfuel; rewrite length_app in Hfuel; lia.
  - destruct chunks as [|chunk chunks].
    + exists []; rewrite app_nil_r; repeat split; [constructor|].
      intros (c & [] & _).
    + cbn [textwrap.wrap_loop].
      set (stack := chunk :: chunks) in *.
      assert (Hne : stack <> []) by discriminate.
      destruct (wrap_line_progress width stack lines Hw Hne Hall)
        as [Hless Hall'].
      destruct (wrap_line_spec width stack lines Hw Hall)
        as (chunks' & lines' & E & Hline & Hincl & Hvis).
      rewrite E in *; cbn [fst] in *.
      destruct (IH chunks' lines' Hall') as (new & -> & Hnew & Hvis');
        [lia|].
      assert (Hnew' : Forall (good_line width (concat stack)) new).
      { eapply Forall_impl; [|exact Hnew].
        intros line; now apply good_line_incl. }
      destruct Hline as [-> | (line & -> & Hgood)].
      * exists new; repeat split; [assumption|].
        intros Hv; destruct (Hvis Hv) as [Hv' | Hl]; [auto|].
        intros E0; now apply app_eq_nil in E0 as [E0 _].
      * exists (line :: new); rewrite <- app_assoc; repeat split.
        -- now constructor.
        -- intros _ E0; apply app_eq_nil in E0 as [_ E0]; discriminate.
Qed.

(** [textwrap.wrap] returns for every positive width. *)
Lemma wrap_spec (text : str) (width : Z) :
  0 < width ->
  exists lines,
    textwrap.wrap text width = Val lines
    /\ Forall (fun line => line <> [] /\ len line <= width
                           /\ ~ In NEWLINE line) lines
    /\ (visible text -> lines <> []).
Proof.
  intros Hw; unfold textwrap.wrap, textwrap.wrap_chunks, textwrap.split_chunks.
  destruct (Z.leb_spec width 0); [lia|].
  destruct (split_spec (textwrap.munge_whitespace text)) as [Econcat Hall].
  set (chunks := textwrap.split (textwrap.munge_whitespace text)) in *.
  destruct (wrap_loop_spec width (length (concat chunks)) ltac:(lia)
              chunks [] Hall (Nat.le_refl _))
    as (new & E & Hnew & Hvis).
  cbn [app] in *; exists new; split; [exact E|]; split.
  - eapply Forall_impl; [|exact Hnew].
    intros line (H1 & H2 & H3); repeat split; auto.
    intros Hin; apply H3 in Hin; rewrite Econcat in Hin.
    now apply munge_whitespace_no_newline in Hin.
  - intros (c & Hin & Hc); apply Hvis; rewrite Econcat.
    exists c; split; [|assumption].
    now apply munge_whitespace_keeps.
Qed.

Lemma fill_spec (text : str) (width : Z) :
  0 < width ->
  exists lines,
    textwrap.fill text width = Val (join [NEWLINE] lines)
    /\ Forall (fun line => line <> [] /\ len line <= width
                           /\ ~ In NEWLINE line) lines
    /\ (visible text -> lines <> []).
Proof.
  intros Hw; destruct (wrap_spec text width Hw) as (lines & E & H).
  exists lines; split; [|exact H].
  unfold textwrap.fill; now rewrite E.
Qed.

(** ** [textwrap]: where the lines break *)

Lemma drop_blank_end_prefix (cur_line : list str) :
  exists dropped,
    cur_line = textwrap.drop_blank_end cur_line ++ dropped
    /\ filter nonblank dropped = [].
Proof.
  destruct (list_eq_dec (list_eq_dec ascii_dec) cur_line []) as [-> | Hne].
  - exists []; split; reflexivity.
  - destruct (exists_last Hne) as (l & x & ->).
    rewrite drop_blank_end_snoc.
    destruct (textwrap.is_blank x) eqn:Hx.
    + exists [x]; split; [reflexivity|].
      cbn [filter]; unfold nonblank; now rewrite Hx.
    + exists []; split; [now rewrite app_nil_r | reflexivity].
Qed.

(** When every chunk fits the width no chunk is cut: the lines are runs of
    consecutive chunks, and the chunks that are not blank are all there,
    in order. *)
Lemma wrap_loop_groups (width : Z) (fuel : nat) :
  1 <= width ->
  forall chunks lines,
    Forall (fun chunk => chunk <> []) chunks ->
    Forall (fun chunk => len chunk <= width) chunks ->
    (length (concat chunks) <= fuel)%nat ->
    exists groups,
      textwrap.wrap_loop fuel width chunks lines
      = Val (lines ++ map (@concat ascii) groups)
      /\ Forall (fun group => group <> [] /\ run_of chunks group) groups
      /\ filter nonblank (concat groups) = filter nonblank chunks.
Proof.
  intros Hw; induction fuel as [|fuel IH]; intros chunks lines Hall Hfit Hfuel.
  - destruct chunks as [|chunk chunks].
    + exists []; cbn [map]; rewrite app_nil_r; repeat split; constructor.
    + inversion Hall as [|? ? Hc _]; subst.
      apply nonempty_length in Hc.
      cbn [concat] in Hfuel; rewrite length_app in Hfuel; lia.
  - destruct chunks as [|chunk chunks].
    + exists []; cbn [map]; rewrite app_nil_r; repeat split; constructor.
    + cbn [textwrap.wrap_loop].
      set (stack := chunk :: chunks) in *.
      assert (Hne : stack <> []) by discriminate.
      destruct (wrap_line_progress width stack lines Hw Hne Hall)
        as [Hless Hall'].
      destruct (wrap_line_cases width stack lines Hw)
        as (pre & fitted & tail & E & Hpre & _ & Hcase).
      destruct Hcase
        as [[Eline _] | (long & tail' & e & -> & Hlong & _)].
      2:{ rewrite E in Hfit.
          apply Forall_app in Hfit as [_ Hfit].
          apply Forall_app in Hfit as [_ Hfit].
          inversion Hfit; subst; lia. }
      rewrite Eline in *; cbn [fst] in *.
      assert (Hfit' : Forall (fun chunk => len chunk <= width) tail).
      { rewrite E in Hfit.
        apply Forall_app in Hfit as [_ Hfit].
        now apply Forall_app in Hfit as [_ Hfit]. }
      destruct (IH tail
                  (textwrap.append_line (textwrap.drop_blank_end fitted) lines)
                  Hall' Hfit') as (groups & -> & Hruns & Hkept); [lia|].
      destruct (drop_blank_end_prefix fitted) as (dropped & Efit & Hdropped).
      assert (Hprefilter : filter nonblank pre = []).
      { destruct Hpre as [-> | (b & -> & Hb & _)]; [reflexivity|].
        cbn [filter]; unfold nonblank; now rewrite Hb. }
      assert (Hruns' : Forall (fun group => group <> [] /\ run_of stack group)
                         groups).
      { eapply Forall_impl; [|exact Hruns].
        intros group (Hg & before & after & Et); split; [assumption|].
        exists (pre ++ fitted ++ before), after.
        rewrite E, Et, <- !app_assoc; reflexivity. }
      assert (Hfilter : filter nonblank stack
                        = filter nonblank (textwrap.drop_blank_end fitted)
                          ++ filter nonblank tail).
      { rewrite E, !filter_app, Hprefilter; cbn [app].
        rewrite Efit at 1; now rewrite filter_app, Hdropped, app_nil_r. }
      destruct (append_line_cases (textwrap.drop_blank_end fitted) lines)
        as [[Hg ->] | [Hg ->]].
      * exists groups; repeat split; [assumption|].
        rewrite Hfilter, Hg; exact Hkept.
      * exists (textwrap.drop_blank_end fitted :: groups).
        cbn [map]; rewrite <- app_assoc; repeat split.
        -- constructor; [|assumption]; split; [assumption|].
           exists pre, (dropped ++ tail).
           rewrite E; rewrite Efit at 1; now rewrite <- !app_assoc.
        -- cbn [concat]; now rewrite filter_app, Hkept, Hfilter.
Qed.

Lemma wrap_groups (text : str) (width : Z) :
  0 < width ->
  Forall (fun chunk => len chunk <= width) (textwrap.split_chunks text) ->
  exists groups,
    textwrap.wrap text width = Val (map (@concat ascii) groups)
    /\ Forall (fun group =>
                 group <> [] /\ run_of (textwrap.split_chunks text) group)
         groups
    /\ filter nonblank (concat groups)
       = filter nonblank (textwrap.split_chunks text).
Proof.
  intros Hw Hfit; unfold textwrap.wrap, textwrap.wrap_chunks.
  destruct (Z.leb_spec width 0); [lia|].
  destruct (split_spec (textwrap.munge_whitespace text)) as [_ Hall].
  fold (textwrap.split_chunks text) in Hall.
  destruct (wrap_loop_groups width
              (length (concat (textwrap.split_chunks text))) ltac:(lia)
              (textwrap.split_chunks text) [] Hall Hfit (Nat.le_refl _))
    as (groups & E & Hgroups).
  exists groups; split; [exact E | exact Hgroups].
Qed.

(** ** Lines of a text *)

Lemma split_on_nonempty (sep : ascii) (s : str) : split_on sep s <> [].
Proof.
  destruct s as [|c s]; cbn [split_on]; [discriminate|].
  destruct (Ascii.eqb c sep); [discriminate|].
  destruct (split_on sep s); discriminate.
Qed.

Lemma split_on_app (sep : ascii) (x y : str) :
  split_on sep (x ++ sep :: y) = split_on sep x ++ split_on sep y.
Proof.
  induction x as [|c x IH]; cbn [app split_on].
  - now rewrite Ascii.eqb_refl.
  - destruct (Ascii.eqb c sep); [now rewrite IH|].
    rewrite IH.
    pose proof (split_on_nonempty sep x) as Hne.
    destruct (split_on sep x); [congruence | reflexivity].
Qed.

Lemma split_on_none (sep : ascii) (s : str) :
  ~ In sep s -> split_on sep s = [s].
Proof.
  induction s as [|c s IH]; intros Hs; cbn [split_on]; [reflexivity|].
  destruct (Ascii.eqb_spec c sep) as [-> | _]; [elim Hs; now left|].
  rewrite IH; [reflexivity | intros H; apply Hs; now right].
Qed.

Lemma split_on_join (sep : ascii) (parts : list str) :
  parts <> [] ->
  split_on sep (join [sep] parts) = flat_map (split_on sep) parts.
Proof.
  induction parts as [|p parts IH]; [congruence|]; intros _.
  destruct parts as [|q parts].
  - cbn [join flat_map]; now rewrite app_nil_r.
  - rewrite join_cons2; cbn [app]; rewrite split_on_app, IH by discriminate.
    reflexivity.
Qed.

(** The lines of a wrapped text are the lines [textwrap.wrap] returned. *)
Lemma split_on_wrapped (lines : list str) :
  Forall (fun line => ~ In NEWLINE line) lines ->
  split_on NEWLINE (join [NEWLINE] lines)
  = match lines with [] => [[]] | _ :: _ => lines end.
Proof.
  intros H; destruct lines as [|l lines]; [reflexivity|].
  rewrite split_on_join by discriminate.
  induction H as [|x xs Hx _ IH]; [reflexivity|].
  cbn [flat_map]; rewrite split_on_none by assumption.
  now rewrite IH.
Qed.

Lemma endswith_app (s t : str) (c : ascii) :
  t <> [] -> endswith (s ++ t) c = endswith t c.
Proof.
  intros Ht; destruct (exists_last Ht) as (t0 & d & ->).
  now rewrite app_assoc, !endswith_snoc.
Qed.

(** ** [render_markdown] *)

Lemma render_paragraphs_spec (max_line_len : Z) (paragraphs : list str) :
  0 < max_line_len ->
  forall parts,
    exists wrapped,
      Forall2 (fun p text => textwrap.fill p max_line_len = Val text)
        paragraphs wrapped
      /\ render_paragraphs paragraphs max_line_len parts
         = Val (parts ++ flat_map (fun text => [text; []]) wrapped).
Proof.
  intros Hw; induction paragraphs as [|p paragraphs IH]; intros parts;
    cbn [render_paragraphs].
  - exists []; split; [constructor | now rewrite app_nil_r].
  - destruct (fill_spec p max_line_len Hw) as (lines & E & _).
    rewrite E; cbn [bind].
    destruct (IH (parts ++ [join [NEWLINE] lines; []])) as (wrapped & H2 & ->).
    exists (join [NEWLINE] lines :: wrapped); split; [now constructor|].
    cbn [flat_map]; now rewrite <- app_assoc.
Qed.

(** [render_markdown] returns for every positive width: the document is
    its parts joined by newlines, the paragraphs being wrapped by
    [textwrap.fill]. *)
Lemma render_markdown_parts (title : str) (paragraphs : list str)
  (max_line_len : Z) :
  0 < max_line_len ->
  exists wrapped,
    Forall2 (fun p text => textwrap.fill p max_line_len = Val text)
      paragraphs wrapped
    /\ render_markdown title paragraphs max_line_len
       = Val (join [NEWLINE] (document_parts title wrapped)).
Proof.
  intros Hw; unfold render_markdown, document_parts.
  destruct (render_paragraphs_spec max_line_len paragraphs Hw
              (match title with [] => [] | _ :: _ => [txt "# " ++ title; []] end))
    as (wrapped & H2 & ->).
  exists wrapped; split; [assumption | reflexivity].
Qed.

Lemma pop_blank_snoc (parts : list str) : pop_blank (parts ++ [[]]) = parts.
Proof.
  unfold pop_blank; rewrite rev_app_distr; cbn [rev app].
  apply removelast_last.
Qed.

(** The parts of a document with at least one paragraph end with the
    last wrapped paragraph; the parts after the heading line are wrapped
    paragraphs and empty parts. *)
Lemma document_parts_spec (title : str) (wrapped : list str) :
  exists rest,
    document_parts title wrapped
    = match title with [] => [] | _ :: _ => [txt "# " ++ title] end ++ rest
    /\ Forall (fun part => part = [] \/ In part wrapped) rest
    /\ match wrapped with
       | [] => rest = []
       | _ :: _ => exists rest', rest = rest' ++ [last wrapped []]
       end.
Proof.
  unfold document_parts.
  destruct (list_eq_dec (list_eq_dec ascii_dec) wrapped []) as [-> | Hne].
  - exists []; cbn [flat_map]; rewrite !app_nil_r.
    destruct title; repeat split; constructor.
  - destruct (exists_last Hne) as (wrapped0 & text & ->).
    rewrite flat_map_app; cbn [flat_map]; rewrite app_nil_r.
    set (middle := flat_map (fun text => [text; []]) wrapped0).
    assert (Hmiddle : Forall (fun part => part = [] \/ In part (wrapped0 ++ [text]))
                        middle).
    { subst middle; apply Forall_forall; intros part Hin.
      apply in_flat_map in Hin as (x & Hx & [<- | [<- | []]]);
        [right; apply in_or_app; now left | now left]. }
    exists (match title with [] => [] | _ :: _ => [[]] end ++ middle ++ [text]).
    split; [|split].
    + replace (match title with [] => [] | _ :: _ => [txt "# " ++ title; []] end
               ++ middle ++ [text; []])
        with ((match title with [] => [] | _ :: _ => [txt "# " ++ title] end
               ++ match title with [] => [] | _ :: _ => [[]] end
               ++ middle ++ [text]) ++ [[]]).
      * apply pop_blank_snoc.
      * destruct title; cbn [app]; rewrite <- ?app_assoc; reflexivity.
    + apply Forall_app; split.
      * destruct title; constructor; [now left | constructor].
      * apply Forall_app; split; [assumption|].
        constructor; [right; apply in_or_app; right; now left | constructor].
    + rewrite last_last.
      destruct (wrapped0 ++ [text]) eqn:E; [now destruct wrapped0|].
      exists (match title with [] => [] | _ :: _ => [[]] end ++ middle).
      now rewrite <- app_assoc.
Qed.

Lemma Forall2_In_r {A B : Type} (R : A -> B -> Prop) (l1 : list A)
  (l2 : list B) (y : B) :
  Forall2 R l1 l2 -> In y l2 -> exists x, In x l1 /\ R x y.
Proof.
  induction 1 as [|a b l1 l2 Hab _ IH]; [contradiction|].
  intros [<- | Hin].
  - exists a; split; [now left | assumption].
  - destruct (IH Hin) as (x & Hx & Hxy); exists x; split; [now right | auto].
Qed.

Lemma Forall_flat_map_lines {A B : Type} (P : B -> Prop) (f : A -> list B)
  (l : list A) :
  Forall (fun a => Forall P (f a)) l -> Forall P (flat_map f l).
Proof.
  induction 1 as [|a l Ha _ IH]; cbn [flat_map]; [constructor|].
  apply Forall_app; auto.
Qed.

Lemma fill_wrapped_as (width : Z) (p text : str) :
  0 < width -> textwrap.fill p width = Val text -> wrapped_as width p text.
Proof.
  intros Hw E; split; [exact E|]; split.
  - destruct (fill_spec p width Hw) as (lines & E' & Hlines & _).
    rewrite E' in E; injection E as <-.
    rewrite split_on_wrapped.
    + destruct lines; [constructor; [unfold len; simpl; lia | constructor]|].
      eapply Forall_impl; [|exact Hlines]; intros line H; apply H.
    + eapply Forall_impl; [|exact Hlines]; intros line H; apply H.
  - intros Hfit.
    destruct (wrap_groups p width Hw Hfit) as (groups & Ew & Hgroups).
    exists groups; split; [|exact Hgroups].
    unfold textwrap.fill in E; rewrite Ew in E; cbn [bind] in E.
    now injection E as <-.
Qed.

(** The document, its parts and its lines. *)
Lemma render_markdown_lines (title : str) (paragraphs : list str)
  (max_line_len : Z) :
  0 < max_line_len ->
  exists wrapped md body,
    render_markdown title paragraphs max_line_len = Val md
    /\ md = join [NEWLINE] (document_parts title wrapped)
    /\ Forall2 (wrapped_as max_line_len) paragraphs wrapped
    /\ split_on NEWLINE md
       = match title with
         | [] => []
         | _ :: _ => split_on NEWLINE (txt "# " ++ title)
         end ++ body
    /\ Forall (fun line => len line <= max_line_len) body.
Proof.
  intros Hw.
  destruct (render_markdown_parts title paragraphs max_line_len Hw)
    as (wrapped & H2 & E).
  assert (Hwrapped : Forall2 (wrapped_as max_line_len) paragraphs wrapped).
  { eapply Forall2_impl; [|exact H2].
    intros p text; now apply fill_wrapped_as. }
  destruct (document_parts_spec title wrapped) as (rest & Eparts & Hrest & _).
  assert (Hbody : Forall (fun line => len line <= max_line_len)
                    (flat_map (split_on NEWLINE) rest)).
  { apply Forall_flat_map_lines; eapply Forall_impl; [|exact Hrest].
    intros part [-> | Hin].
    - constructor; [unfold len; simpl; lia | constructor].
    - apply (Forall2_In_r _ _ _ _ Hwrapped) in Hin as (p & _ & Hp).
      apply Hp. }
  exists wrapped, (join [NEWLINE] (document_parts title wrapped)).
  destruct (list_eq_dec (list_eq_dec ascii_dec)
              (document_parts title wrapped) []) as [Enil | Hne].
  - exists [[]]; rewrite Enil in *.
    destruct title; [|discriminate Eparts].
    repeat split; try assumption.
    constructor; [unfold len; simpl; lia | constructor].
  - exists (flat_map (split_on NEWLINE) rest).
    repeat split; try assumption.
    rewrite split_on_join by assumption.
    rewrite Eparts, flat_map_app.
    destruct title; [reflexivity|].
    cbn [flat_map]; now rewrite app_nil_r.
Qed.

(** C4, amended: for every title, every paragraphs and every
    [max_line_len > 0], [render_markdown] returns the document whose parts
    are the heading and the paragraphs wrapped by [textwrap.fill]; every
    line of the document after the heading has at most [max_line_len]
    characters; and a paragraph whose chunks all fit [max_line_len] is
    broken between chunks only. *)
Theorem render_markdown_wraps (title : str) (paragraphs : list str)
  (max_line_len : Z) :
  0 < max_line_len ->
  exists wrapped md body,
    render_markdown title paragraphs max_line_len = Val md
    /\ md = join [NEWLINE] (document_parts title wrapped)
    /\ Forall2 (wrapped_as max_line_len) paragraphs wrapped
    /\ split_on NEWLINE md
       = match title with
         | [] => []
         | _ :: _ => split_on NEWLINE (txt "# " ++ title)
         end ++ body
    /\ Forall (fun line => len line <= max_line_len) body.
Proof. exact (render_markdown_lines title paragraphs max_line_len). Qed.

Lemma render_markdown_wraps_witness :
  exists wrapped md body,
    render_markdown (txt "T") [txt "lorem ipsum dolor"] 11 = Val md
    /\ md = join [NEWLINE] (document_parts (txt "T") wrapped)
    /\ Forall2 (wrapped_as 11) [txt "lorem ipsum dolor"] wrapped
    /\ split_on NEWLINE md = split_on NEWLINE (txt "# " ++ txt "T") ++ body
    /\ Forall (fun line => len line <= 11) body.
Proof.
  apply (render_markdown_wraps (txt "T") [txt "lorem ipsum dolor"] 11); lia.
Defined.

(** C4 as stated fails: a word longer than the width is cut.  The
    paragraph "consectetur" wrapped to 5 columns comes out on three lines,
    as three words. *)
Lemma render_markdown_cuts_long_word :
  render_markdown [] [txt "consectetur"] 5
  = Val (txt "conse" ++ NEWLINE :: txt "ctetu" ++ NEWLINE :: txt "r")
  /\ split (txt "conse" ++ NEWLINE :: txt "ctetu" ++ NEWLINE :: txt "r")
     = [txt "conse"; txt "ctetu"; txt "r"]
  /\ split (txt "consectetur") = [txt "consectetur"].
Proof. repeat split; vm_compute; reflexivity. Qed.

(** Chunks that fit are kept whole: three words wrapped to 11 columns. *)
Example render_markdown_keeps_words :
  textwrap.split_chunks (txt "lorem ipsum dolor")
  = [txt "lorem"; txt " "; txt "ipsum"; txt " "; txt "dolor"]
  /\ render_markdown [] [txt "lorem ipsum dolor"] 11
     = Val (join [NEWLINE]
              (map (@concat ascii)
                 [[txt "lorem"; txt " "; txt "ipsum"]; [txt "dolor"]])).
Proof. split; vm_compute; reflexivity. Qed.

(** A compound word is several chunks: it may be broken after a hyphen
    although it would fit a line. *)
Example render_markdown_breaks_after_hyphen :
  textwrap.split_chunks (txt "dolor sit-amet")
  = [txt "dolor"; txt " "; txt "sit-"; txt "amet"]
  /\ render_markdown [] [txt "dolor sit-amet"] 10
     = Val (txt "dolor sit-" ++ NEWLINE :: txt "amet").
Proof. split; vm_compute; reflexivity. Qed.

(** A wrapped text that is not empty does not end with a newline. *)
Lemma fill_end (p : str) (width : Z) :
  0 < width -> visible p ->
  exists text s d,
    textwrap.fill p width = Val text /\ text = s ++ [d] /\ d <> NEWLINE.
Proof.
  intros Hw Hv.
  destruct (fill_spec p width Hw) as (lines & E & Hlines & Hne).
  specialize (Hne Hv).
  destruct (exists_last Hne) as (lines0 & line & ->).
  apply Forall_app in Hlines as [_ Hline].
  inversion Hline as [|? ? (Hl & _ & Hnl) _]; subst.
  destruct (exists_last Hl) as (line0 & d & ->).
  destruct (join_last [NEWLINE] line0 d lines0) as (s & Es).
  exists (join [NEWLINE] (lines0 ++ [line0 ++ [d]])), s, d.
  repeat split; [exact E | exact Es|].
  intros ->; apply Hnl, in_or_app; right; now left.
Qed.

(** The end of the document. *)
Lemma render_markdown_last (title : str) (paragraphs : list str)
  (max_line_len : Z) :
  0 < max_line_len ->
  (paragraphs = [] -> endswith title NEWLINE = false) ->
  (paragraphs <> [] -> visible (last paragraphs [])) ->
  exists md,
    render_markdown title paragraphs max_line_len = Val md
    /\ endswith md NEWLINE = false
    /\ match paragraphs with
       | [] => md = match title with [] => [] | _ :: _ => txt "# " ++ title end
       | _ :: _ =>
           exists text before,
             textwrap.fill (last paragraphs []) max_line_len = Val text
             /\ text <> []
             /\ md = before ++ text
       end.
Proof.
  intros Hw Htitle Hlast.
  destruct (render_markdown_parts title paragraphs max_line_len Hw)
    as (wrapped & H2 & ->).
  destruct (document_parts_spec title wrapped) as (rest & -> & _ & Hrest).
  eexists; split; [reflexivity|].
  destruct (list_eq_dec (list_eq_dec ascii_dec) paragraphs []) as [-> | Hne].
  - inversion H2; subst; cbn beta iota in Hrest; subst rest.
    rewrite app_nil_r.
    destruct title as [|c title]; [split; reflexivity|].
    cbn [join]; split; [|reflexivity].
    rewrite endswith_app by discriminate; now apply Htitle.
  - specialize (Hlast Hne).
    destruct (exists_last Hne) as (paragraphs0 & p & ->).
    rewrite last_last in *.
    apply Forall2_app_inv_l in H2 as (wrapped0 & wrapped1 & _ & Hp & ->).
    inversion Hp as [|? text ? ? Efill Hnil]; subst; inversion Hnil; subst.
    destruct (fill_end p max_line_len Hw Hlast) as (text' & s & d & E & -> & Hd).
    rewrite E in Efill; injection Efill as <-.
    rewrite last_last in Hrest.
    assert (Hw1 : exists x l, wrapped0 ++ [s ++ [d]] = x :: l)
      by (destruct wrapped0; cbn [app]; eauto).
    destruct Hw1 as (x & l & Ew); rewrite Ew in Hrest.
    destruct Hrest as (rest' & ->).
    rewrite app_assoc, join_snoc.
    set (parts := _ ++ rest').
    assert (Hmd : exists before,
               match parts with
               | [] => s ++ [d]
               | _ :: _ => join [NEWLINE] parts ++ [NEWLINE] ++ s ++ [d]
               end = before ++ s ++ [d]).
    { destruct parts; [now exists [] |].
      eexists; rewrite (app_assoc _ [NEWLINE]); reflexivity. }
    destruct Hmd as (before & ->).
    split.
    + rewrite app_assoc, endswith_snoc.
      destruct (Ascii.eqb_spec d NEWLINE); [contradiction | reflexivity].
    + destruct (paragraphs0 ++ [p]) eqn:Ep; [now destruct paragraphs0|].
      exists (s ++ [d]), before; repeat split; [exact E|].
      intros E0; now apply app_eq_nil in E0 as [_ E0].
Qed.

(** C5, amended: for [max_line_len > 0], when the last paragraph has a
    character that is not whitespace (or there is no paragraph and the
    title does not end with a newline), the document does not end with a
    newline: it ends with the wrapped text of the last paragraph, which is
    not empty, or, without paragraphs, it is the heading (nothing at all
    without a title). *)
Theorem render_markdown_end (title : str) (paragraphs : list str)
  (max_line_len : Z) :
  0 < max_line_len ->
  (paragraphs = [] -> endswith title NEWLINE = false) ->
  (paragraphs <> [] -> visible (last paragraphs [])) ->
  exists md,
    render_markdown title paragraphs max_line_len = Val md
    /\ endswith md NEWLINE = false
    /\ match paragraphs with
       | [] => md = match title with [] => [] | _ :: _ => txt "# " ++ title end
       | _ :: _ =>
           exists text before,
             textwrap.fill (last paragraphs []) max_line_len = Val text
             /\ text <> []
             /\ md = before ++ text
       end.
Proof. exact (render_markdown_last title paragraphs max_line_len). Qed.

Lemma render_markdown_end_witness :
  exists md,
    render_markdown (txt "T") [txt "lorem ipsum"] 80 = Val md
    /\ endswith md NEWLINE = false
    /\ exists text before,
         textwrap.fill (txt "lorem ipsum") 80 = Val text
         /\ text <> []
         /\ md = before ++ text.
Proof.
  apply (render_markdown_end (txt "T") [txt "lorem ipsum"] 80).
  - lia.
  - discriminate.
  - intros _; exists "l"%char; split; [now left | reflexivity].
Defined.

(** C5 as stated fails: with an empty last paragraph the document ends
    with two newlines, that is with blank lines. *)
Lemma render_markdown_blank_end :
  render_markdown (txt "T") [[]] 80 = Val (txt "# T" ++ [NEWLINE; NEWLINE])
  /\ endswith (txt "# T" ++ [NEWLINE; NEWLINE]) NEWLINE = true
  /\ split_on NEWLINE (txt "# T" ++ [NEWLINE; NEWLINE]) = [txt "# T"; []; []].
Proof. repeat split; vm_compute; reflexivity. Qed.

(** ** [main]: reproducible output *)

Section MainFacts.

Context {R : RandomSource}.

Lemma gen_paragraphs_in_order (distribution : list Z) :
  forall g paragraphs_text g',
    gen_paragraphs distribution g = Val (paragraphs_text, g') ->
    paragraphs_in_order distribution g paragraphs_text g'.
Proof.
  induction distribution as [|n distribution IH]; intros g ps g';
    cbn [gen_paragraphs].
  - intros E; injection E as <- <-; constructor.
  - destruct (gen_paragraph n g) as [[p g1]| |] eqn:Ep; cbn [bind];
      try discriminate.
    destruct (gen_paragraphs distribution g1) as [[ps' g2]| |] eqn:Eps;
      cbn [bind]; try discriminate.
    intros E; injection E as <- <-.
    econstructor; [exact Ep | now apply IH].
Qed.

(** [main] writes a file whenever the line width is positive. *)
Lemma main_total (settings : Settings) (entropy : rng) :
  0 < max_line_length settings ->
  exists md, main settings entropy = Val (output_path settings, md).
Proof.
  intros Hw; unfold main.
  destruct (generate_total settings (Random (seed settings) entropy))
    as (ps & title & ->); cbn [bind].
  destruct (render_markdown_parts title ps (max_line_length settings) Hw)
    as (wrapped & _ & ->); cbn [bind].
  eauto.
Qed.

(** The documents that [main] writes do not end with a newline, and their
    lines after the heading fit the width. *)
Lemma main_document (settings : Settings) (entropy : rng) :
  0 < max_line_length settings ->
  exists md body title_text,
    main settings entropy = Val (output_path settings, md)
    /\ endswith md NEWLINE = false
    /\ split_on NEWLINE md
       = match title_text with
         | [] => []
         | _ :: _ => split_on NEWLINE (txt "# " ++ title_text)
         end ++ body
    /\ Forall (fun line => len line <= max_line_length settings) body.
Proof.
  intros Hw; unfold main.
  destruct (generate_spec settings (Random (seed settings) entropy))
    as (ps & title & -> & Hvis & Htitle); cbn [bind].
  destruct (render_markdown_last title ps (max_line_length settings) Hw)
    as (md & E & Hend & _).
  - auto.
  - intros Hne; rewrite Forall_forall in Hvis; apply Hvis.
    destruct (exists_last Hne) as (ps0 & p & ->).
    rewrite last_last; apply in_or_app; right; now left.
  - destruct (render_markdown_lines title ps (max_line_length settings) Hw)
      as (wrapped & md' & body & E' & _ & _ & Hlines & Hbody).
    rewrite E' in E; injection E as ->.
    rewrite E'; cbn [bind].
    exists md, body, title; auto.
Qed.

(** C2: with an integer seed the file that [main] writes does not depend
    on the state the system would give to an unseeded generator: two runs
    with the same configuration write the same text.  A run writes a file
    whenever the line width is positive, and the text it writes is the
    rendering of paragraphs drawn first, in the order of the budgets, from
    the generator seeded with the seed, and of a title drawn from the
    state the last paragraph left. *)
Theorem main_reproducible (settings : Settings) (s : Z)
  (entropy1 entropy2 : rng) :
  seed settings = Some s ->
  main settings entropy1 = main settings entropy2
  /\ (0 < max_line_length settings ->
      exists md, main settings entropy1 = Val (output_path settings, md))
  /\ (forall path md,
        main settings entropy1 = Val (path, md) ->
        exists paragraphs_text g1 title_text g2,
          paragraphs_in_order
            (distribute_chars
               (min_budget_fallback (characters settings) (paragraphs settings))
               (paragraphs settings))
            (seeded s) paragraphs_text g1
          /\ (if include_title settings
              then gen_title (title_characters settings) g1
              else Val ([], g1)) = Val (title_text, g2)
          /\ render_markdown title_text paragraphs_text
               (max_line_length settings) = Val md).
Proof.
  intros Hseed; split; [|split].
  - unfold main, Random; now rewrite Hseed.
  - apply main_total.
  - intros path md; unfold main, Random, generate; rewrite Hseed.
    destruct (gen_paragraphs _ (seeded s)) as [[ps g1]| |] eqn:Eps;
      cbn [bind]; try discriminate.
    destruct (if include_title settings
              then gen_title (title_characters settings) g1
              else Val ([], g1)) as [[title g2]| |] eqn:Et;
      cbn [bind]; try discriminate.
    destruct (render_markdown title ps (max_line_length settings))
      as [md'| |] eqn:Emd; cbn [bind]; try discriminate.
    intros E; injection E as _ <-.
    exists ps, g1, title, g2; repeat split; try assumption.
    now apply gen_paragraphs_in_order.
Qed.

End MainFacts.

Lemma main_reproducible_witness :
  main example_settings 1 = main example_settings 2
  /\ (0 < max_line_length example_settings ->
      exists md, main example_settings 1 = Val (output_path example_settings, md))
  /\ (forall path md,
        main example_settings 1 = Val (path, md) ->
        exists paragraphs_text g1 title_text g2,
          paragraphs_in_order
            (distribute_chars
               (min_budget_fallback (characters example_settings)
                  (paragraphs example_settings))
               (paragraphs example_settings))
            (seeded 42) paragraphs_text g1
          /\ (if include_title example_settings
              then gen_title (title_characters example_settings) g1
              else Val ([], g1)) = Val (title_text, g2)
          /\ render_markdown title_text paragraphs_text
               (max_line_length example_settings) = Val md).
Proof.
  apply (main_reproducible (R := Lcg) example_settings 42 1 2); reflexivity.
Defined.

(** Without a seed the text depends on the state the system provides. *)
Lemma main_unseeded_differs :
  let settings := {|
    output_path := txt "content/lorem.md";
    characters := 100;
    paragraphs := 2;
    max_line_length := 40;
    include_title := true;
    title_characters := 20;
    seed := None
  |} in
  main (R := Lcg) settings 1 <> main (R := Lcg) settings 2.
Proof. vm_compute; discriminate. Qed.


(** * Part III: further properties of the code *)

(** ** [distribute_chars] on every integer *)

Lemma distribute_chars_nth (total_chars paragraphs i : Z) :
  0 < paragraphs -> 0 <= i < paragraphs ->
  nth (Z.to_nat i) (distribute_chars total_chars paragraphs) 0
  = total_chars / paragraphs
    + (if i <? total_chars mod paragraphs then 1 else 0).
Proof.
  intros Hp Hi; rewrite distribute_chars_pos by assumption.
  set (f := fun j => _ + _).
  rewrite (nth_indep _ 0 (f 0)).
  - rewrite map_nth, range_nth by lia; reflexivity.
  - rewrite length_map.
    pose proof (range_length paragraphs) as L; unfold len in L; lia.
Qed.

(** X1: whatever the sign of the total, a positive number of paragraphs
    gets that many budgets, which sum to the total and never increase from
    left to right, the first being at most one more than the last; a
    number of paragraphs that is zero or negative gets no budget. *)
Theorem distribute_chars_any_total (total_chars paragraphs : Z) :
  (0 < paragraphs ->
   len (distribute_chars total_chars paragraphs) = paragraphs
   /\ sum (distribute_chars total_chars paragraphs) = total_chars
   /\ forall i j, 0 <= i -> i <= j -> j < paragraphs ->
        nth (Z.to_nat j) (distribute_chars total_chars paragraphs) 0
        <= nth (Z.to_nat i) (distribute_chars total_chars paragraphs) 0
        <= nth (Z.to_nat j) (distribute_chars total_chars paragraphs) 0 + 1)
  /\ (paragraphs <= 0 -> distribute_chars total_chars paragraphs = []).
Proof.
  split.
  - intros Hp.
    pose proof (Z.mod_pos_bound total_chars paragraphs Hp) as Hr.
    split; [|split].
    + rewrite distribute_chars_pos by assumption.
      unfold len; rewrite length_map; apply range_length; lia.
    + rewrite distribute_chars_pos by assumption.
      unfold range; rewrite sum_entries by lia.
      rewrite Z2Nat.id by lia.
      rewrite (Z.div_mod total_chars paragraphs) at 3 by lia.
      lia.
    + intros i j Hi Hij Hj.
      rewrite !distribute_chars_nth by lia.
      destruct (Z.ltb_spec i (total_chars mod paragraphs));
        destruct (Z.ltb_spec j (total_chars mod paragraphs)); lia.
  - intros Hp; unfold distribute_chars.
    destruct (Z.leb_spec paragraphs 0); [reflexivity | lia].
Qed.

Lemma distribute_chars_any_total_witness :
  len (distribute_chars (-7) 3) = 3
  /\ sum (distribute_chars (-7) 3) = -7
  /\ forall i j, 0 <= i -> i <= j -> j < 3 ->
       nth (Z.to_nat j) (distribute_chars (-7) 3) 0
       <= nth (Z.to_nat i) (distribute_chars (-7) 3) 0
       <= nth (Z.to_nat j) (distribute_chars (-7) 3) 0 + 1.
Proof. apply (proj1 (distribute_chars_any_total (-7) 3)); lia. Defined.

(** ** Widths that [textwrap] refuses *)

Lemma fill_invalid_width (text : str) (width : Z) :
  width <= 0 -> textwrap.fill text width = ValueError.
Proof.
  intros Hw; unfold textwrap.fill, textwrap.wrap, textwrap.wrap_chunks.
  destruct (Z.leb_spec width 0); [reflexivity | lia].
Qed.

Lemma render_paragraphs_invalid_width (p : str) (paragraphs parts : list str)
  (max_line_len : Z) :
  max_line_len <= 0 ->
  render_paragraphs (p :: paragraphs) max_line_len parts = ValueError.
Proof.
  intros Hw; cbn [render_paragraphs].
  now rewrite fill_invalid_width.
Qed.

Lemma render_markdown_no_paragraph (title : str) (max_line_len : Z) :
  render_markdown title [] max_line_len
  = Val (match title with [] => [] | _ :: _ => txt "# " ++ title end).
Proof. destruct title; reflexivity. Qed.

(** X2: [render_markdown] returns a document for every positive width;
    for a width that is zero or negative it raises [ValueError] as soon as
    there is a paragraph; without paragraphs the width is not looked at
    and the document is the heading line alone (empty without a title). *)
Theorem render_markdown_width (title : str) (paragraphs : list str)
  (max_line_len : Z) :
  (0 < max_line_len ->
   exists md, render_markdown title paragraphs max_line_len = Val md)
  /\ (max_line_len <= 0 -> paragraphs <> [] ->
      render_markdown title paragraphs max_line_len = ValueError)
  /\ (paragraphs = [] ->
      render_markdown title paragraphs max_line_len
      = Val (match title with [] => [] | _ :: _ => txt "# " ++ title end)).
Proof.
  split; [|split].
  - intros Hw.
    destruct (render_markdown_parts title paragraphs max_line_len Hw)
      as (wrapped & _ & E); eauto.
  - intros Hw Hne; destruct paragraphs as [|p paragraphs]; [congruence|].
    unfold render_markdown.
    now rewrite render_paragraphs_invalid_width.
  - intros ->; apply render_markdown_no_paragraph.
Qed.

Lemma render_markdown_width_witness :
  (exists md, render_markdown (txt "T") [txt "lorem ipsum"] 5 = Val md)
  /\ render_markdown (txt "T") [txt "lorem ipsum"] 0 = ValueError
  /\ render_markdown (txt "T") [] (-3) = Val (txt "# " ++ txt "T").
Proof.
  split; [|split].
  - apply (proj1 (render_markdown_width (txt "T") [txt "lorem ipsum"] 5)); lia.
  - apply (proj1 (proj2 (render_markdown_width (txt "T") [txt "lorem ipsum"] 0)));
      [lia | discriminate].
  - apply (proj2 (proj2 (render_markdown_width (txt "T") [] (-3)))); reflexivity.
Defined.

(** ** The outcomes of [main] *)

Section MainOutcome.

Context {R : RandomSource}.

Lemma distribute_chars_none (total_chars paragraphs : Z) :
  paragraphs <= 0 -> distribute_chars total_chars paragraphs = [].
Proof.
  intros Hp; unfold distribute_chars.
  destruct (Z.leb_spec paragraphs 0); [reflexivity | lia].
Qed.

(** [main] generates as many paragraphs as the settings ask for. *)
Lemma generate_count (settings : Settings) (g : rng)
  (paragraphs_text : list str) (title_text : str) :
  generate settings g = Val (paragraphs_text, title_text) ->
  len paragraphs_text = Z.max 0 (paragraphs settings).
Proof.
  unfold generate.
  set (d := distribute_chars _ _).
  destruct (gen_paragraphs_spec d g) as (ps & g1 & -> & H2); cbn [bind].
  destruct (if include_title settings
            then gen_title (title_characters settings) g1
            else Val ([], g1)) as [[t g2]| |]; cbn [bind]; try discriminate.
  intros E; injection E as <- _.
  unfold len; rewrite <- (Forall2_length H2); fold (len d); subst d.
  destruct (Z.leb_spec (paragraphs settings) 0) as [Hn | Hp].
  - rewrite distribute_chars_none by assumption.
    change (len (@nil Z)) with 0; lia.
  - rewrite distribute_chars_pos by assumption.
    unfold len; rewrite length_map.
    pose proof (range_length (paragraphs settings)) as L; unfold len in L; lia.
Qed.

(** X3: [main] writes a file when the line width is positive or when no
    paragraph is asked for; asked for a paragraph with a line width that
    is zero or negative it raises [ValueError] and writes nothing; and
    when no paragraph is asked for, the file holds the heading line alone,
    whose title is drawn from the generator in its initial state. *)
Theorem main_outcome (settings : Settings) (entropy : rng) :
  (0 < max_line_length settings \/ paragraphs settings <= 0 ->
   exists md, main settings entropy = Val (output_path settings, md))
  /\ (max_line_length settings <= 0 -> 0 < paragraphs settings ->
      main settings entropy = ValueError)
  /\ (paragraphs settings <= 0 ->
      exists title_text g',
        (if include_title settings
         then gen_title (title_characters settings)
                (Random (seed settings) entropy)
         else Val ([], Random (seed settings) entropy))
        = Val (title_text, g')
        /\ main settings entropy
           = Val (output_path settings,
                  match title_text with
                  | [] => []
                  | _ :: _ => txt "# " ++ title_text
                  end)).
Proof.
  assert (Hnone : paragraphs settings <= 0 ->
            exists title_text g',
              (if include_title settings
               then gen_title (title_characters settings)
                      (Random (seed settings) entropy)
               else Val ([], Random (seed settings) entropy))
              = Val (title_text, g')
              /\ main settings entropy
                 = Val (output_path settings,
                        match title_text with
                        | [] => []
                        | _ :: _ => txt "# " ++ title_text
                        end)).
  { intros Hp; unfold main, generate.
    rewrite distribute_chars_none by assumption; cbn [gen_paragraphs bind].
    destruct (generate_total settings (Random (seed settings) entropy))
      as (ps & title & E).
    unfold generate in E.
    rewrite distribute_chars_none in E by assumption.
    cbn [gen_paragraphs bind] in E.
    destruct (if include_title settings
              then gen_title (title_characters settings)
                     (Random (seed settings) entropy)
              else Val ([], Random (seed settings) entropy))
      as [[t g2]| |]; cbn [bind] in *; try discriminate.
    exists t, g2; split; [reflexivity|].
    now rewrite render_markdown_no_paragraph. }
  split; [|split]; [| |exact Hnone].
  - intros [Hw | Hp]; [now apply main_total|].
    destruct (Hnone Hp) as (t & g' & _ & E); eauto.
  - intros Hw Hp; unfold main.
    destruct (generate_total settings (Random (seed settings) entropy))
      as (ps & title & E).
    rewrite E; cbn [bind].
    apply generate_count in E.
    destruct ps as [|p ps]; [change (len (@nil (list ascii))) with 0 in E; lia|].
    unfold render_markdown.
    now rewrite render_paragraphs_invalid_width.
Qed.

End MainOutcome.

Lemma main_outcome_witness :
  (exists md, main example_settings 0 = Val (output_path example_settings, md))
  /\ main {| output_path := txt "content/lorem.md";
             characters := 100;
             paragraphs := 2;
             max_line_length := 0;
             include_title := true;
             title_characters := 20;
             seed := Some 42 |} 0 = ValueError.
Proof.
  split.
  - apply (proj1 (main_outcome (R := Lcg) example_settings 0)).
    left; simpl; lia.
  - apply (proj1 (proj2 (main_outcome (R := Lcg) _ 0))); simpl; lia.
Defined.

(** ** What wrapping keeps *)

Lemma visible_chars_app (s t : str) :
  visible_chars (s ++ t) = visible_chars s ++ visible_chars t.
Proof. apply filter_app. Qed.

Lemma visible_chars_spaces (s : str) :
  forallb isspace s = true -> visible_chars s = [].
Proof.
  induction s as [|c s IH]; [reflexivity|]; cbn [forallb visible_chars filter].
  intros H; apply andb_prop in H as [-> H]; cbn [negb]; now apply IH.
Qed.

Lemma visible_chars_repeat_space (n : nat) :
  visible_chars (repeat SPACE n) = [].
Proof. induction n as [|n IH]; [reflexivity | exact IH]. Qed.

Lemma whitespace_isspace (c : ascii) :
  textwrap.is_whitespace c = true -> isspace c = true.
Proof. each_char c. Qed.

Lemma expandtabs_from_visible (tabsize : Z) (text : str) :
  forall line_pos,
    visible_chars (textwrap.expandtabs_from tabsize line_pos text)
    = visible_chars text.
Proof.
  induction text as [|c text IH]; intros line_pos; [reflexivity|].
  cbn [textwrap.expandtabs_from].
  destruct (Ascii.eqb_spec c TAB) as [-> | Hc].
  - change (visible_chars (TAB :: text)) with (visible_chars text).
    destruct (0 <? tabsize); [|apply IH].
    now rewrite visible_chars_app, visible_chars_repeat_space, IH.
  - cbn [visible_chars filter]; fold (visible_chars text).
    fold (visible_chars
            (textwrap.expandtabs_from tabsize
               (if Ascii.eqb c NEWLINE || Ascii.eqb c CR then 0
                else line_pos + 1) text)).
    now rewrite IH.
Qed.

Lemma translate_whitespace_visible (text : str) :
  visible_chars (textwrap.translate_whitespace text) = visible_chars text.
Proof.
  induction text as [|c text IH]; [reflexivity|].
  cbn [textwrap.translate_whitespace map visible_chars filter].
  fold (textwrap.translate_whitespace text).
  fold (visible_chars (textwrap.translate_whitespace text)).
  fold (visible_chars text); rewrite IH.
  destruct (textwrap.is_whitespace c) eqn:Hc; [|reflexivity].
  now rewrite (whitespace_isspace c Hc).
Qed.

Lemma munge_whitespace_visible (text : str) :
  visible_chars (textwrap.munge_whitespace text) = visible_chars text.
Proof.
  unfold textwrap.munge_whitespace, textwrap.expandtabs.
  now rewrite translate_whitespace_visible, expandtabs_from_visible.
Qed.

Lemma visible_chars_blank (chunk : str) :
  textwrap.is_blank chunk = true -> visible_chars chunk = [].
Proof. rewrite is_blank_forallb; apply visible_chars_spaces. Qed.

Lemma visible_chars_blanks (chunks : list str) :
  filter nonblank chunks = [] -> visible_chars (concat chunks) = [].
Proof.
  induction chunks as [|c chunks IH]; [reflexivity|].
  cbn [filter concat]; unfold nonblank at 1.
  destruct (textwrap.is_blank c) eqn:Hc; cbn [negb]; [|discriminate].
  intros H; now rewrite visible_chars_app, visible_chars_blank, IH.
Qed.

Lemma visible_chars_drop_blank_end (cur_line : list str) :
  visible_chars (concat (textwrap.drop_blank_end cur_line))
  = visible_chars (concat cur_line).
Proof.
  destruct (drop_blank_end_prefix cur_line) as (dropped & E & Hd).
  rewrite E at 2.
  now rewrite concat_app, visible_chars_app, (visible_chars_blanks dropped),
    app_nil_r.
Qed.

Lemma concat_append_line (cur_line lines : list str) :
  concat (textwrap.append_line cur_line lines)
  = concat lines ++ concat cur_line.
Proof.
  destruct cur_line as [|c cur_line]; cbn [textwrap.append_line].
  - now rewrite app_nil_r.
  - rewrite concat_app; cbn [concat]; now rewrite app_nil_r.
Qed.

(** A pass of the loop moves visible characters from the stack to the
    lines, in order, and loses none. *)
Lemma wrap_line_visible (width : Z) (chunks lines : list str) :
  1 <= width ->
  visible_chars (concat (snd (textwrap.wrap_line width chunks lines)))
  ++ visible_chars (concat (fst (textwrap.wrap_line width chunks lines)))
  = visible_chars (concat lines) ++ visible_chars (concat chunks).
Proof.
  intros Hw.
  destruct (wrap_line_cases width chunks lines Hw)
    as (pre & fitted & tail & -> & Hpre & _ & Hcase).
  assert (Hblank : visible_chars (concat pre) = []).
  { destruct Hpre as [-> | (b & -> & Hb & _)]; [reflexivity|].
    cbn [concat]; rewrite app_nil_r; now apply visible_chars_blank. }
  destruct Hcase as [[-> _] | (chunk & tail' & e & -> & _ & _ & _ & ->)];
    cbn [fst snd]; rewrite concat_append_line, !concat_app,
      !visible_chars_app, visible_chars_drop_blank_end, Hblank; cbn [app].
  - now rewrite <- app_assoc.
  - rewrite concat_app, visible_chars_app; cbn [concat].
    rewrite app_nil_r, !visible_chars_app.
    rewrite <- (slice_app chunk e) at 3.
    now rewrite visible_chars_app, <- !app_assoc.
Qed.

Lemma wrap_loop_visible (width : Z) (fuel : nat) :
  1 <= width ->
  forall chunks lines lines',
    textwrap.wrap_loop fuel width chunks lines = Val lines' ->
    visible_chars (concat lines')
    = visible_chars (concat lines) ++ visible_chars (concat chunks).
Proof.
  intros Hw; induction fuel as [|fuel IH]; intros chunks lines lines'.
  - destruct chunks; cbn [textwrap.wrap_loop]; [|discriminate].
    intros E; injection E as <-; now rewrite app_nil_r.
  - destruct chunks as [|chunk chunks]; cbn [textwrap.wrap_loop].
    + intros E; injection E as <-; now rewrite app_nil_r.
    + pose proof (wrap_line_visible width (chunk :: chunks) lines Hw) as Hpass.
      destruct (textwrap.wrap_line width (chunk :: chunks) lines)
        as [chunks1 lines1]; cbn [fst snd] in Hpass.
      intros E; rewrite (IH _ _ _ E); exact Hpass.
Qed.

Lemma visible_chars_join_newline (lines : list str) :
  visible_chars (join [NEWLINE] lines) = visible_chars (concat lines).
Proof.
  induction lines as [|l lines IH]; [reflexivity|].
  destruct lines as [|l' lines].
  - cbn [join concat]; now rewrite app_nil_r.
  - rewrite join_cons2, !visible_chars_app, IH.
    change (concat (l :: l' :: lines)) with (l ++ concat (l' :: lines)).
    now rewrite visible_chars_app.
Qed.

(** [textwrap.fill] keeps the visible characters of the text, in order. *)
Lemma fill_visible (text wrapped : str) (width : Z) :
  textwrap.fill text width = Val wrapped ->
  visible_chars wrapped = visible_chars text.
Proof.
  unfold textwrap.fill, textwrap.wrap, textwrap.wrap_chunks,
    textwrap.split_chunks.
  destruct (Z.leb_spec width 0); [discriminate|].
  destruct (textwrap.wrap_loop _ width _ []) as [lines| |] eqn:E;
    cbn [bind]; try discriminate.
  intros E'; injection E' as <-.
  rewrite visible_chars_join_newline.
  rewrite (wrap_loop_visible width _ ltac:(lia) _ _ _ E); cbn [concat app].
  destruct (split_spec (textwrap.munge_whitespace text)) as [-> _].
  apply munge_whitespace_visible.
Qed.

Lemma concat_pop_blank (parts : list str) :
  concat (pop_blank parts) = concat parts.
Proof.
  destruct (list_eq_dec (list_eq_dec ascii_dec) parts []) as [-> | Hne];
    [reflexivity|].
  destruct (exists_last Hne) as (l & x & ->).
  unfold pop_blank; rewrite rev_app_distr; cbn [rev app].
  destruct x; [|reflexivity].
  rewrite removelast_last, concat_app; cbn [concat]; now rewrite app_nil_r.
Qed.

Lemma concat_with_blanks (wrapped : list str) :
  concat (flat_map (fun text => [text; []]) wrapped) = concat wrapped.
Proof.
  induction wrapped as [|text wrapped IH]; [reflexivity|].
  cbn [flat_map app concat]; now rewrite IH.
Qed.

Lemma visible_chars_wrapped (width : Z) (paragraphs wrapped : list str) :
  Forall2 (fun p text => textwrap.fill p width = Val text) paragraphs wrapped ->
  visible_chars (concat wrapped) = visible_chars (concat paragraphs).
Proof.
  induction 1 as [|p text paragraphs wrapped E _ IH]; [reflexivity|].
  cbn [concat]; rewrite !visible_chars_app, IH.
  now rewrite (fill_visible p text width E).
Qed.

(** X4: for a positive width the document holds, in order, the heading
    mark and the characters of the title that are not whitespace, then
    those of the paragraphs: rendering moves, adds and removes whitespace
    only, also where it cuts a long word. *)
Theorem render_markdown_keeps_text (title : str) (paragraphs : list str)
  (max_line_len : Z) :
  0 < max_line_len ->
  exists md,
    render_markdown title paragraphs max_line_len = Val md
    /\ visible_chars md
       = match title with
         | [] => []
         | _ :: _ => txt "#" ++ visible_chars title
         end ++ visible_chars (concat paragraphs).
Proof.
  intros Hw.
  destruct (render_markdown_parts title paragraphs max_line_len Hw)
    as (wrapped & H2 & ->).
  eexists; split; [reflexivity|].
  rewrite visible_chars_join_newline; unfold document_parts.
  rewrite concat_pop_blank, concat_app, concat_with_blanks, visible_chars_app.
  rewrite (visible_chars_wrapped max_line_len paragraphs wrapped H2).
  f_equal; destruct title as [|c title]; [reflexivity|].
  cbn [concat]; now rewrite !app_nil_r.
Qed.

Lemma render_markdown_keeps_text_witness :
  exists md,
    render_markdown (txt "My title") [txt "consectetur  adipiscing"; txt "elit"] 5
    = Val md
    /\ visible_chars md
       = (txt "#" ++ visible_chars (txt "My title"))
         ++ visible_chars
              (concat [txt "consectetur  adipiscing"; txt "elit"]).
Proof.
  apply (render_markdown_keeps_text (txt "My title")
           [txt "consectetur  adipiscing"; txt "elit"] 5); lia.
Defined.

(** ** The layout of the document *)

Lemma pop_blank_cons (part : str) (parts : list str) :
  parts <> [] -> pop_blank (part :: parts) = part :: pop_blank parts.
Proof.
  intros Hne; destruct (exists_last Hne) as (l & x & ->).
  unfold pop_blank.
  change (part :: l ++ [x]) with ((part :: l) ++ [x]).
  rewrite !rev_app_distr; cbn [rev app].
  destruct x; [|reflexivity].
  change (part :: l ++ [[]]) with ((part :: l) ++ [[]]).
  now rewrite !removelast_last.
Qed.

Lemma pop_blank_separated (parts : list str) :
  pop_blank (flat_map (fun text => [text; []]) parts) = separated parts.
Proof.
  induction parts as [|p parts IH]; [reflexivity|].
  destruct parts as [|q parts]; [reflexivity|].
  change (flat_map (fun text => [text; []]) (p :: q :: parts))
    with (p :: [] :: flat_map (fun text => [text; []]) (q :: parts)).
  rewrite !pop_blank_cons, IH; [reflexivity | discriminate | discriminate].
Qed.

(** The parts of a document are the heading and the wrapped paragraphs
    with one empty part between two of them. *)
Lemma document_parts_separated (title : str) (wrapped : list str) :
  document_parts title wrapped
  = separated (match title with [] => [] | _ :: _ => [txt "# " ++ title] end
               ++ wrapped).
Proof.
  unfold document_parts; rewrite <- pop_blank_separated.
  destruct title; reflexivity.
Qed.

Lemma separated_lines (parts : list str) (blocks : list (list str)) :
  Forall2 (fun part block => split_on NEWLINE part = block) parts blocks ->
  flat_map (split_on NEWLINE) (separated parts) = blocks_lines blocks.
Proof.
  induction 1 as [|part block parts blocks E H2 IH]; [reflexivity|].
  destruct H2 as [|part' block' parts blocks E' H2].
  - cbn [separated flat_map blocks_lines]; now rewrite app_nil_r.
  - change (separated (part :: part' :: parts))
      with (part :: [] :: separated (part' :: parts)).
    change (blocks_lines (block :: block' :: blocks))
      with (block ++ [] :: blocks_lines (block' :: blocks)).
    cbn [flat_map]; rewrite IH, E; reflexivity.
Qed.

Lemma fill_functional (width : Z) (paragraphs wrapped1 wrapped2 : list str) :
  Forall2 (fun p text => textwrap.fill p width = Val text) paragraphs wrapped1 ->
  Forall2 (fun p text => textwrap.fill p width = Val text) paragraphs wrapped2 ->
  wrapped1 = wrapped2.
Proof.
  intros H; revert wrapped2.
  induction H as [|p text ps wrapped1 E _ IH]; intros wrapped2 H2;
    inversion H2 as [|? text2 ? wrapped2' E2 H2']; subst; [reflexivity|].
  rewrite E in E2; injection E2 as <-; f_equal; now apply IH.
Qed.

(** The blocks of lines of paragraphs that have a visible character. *)
Lemma wrap_blocks (width : Z) (paragraphs : list str) :
  0 < width -> Forall visible paragraphs ->
  exists blocks,
    Forall2 (fun p block =>
               textwrap.wrap p width = Val block
               /\ block <> []
               /\ Forall (fun line => line <> [] /\ len line <= width
                                      /\ ~ In NEWLINE line) block)
      paragraphs blocks.
Proof.
  intros Hw; induction 1 as [|p paragraphs Hp _ (blocks & IH)].
  - exists []; constructor.
  - destruct (wrap_spec p width Hw) as (lines & E & Hlines & Hne).
    exists (lines :: blocks); constructor; auto.
Qed.

(** The lines of the document, from the lines of its paragraphs. *)
Lemma render_markdown_of_blocks (title : str) (paragraphs : list str)
  (max_line_len : Z) (blocks : list (list str)) :
  0 < max_line_len ->
  ~ In NEWLINE title ->
  title <> [] \/ paragraphs <> [] ->
  Forall2 (fun p block =>
             textwrap.wrap p max_line_len = Val block
             /\ block <> []
             /\ Forall (fun line => ~ In NEWLINE line) block)
    paragraphs blocks ->
  exists md,
    render_markdown title paragraphs max_line_len = Val md
    /\ split_on NEWLINE md = blocks_lines (heading_block title ++ blocks).
Proof.
  intros Hw Htitle Hne Hblocks.
  destruct (render_markdown_parts title paragraphs max_line_len Hw)
    as (wrapped & H2 & E).
  assert (Hfill : Forall2 (fun p text => textwrap.fill p max_line_len = Val text)
                    paragraphs (map (join [NEWLINE]) blocks)).
  { clear -Hblocks; induction Hblocks as [|p b ps bs (Ew & _) _ IH];
      cbn [map]; constructor; [|assumption].
    unfold textwrap.fill; now rewrite Ew. }
  rewrite (fill_functional _ _ _ _ H2 Hfill) in E; clear H2 wrapped.
  exists (join [NEWLINE] (document_parts title (map (join [NEWLINE]) blocks))).
  split; [assumption|].
  rewrite document_parts_separated.
  set (parts := _ ++ map (join [NEWLINE]) blocks).
  assert (Hparts : parts <> []).
  { subst parts; destruct title; [|discriminate].
    destruct Hne as [Hne | Hne]; [congruence|].
    inversion Hblocks; subst; [congruence | discriminate]. }
  assert (Hsep : separated parts <> []).
  { destruct parts as [|a [|b parts]]; [congruence | discriminate | discriminate]. }
  rewrite split_on_join by assumption.
  apply separated_lines; subst parts.
  apply Forall2_app.
  - destruct title as [|c title]; [constructor|].
    constructor; [|constructor].
    apply split_on_none.
    intros [E0 | [E0 | Hin]]; [discriminate E0 | discriminate E0 | auto].
  - clear -Hblocks; induction Hblocks as [|p b ps bs (_ & Hb & Hlines) _ IH];
      cbn [map]; constructor; [|assumption].
    rewrite split_on_wrapped by assumption.
    destruct b; [congruence | reflexivity].
Qed.

(** X5: for a positive width, a title on one line and paragraphs that
    each have a visible character, the lines of the document are the
    heading line, if there is a title, and then the lines of each
    paragraph as [textwrap.wrap] returns them, with exactly one empty line
    between two consecutive blocks; the lines of the paragraphs are not
    empty and fit the width. *)
Theorem render_markdown_layout (title : str) (paragraphs : list str)
  (max_line_len : Z) :
  0 < max_line_len ->
  ~ In NEWLINE title ->
  Forall visible paragraphs ->
  title <> [] \/ paragraphs <> [] ->
  exists blocks md,
    Forall2 (fun p block =>
               textwrap.wrap p max_line_len = Val block
               /\ block <> []
               /\ Forall (fun line => line <> [] /\ len line <= max_line_len
                                      /\ ~ In NEWLINE line) block)
      paragraphs blocks
    /\ render_markdown title paragraphs max_line_len = Val md
    /\ split_on NEWLINE md = blocks_lines (heading_block title ++ blocks).
Proof.
  intros Hw Htitle Hvis Hne.
  destruct (wrap_blocks max_line_len paragraphs Hw Hvis) as (blocks & Hblocks).
  destruct (render_markdown_of_blocks title paragraphs max_line_len blocks
              Hw Htitle Hne) as (md & E & Hlines).
  { eapply Forall2_impl; [|exact Hblocks].
    cbn beta; intros p block (Ew & Hb & Hl); repeat split; auto.
    eapply Forall_impl; [|exact Hl]; intros line H; apply H. }
  exists blocks, md; auto.
Qed.

Lemma render_markdown_layout_witness :
  exists blocks md,
    Forall2 (fun p block =>
               textwrap.wrap p 11 = Val block
               /\ block <> []
               /\ Forall (fun line => line <> [] /\ len line <= 11
                                      /\ ~ In NEWLINE line) block)
      [txt "lorem ipsum dolor"; txt "sit amet"] blocks
    /\ render_markdown (txt "T") [txt "lorem ipsum dolor"; txt "sit amet"] 11
       = Val md
    /\ split_on NEWLINE md = blocks_lines (heading_block (txt "T") ++ blocks).
Proof.
  apply (render_markdown_layout (txt "T")
           [txt "lorem ipsum dolor"; txt "sit amet"] 11).
  - lia.
  - intros [E | []]; discriminate E.
  - constructor; [|constructor; [|constructor]].
    + exists "l"%char; split; [now left | reflexivity].
    + exists "s"%char; split; [now left | reflexivity].
  - left; discriminate.
Defined.

(** ** The sentences of a paragraph *)

Lemma LOREM_WORDS_short :
  forallb (fun w => (length w <=? 13)%nat) LOREM_WORDS = true.
Proof. vm_compute; reflexivity. Qed.

Lemma pool_word_max (w : str) : In w LOREM_WORDS -> len w <= 13.
Proof.
  intros H.
  pose proof (proj1 (forallb_forall _ _) LOREM_WORDS_short w H) as Hw.
  apply Nat.leb_le in Hw; unfold len; lia.
Qed.

Lemma end_sentence_app (a b : list str) :
  b <> [] -> end_sentence (a ++ b) = a ++ end_sentence b.
Proof.
  intros Hb; destruct (exists_last Hb) as (b0 & x & ->).
  now rewrite app_assoc, !end_sentence_snoc, app_assoc.
Qed.

Lemma end_sentence_len (b : list str) :
  b <> [] -> len (end_sentence b) = len b.
Proof.
  intros Hb; destruct (exists_last Hb) as (b0 & x & ->).
  rewrite end_sentence_snoc; unfold len; now rewrite !length_app.
Qed.

Lemma sentence_body_snoc (body : list str) (w : str) :
  sentence_body body -> In w LOREM_WORDS -> sentence_body (body ++ [w]).
Proof.
  intros (w0 & ws & Hw0 & Hws & ->) Hw.
  exists w0, (ws ++ [w]); split; [assumption|]; split; [|reflexivity].
  apply Forall_app; split; [assumption | now constructor].
Qed.

Lemma sentence_body_first (w : str) :
  In w LOREM_WORDS -> sentence_body [capitalize w].
Proof.
  intros Hw; exists w, []; split; [assumption|]; split;
    [constructor | reflexivity].
Qed.

Lemma sentence_body_nonempty (body : list str) : sentence_body body -> body <> [].
Proof. intros (w & ws & _ & _ & ->); discriminate. Qed.

Lemma sentence_body_tokens (body : list str) :
  sentence_body body -> Forall pool_token body.
Proof.
  intros (w & ws & Hw & Hws & ->); constructor.
  - exists w; auto.
  - eapply Forall_impl; [|exact Hws]; intros x Hx; exists x; auto.
Qed.

Lemma sentence_tokens (s : list str) : sentence s -> Forall pool_token s.
Proof.
  intros (body & Hbody & ->).
  pose proof (sentence_body_nonempty _ Hbody) as Hne.
  destruct (exists_last Hne) as (b0 & x & E).
  destruct Hbody as (w & ws & Hw & Hws & Eb).
  rewrite E, end_sentence_snoc; apply Forall_app.
  assert (Hall : Forall pool_token (b0 ++ [x])).
  { rewrite <- E; apply sentence_body_tokens; exists w, ws; auto. }
  apply Forall_app in Hall as [H0 Hx]; split; [assumption|].
  constructor; [|constructor].
  destruct ws as [|y ws'] using rev_ind.
  - assert (b0 = [] /\ x = capitalize w) as [-> ->].
    { rewrite Eb in E; destruct b0 as [|z b0]; [now injection E|].
      destruct b0; discriminate E. }
    exists w; auto 6.
  - clear IHws'.
    rewrite Eb, app_comm_cons in E; apply app_inj_tail in E as [_ <-].
    apply Forall_app in Hws as [_ Hy]; inversion Hy; subst.
    exists y; auto.
Qed.

Lemma sentence_body_letters (body : list str) :
  sentence_body body -> Forall letters body.
Proof.
  intros (w & ws & Hw & Hws & ->); constructor.
  - now apply pool_capitalize_letters.
  - eapply Forall_impl; [|exact Hws]; intros x Hx; now apply pool_letters.
Qed.

Lemma state_tokens (target_chars : Z) (words : list str)
  (char_len sentence_len words_in_sentence : Z) :
  paragraph_state target_chars words char_len sentence_len words_in_sentence ->
  Forall pool_token words.
Proof.
  intros (done & current & -> & Hdone & Hcur & _).
  apply Forall_app; split.
  - clear -Hdone; induction Hdone as [|s done [Hs _] _ IH]; [constructor|].
    cbn [concat]; apply Forall_app; split; [now apply sentence_tokens | auto].
  - destruct Hcur as [[-> _] | [Hb _]];
      [constructor | now apply sentence_body_tokens].
Qed.

(** One more word: either the sentence goes on, or the word is its last
    and gets the period. *)
Lemma paragraph_state_word (target_chars : Z) (words : list str)
  (char_len sentence_len words_in_sentence : Z) (w : str) :
  paragraph_state target_chars words char_len sentence_len words_in_sentence ->
  char_len < target_chars -> In w LOREM_WORDS ->
  let words1 :=
    words ++ [if words_in_sentence =? 0 then capitalize w else w] in
  (words_in_sentence + 1 < sentence_len ->
   paragraph_state target_chars words1 (len (join [SPACE] words1))
     sentence_len (words_in_sentence + 1))
  /\ (sentence_len <= words_in_sentence + 1 ->
      forall sentence_len',
        6 <= sentence_len' <= 20 ->
        paragraph_state target_chars (end_sentence words1)
          (len (join [SPACE] words1)) sentence_len' 0).
Proof.
  intros (done & current & -> & Hdone & Hcur & Hwis & Hsl & HJ & Hcl) Hlt Hw.
  set (w' := if words_in_sentence =? 0 then capitalize w else w).
  cbv zeta.
  assert (Hw' : len w' <= 13).
  { subst w'; destruct (words_in_sentence =? 0);
      [unfold len; rewrite capitalize_length|]; now apply pool_word_max. }
  assert (Hbody : sentence_body (current ++ [w'])
                  /\ words_in_sentence + 1 = len (current ++ [w'])).
  { subst w'; destruct Hcur as [[-> ->] | [Hb ->]].
    - split; [now apply sentence_body_first | reflexivity].
    - pose proof (sentence_body_nonempty _ Hb) as Hne.
      assert (Hpos : 1 <= len current)
        by (destruct current; [congruence | rewrite len_cons;
            pose proof (len_nonneg current); lia]).
      destruct (Z.eqb_spec (len current) 0); [lia|].
      split; [now apply sentence_body_snoc | rewrite len_app; reflexivity]. }
  destruct Hbody as [Hbody Hcount].
  assert (Hjoin : len (join [SPACE] ((concat done ++ current) ++ [w']))
                  <= target_chars + 14).
  { rewrite len_join_snoc.
    assert (match concat done ++ current with
            | [] => 0 | _ :: _ => len [SPACE] end <= 1)
      by (destruct (concat done ++ current); unfold len; simpl; lia).
    destruct current, done; lia. }
  split.
  - intros Hmore; exists done, (current ++ [w']).
    rewrite <- app_assoc in Hjoin.
    rewrite <- app_assoc; repeat split; auto; try lia.
    destruct (current ++ [w']) eqn:E; [now destruct current | lia].
  - intros Hlast sentence_len' Hsl'.
    exists (done ++ [end_sentence (current ++ [w'])]), [].
    pose proof (sentence_body_nonempty _ Hbody) as Hne.
    repeat split; try lia.
    + rewrite <- app_assoc, end_sentence_app by assumption.
      rewrite concat_app; cbn [concat]; now rewrite !app_nil_r.
    + apply Forall_app; split; [assumption|].
      constructor; [|constructor]; split; [now exists (current ++ [w'])|].
      rewrite end_sentence_len by assumption; lia.
    + left; auto.
    + rewrite end_sentence_snoc, join_snoc_app, len_app.
      destruct (done ++ [end_sentence (current ++ [w'])]) eqn:E;
        [now destruct done | reflexivity].
Qed.

Lemma strip_join_tokens (words : list str) :
  words <> [] -> Forall pool_token words ->
  strip (join [SPACE] words) = join [SPACE] words.
Proof.
  intros Hne Hw.
  destruct (exists_last Hne) as (ws & t & ->).
  pose proof Hw as Hw'.
  apply Forall_app in Hw' as [Hws Htok]; inversion Htok as [|? ? Ht _]; subst.
  destruct (pool_token_last t Ht) as (t0 & d & -> & Hd).
  destruct (join_last [SPACE] t0 d ws) as (pre & Elast).
  assert (Hfirst : exists c rest, join [SPACE] (ws ++ [t0 ++ [d]]) = c :: rest
                                  /\ isspace c = false).
  { destruct ws as [|a ws'].
    - destruct (pool_token_head _ Ht) as (c & t' & E & Hc).
      cbn [app join]; rewrite E; eauto.
    - inversion Hws as [|? ? Ha _]; subst.
      destruct (pool_token_head _ Ha) as (c & a' & -> & Hc).
      destruct (join_head [SPACE] a' c (ws' ++ [t0 ++ [d]])) as (rest & E).
      exists c, rest; split; [exact E | exact Hc]. }
  destruct Hfirst as (c & rest & Ehead & Hc).
  exact (strip_outer _ rest pre c d Ehead Elast Hc Hd).
Qed.

Section Sentences.

Context {R : RandomSource}.

Lemma randint_range (a b : Z) (g : rng) :
  a <= b -> a <= fst (randint a b g) <= b.
Proof.
  intros Hab; unfold randint.
  pose proof (randbelow_range (b + 1 - a) g) as Hr.
  destruct (randbelow (b + 1 - a) g) as [r g']; cbn [fst] in *; lia.
Qed.

(** The loop of [gen_paragraph] keeps [paragraph_state] and leaves with
    [char_len] at the target or beyond. *)
Lemma gen_paragraph_loop_state (target_chars : Z) (fuel : nat) :
  forall (words : list str) (char_len sentence_len words_in_sentence : Z)
         (g : rng) (words' : list str) (g' : rng),
    paragraph_state target_chars words char_len sentence_len words_in_sentence ->
    gen_paragraph_loop fuel target_chars words char_len sentence_len
      words_in_sentence g = Val (words', g') ->
    exists char_len' sentence_len' words_in_sentence',
      paragraph_state target_chars words' char_len' sentence_len'
        words_in_sentence'
      /\ target_chars <= char_len'.
Proof.
  induction fuel as [|fuel IH];
    intros words char_len sentence_len wis g words' g' Hstate;
    cbn [gen_paragraph_loop].
  - destruct (Z.ltb_spec char_len target_chars); [discriminate|].
    intros E; injection E as <- _; eauto.
  - destruct (Z.ltb_spec char_len target_chars) as [Hlt | Hge];
      [|intros E; injection E as <- _; eauto].
    destruct (choice LOREM_WORDS g) as [w g1] eqn:Hc.
    apply choice_In in Hc.
    destruct (paragraph_state_word target_chars words char_len sentence_len
                wis w Hstate Hlt Hc) as [Hmore Hlast].
    cbv zeta in Hmore, Hlast.
    destruct (Z.leb_spec sentence_len (wis + 1)).
    + pose proof (randint_range 6 20 g1 ltac:(lia)) as Hr.
      destruct (randint 6 20 g1) as [sentence_len' g2]; cbn [fst] in Hr.
      apply IH, Hlast; assumption.
    + apply IH, Hmore; assumption.
Qed.

End Sentences.

Lemma alpha_not_period (d : ascii) : is_alpha d = true -> d <> PERIOD.
Proof. intros H ->; discriminate H. Qed.

Lemma sentence_len_pos (body : list str) : sentence_body body -> 1 <= len body.
Proof.
  intros (w & ws & _ & _ & ->); rewrite len_cons.
  pose proof (len_nonneg ws); lia.
Qed.

(** What [gen_paragraph] makes of the words the loop leaves: sentences,
    the last one closed by the final period if the loop left it open. *)
Lemma paragraph_of_state (target_chars : Z) (words : list str)
  (char_len sentence_len words_in_sentence : Z) :
  0 < target_chars ->
  paragraph_state target_chars words char_len sentence_len words_in_sentence ->
  target_chars <= char_len ->
  exists sentences,
    (if endswith (strip (join [SPACE] words)) PERIOD
     then strip (join [SPACE] words)
     else strip (join [SPACE] words) ++ [PERIOD])
    = join [SPACE] (concat sentences)
    /\ sentences <> []
    /\ Forall (fun s => sentence s /\ 1 <= len s <= 20) sentences
    /\ Forall (fun s => 6 <= len s) (removelast sentences)
    /\ len (join [SPACE] (concat sentences)) <= target_chars + 15.
Proof.
  intros Ht Hstate Hge.
  pose proof (state_tokens _ _ _ _ _ Hstate) as Htokens.
  destruct Hstate as (done & current & -> & Hdone & Hcur & Hwis & Hsl & HJ & Hcl).
  assert (Hne : concat done ++ current <> []).
  { intros E; rewrite E in HJ; cbn [join] in HJ.
    change (len (@nil ascii)) with 0 in HJ.
    destruct current, done; lia. }
  rewrite (strip_join_tokens _ Hne Htokens).
  assert (Hfull : Forall (fun s => sentence s /\ 1 <= len s <= 20) done).
  { eapply Forall_impl; [|exact Hdone]; cbn beta; intros s [Hs Hl]; split;
      [assumption | lia]. }
  assert (Hsix : Forall (fun s : list str => 6 <= len s) done).
  { eapply Forall_impl; [|exact Hdone]; cbn beta; intros s [_ Hl]; lia. }
  destruct Hcur as [[-> ->] | [Hbody ->]].
  - (* the last sentence is closed *)
    rewrite app_nil_r in *.
    destruct (exists_last (l := done)) as (done0 & s & ->).
    { intros ->; now cbn [concat] in Hne. }
    exists (done0 ++ [s]).
    assert (Hend : endswith (join [SPACE] (concat (done0 ++ [s]))) PERIOD = true).
    { apply Forall_app in Hdone as [_ Hs]; inversion Hs as [|? ? [Hsent _] _].
      destruct Hsent as (body & Hb & ->).
      destruct (exists_last (sentence_body_nonempty _ Hb)) as (b0 & w & ->).
      rewrite concat_app; cbn [concat]; rewrite app_nil_r, end_sentence_snoc.
      rewrite app_assoc.
      destruct (join_last [SPACE] w PERIOD (concat done0 ++ b0)) as (pre & ->).
      apply endswith_snoc. }
    rewrite Hend; repeat split; try assumption.
    + now destruct done0.
    + rewrite removelast_last; now apply Forall_app in Hsix as [H0 _].
    + rewrite HJ; destruct (done0 ++ [s]); lia.
  - (* the last sentence is open: the final period closes it *)
    pose proof (sentence_body_nonempty _ Hbody) as Hcurrent.
    destruct (exists_last Hcurrent) as (c0 & x & Ec).
    assert (Hx : letters x).
    { apply sentence_body_letters in Hbody; rewrite Ec in Hbody.
      apply Forall_app in Hbody as [_ Hx]; now inversion Hx. }
    destruct (letters_last x Hx) as (x0 & d & Ex & Hd).
    assert (Hend : endswith (join [SPACE] (concat done ++ current)) PERIOD = false).
    { rewrite Ec, Ex, app_assoc.
      destruct (join_last [SPACE] x0 d (concat done ++ c0)) as (pre & ->).
      rewrite endswith_snoc.
      destruct (Ascii.eqb_spec d PERIOD) as [-> | _]; [discriminate Hd | reflexivity]. }
    rewrite Hend.
    exists (done ++ [end_sentence current]).
    assert (Econcat : concat (done ++ [end_sentence current])
                      = concat done ++ end_sentence current).
    { rewrite concat_app; cbn [concat]; now rewrite app_nil_r. }
    assert (Ejoin : join [SPACE] (concat done ++ current) ++ [PERIOD]
                    = join [SPACE] (concat (done ++ [end_sentence current]))).
    { rewrite Econcat, Ec, end_sentence_snoc, !app_assoc.
      symmetry; apply join_snoc_app. }
    repeat split.
    + exact Ejoin.
    + now destruct done.
    + apply Forall_app; split; [assumption|].
      constructor; [|constructor]; split; [now exists current|].
      rewrite end_sentence_len by assumption.
      pose proof (sentence_len_pos _ Hbody); lia.
    + now rewrite removelast_last.
    + rewrite <- Ejoin, len_app, HJ.
      change (len [PERIOD]) with 1.
      destruct current; [congruence | lia].
Qed.

Section Paragraphs.

Context {R : RandomSource}.

(** What [gen_paragraph] returns for a positive budget. *)
Lemma gen_paragraph_sentences (target_chars : Z) (g : rng) :
  0 < target_chars ->
  exists paragraph g' sentences,
    gen_paragraph target_chars g = Val (paragraph, g')
    /\ paragraph = join [SPACE] (concat sentences)
    /\ sentences <> []
    /\ Forall (fun s => sentence s /\ 1 <= len s <= 20) sentences
    /\ Forall (fun s => 6 <= len s) (removelast sentences)
    /\ len paragraph <= target_chars + 15.
Proof.
  intros Ht; unfold gen_paragraph.
  destruct (Z.leb_spec target_chars 0); [lia|].
  pose proof (randint_range 8 16 g ltac:(lia)) as Hr.
  destruct (randint 8 16 g) as [sentence_len g0]; cbn [fst] in Hr.
  destruct (gen_paragraph_loop_spec target_chars (Z.to_nat target_chars)
              [] 0 sentence_len 0 g0 (Forall_nil _))
    as (words & g' & E & _);
    [cbn [join]; unfold len; simpl; lia | lia |].
  rewrite E; cbn [bind]; cbv zeta.
  assert (Hinit : paragraph_state target_chars [] 0 sentence_len 0).
  { exists [], []; repeat split; auto; try lia; constructor. }
  destruct (gen_paragraph_loop_state target_chars _ _ _ _ _ _ _ _ Hinit E)
    as (char_len' & sentence_len' & wis' & Hstate & Hge).
  destruct (paragraph_of_state target_chars words char_len' sentence_len' wis'
              Ht Hstate Hge) as (sentences & Ep & Hne & Hall & Hsix & Hlen).
  eexists _, g', sentences; split; [reflexivity|].
  rewrite Ep; repeat split; assumption.
Qed.

(** X6: for [target_chars > 0] the paragraph that [gen_paragraph] returns
    is a sequence of sentences joined by single spaces; a sentence is a
    capitalized word of the pool followed by words of the pool as they
    are, with a period after the last word; no sentence has more than 20
    words and every sentence but the last has at least 6. *)
Theorem gen_paragraph_is_sentences (target_chars : Z) (g : rng) :
  0 < target_chars ->
  exists paragraph g' sentences,
    gen_paragraph target_chars g = Val (paragraph, g')
    /\ paragraph = join [SPACE] (concat sentences)
    /\ sentences <> []
    /\ Forall (fun s => sentence s /\ 1 <= len s <= 20) sentences
    /\ Forall (fun s => 6 <= len s) (removelast sentences).
Proof.
  intros Ht.
  destruct (gen_paragraph_sentences target_chars g Ht)
    as (p & g' & sentences & E & Ep & Hne & Hall & Hsix & _).
  exists p, g', sentences; auto.
Qed.

(** X7: for [target_chars > 0] the paragraph that [gen_paragraph] returns
    exceeds its budget by 15 characters at most: the last word, of 13
    letters at most, the space before it and the final period. *)
Theorem gen_paragraph_overshoot (target_chars : Z) (g : rng) :
  0 < target_chars ->
  exists paragraph g',
    gen_paragraph target_chars g = Val (paragraph, g')
    /\ target_chars <= len paragraph <= target_chars + 15.
Proof.
  intros Ht.
  destruct (gen_paragraph_sentences target_chars g Ht)
    as (p & g' & sentences & E & _ & _ & _ & _ & Hle).
  destruct (gen_paragraph_returns target_chars g Ht)
    as (p' & g'' & E' & Hge & _).
  rewrite E in E'; injection E' as <- _.
  exists p, g'; auto.
Qed.

End Paragraphs.

Lemma gen_paragraph_is_sentences_witness :
  exists paragraph g' sentences,
    gen_paragraph 120 (seeded 7) = Val (paragraph, g')
    /\ paragraph = join [SPACE] (concat sentences)
    /\ sentences <> []
    /\ Forall (fun s => sentence s /\ 1 <= len s <= 20) sentences
    /\ Forall (fun s => 6 <= len s) (removelast sentences).
Proof. apply (gen_paragraph_is_sentences (R := Lcg) 120 (seeded 7)); lia. Defined.

Lemma gen_paragraph_overshoot_witness :
  exists paragraph g',
    gen_paragraph 120 (seeded 7) = Val (paragraph, g')
    /\ 120 <= len paragraph <= 120 + 15.
Proof. apply (gen_paragraph_overshoot (R := Lcg) 120 (seeded 7)); lia. Defined.

(** *** The words of a title *)

Lemma rstrip_snoc_space (s : str) (c : ascii) :
  isspace c = true -> rstrip (s ++ [c]) = rstrip s.
Proof.
  intros Hc; unfold rstrip; rewrite rev_app_distr; cbn [rev app lstrip].
  now rewrite Hc.
Qed.

Lemma strip_rstrip_id (s rest pre : str) (c d : ascii) :
  s = c :: rest -> s = pre ++ [d] ->
  isspace c = false -> isspace d = false -> strip (rstrip s) = s.
Proof.
  intros Ehead Elast Hc Hd.
  assert (E : rstrip s = s) by (rewrite Elast; now apply rstrip_snoc).
  rewrite E; exact (strip_outer s rest pre c d Ehead Elast Hc Hd).
Qed.

Lemma join_letters_head (w : str) (ws : list str) :
  letters w ->
  exists c rest, join [SPACE] (w :: ws) = c :: rest /\ isspace c = false.
Proof.
  intros Hw; destruct (letters_head w Hw) as (c & w' & -> & Hc).
  destruct (join_head [SPACE] w' c ws) as (rest & E); eauto.
Qed.

Lemma join_letters_last (ws : list str) :
  ws <> [] -> Forall letters ws ->
  exists pre d, join [SPACE] ws = pre ++ [d] /\ isspace d = false.
Proof.
  intros Hne Hws; destruct (exists_last Hne) as (ws0 & w & ->).
  apply Forall_app in Hws as [_ Hw]; inversion Hw as [|? ? Hl _]; subst.
  destruct (letters_last w Hl) as (w0 & d & -> & Hd).
  destruct (join_last [SPACE] w0 d ws0) as (pre & E).
  exists pre, d; split; [exact E | now apply alpha_not_space].
Qed.

(** The title that [gen_title] makes of the words its loop leaves. *)
Lemma title_of_words (char_count : Z) (body : list str) :
  0 < char_count ->
  sentence_body body ->
  len (join [SPACE] (removelast body)) < char_count ->
  char_count <= len (join [SPACE] body) ->
  exists rest,
    join [SPACE] body
    = strip (rstrip (slice_to (join [SPACE] body) char_count)) ++ rest
    /\ strip (rstrip (slice_to (join [SPACE] body) char_count)) <> []
    /\ char_count - 1
       <= len (strip (rstrip (slice_to (join [SPACE] body) char_count)))
       <= char_count
    /\ (len (strip (rstrip (slice_to (join [SPACE] body) char_count)))
        = char_count - 1 -> exists rest', rest = SPACE :: rest').
Proof.
  intros Hc Hbody Hprev Hfull.
  pose proof (sentence_body_letters _ Hbody) as Hletters.
  pose proof (slice_app (join [SPACE] body) char_count) as Esplit.
  pose proof (slice_to_len (join [SPACE] body) char_count ltac:(lia)) as Hslice.
  set (J := join [SPACE] body) in *.
  set (head := slice_to J char_count) in *.
  set (tail := slice_from J char_count) in *.
  clearbody head tail.
  assert (Hhead : exists c r, head = c :: r /\ isspace c = false).
  { destruct body as [|w ws]; [now apply sentence_body_nonempty in Hbody|].
    destruct (join_letters_head w ws (Forall_inv Hletters))
      as (c & r & E & Hcs).
    fold J in E; rewrite <- Esplit in E.
    destruct head as [|c' r']; [change (len (@nil ascii)) with 0 in Hslice; lia|].
    injection E as -> _; eauto. }
  destruct Hhead as (c & r & Ehead & Hcs).
  destruct (exists_last (sentence_body_nonempty _ Hbody)) as (prev & last & Eb).
  rewrite Eb, removelast_last in Hprev.
  assert (Hlast : letters last /\ Forall letters prev).
  { rewrite Eb in Hletters; apply Forall_app in Hletters as [Hp Hl].
    now inversion Hl. }
  destruct Hlast as [Hlast Hprevl].
  assert (Hcut : forall piece more,
            head = piece ++ more -> more <> [] -> incl more last ->
            exists rest,
              J = strip (rstrip head) ++ rest
              /\ strip (rstrip head) <> []
              /\ char_count - 1 <= len (strip (rstrip head)) <= char_count
              /\ (len (strip (rstrip head)) = char_count - 1 ->
                  exists rest', rest = SPACE :: rest')).
  { intros piece more E Hmore Hincl.
    destruct (exists_last Hmore) as (more0 & d & Em).
    assert (Hd : isspace d = false).
    { apply alpha_not_space.
      destruct Hlast as [_ Hl]; rewrite Forall_forall in Hl; apply Hl, Hincl.
      rewrite Em; apply in_or_app; right; now left. }
    assert (Eid : strip (rstrip head) = head).
    { apply (strip_rstrip_id head r (piece ++ more0) c d Ehead); trivial.
      now rewrite E, Em, app_assoc. }
    rewrite Eid; exists tail; repeat split; auto; try lia.
    rewrite Ehead; discriminate. }
  destruct prev as [|p prev'].
  - (* one word, cut or whole *)
    apply (Hcut [] head); [reflexivity | rewrite Ehead; discriminate|].
    intros x Hx; unfold J in Esplit; rewrite Eb in Esplit; cbn [app join] in Esplit.
    rewrite <- Esplit; apply in_or_app; now left.
  - (* several words: the cut falls after the words before the last *)
    set (before := join [SPACE] (p :: prev')) in *.
    assert (EJ : J = before ++ SPACE :: last).
    { unfold J; rewrite Eb, join_snoc; reflexivity. }
    rewrite <- Esplit in EJ.
    apply app_eq_app in EJ as (l & [[E1 E2] | [E1 E2]]).
    + destruct l as [|s l'].
      * exfalso; rewrite app_nil_r in E1; rewrite E1 in Hslice; lia.
      * injection E2 as <- E2.
        destruct l' as [|x l''].
        -- (* the cut ends with the space after the words before the last *)
           destruct (join_letters_last (p :: prev') ltac:(discriminate) Hprevl)
             as (pre & d & Elast & Hd).
           fold before in Elast.
           assert (Eid : strip (rstrip head) = before).
           { rewrite E1, rstrip_snoc_space by reflexivity.
             destruct (join_letters_head p prev') as (c' & r' & Eh & Hc').
             { now inversion Hprevl. }
             fold before in Eh.
             exact (strip_rstrip_id before r' pre c' d Eh Elast Hc' Hd). }
           rewrite Eid; exists (SPACE :: tail).
           assert (Hlen : len before = char_count - 1).
           { rewrite E1, len_app in Hslice; change (len [SPACE]) with 1 in Hslice.
             lia. }
           repeat split; try lia.
           ++ rewrite <- Esplit, E1, <- app_assoc; reflexivity.
           ++ rewrite Elast; now destruct pre.
           ++ eauto.
        -- apply (Hcut (before ++ [SPACE]) (x :: l'')).
           ++ now rewrite E1, <- app_assoc.
           ++ discriminate.
           ++ intros y Hy; rewrite E2; apply in_or_app; now left.
    + (* the words before the last are not all in the cut: excluded *)
      exfalso; apply (f_equal (@len ascii)) in E1; rewrite len_app in E1.
      pose proof (len_nonneg l); lia.
Qed.

Section Titles.

Context {R : RandomSource}.

(** The words that the loop of [gen_title] leaves: a capitalized word of
    the pool, then words of the pool, the last of which was needed to
    reach [char_count]. *)
Lemma gen_title_loop_state (char_count : Z) (fuel : nat) :
  forall words g words' g',
    0 < char_count ->
    words = []
    \/ (sentence_body words
        /\ len (join [SPACE] (removelast words)) < char_count) ->
    gen_title_loop fuel char_count words g = Val (words', g') ->
    sentence_body words'
    /\ len (join [SPACE] (removelast words')) < char_count
    /\ char_count <= len (join [SPACE] words').
Proof.
  induction fuel as [|fuel IH]; intros words g words' g' Hc Hstate;
    cbn [gen_title_loop];
    destruct (Z.ltb_spec (len (join [SPACE] words)) char_count) as [Hlt|Hge];
    try discriminate.
  - intros E; injection E as <- <-.
    destruct Hstate as [-> | [Hb Hp]]; [|auto].
    cbn [join] in Hge; change (len (@nil ascii)) with 0 in Hge; lia.
  - destruct (choice LOREM_WORDS g) as [w g1] eqn:Hw.
    apply choice_In in Hw.
    apply IH; [assumption|]; right.
    rewrite removelast_last; split; [|assumption].
    destruct Hstate as [-> | [Hb _]].
    + now apply sentence_body_first.
    + pose proof (sentence_body_nonempty _ Hb).
      destruct words; [congruence | now apply sentence_body_snoc].
  - intros E; injection E as <- <-.
    destruct Hstate as [-> | [Hb Hp]]; [|auto].
    cbn [join] in Hge; change (len (@nil ascii)) with 0 in Hge; lia.
Qed.

(** X8: for [char_count > 0] the title that [gen_title] returns is the
    start of a capitalized word of the pool followed by words of the pool
    as they are, joined by single spaces.  It is not empty, and it has
    [char_count] characters, or one less when the cut falls right after
    the space that follows a word. *)
Theorem gen_title_is_prefix (char_count : Z) (g : rng) :
  0 < char_count ->
  exists title g' body rest,
    gen_title char_count g = Val (title, g')
    /\ sentence_body body
    /\ join [SPACE] body = title ++ rest
    /\ title <> []
    /\ char_count - 1 <= len title <= char_count
    /\ (len title = char_count - 1 -> exists rest', rest = SPACE :: rest').
Proof.
  intros Hc; unfold gen_title.
  destruct (Z.leb_spec char_count 0); [lia|].
  destruct (gen_title_loop_spec char_count (Z.to_nat char_count) [] g
              (Forall_nil _))
    as (words & g' & E & _); [cbn [join]; unfold len; simpl; lia|].
  rewrite E; cbn [bind].
  destruct (gen_title_loop_state char_count _ _ _ _ _ Hc (or_introl eq_refl) E)
    as (Hbody & Hprev & Hfull).
  destruct (title_of_words char_count words Hc Hbody Hprev Hfull)
    as (rest & EJ & Hne & Hlen & Hshort).
  eexists _, g', words, rest; split; [reflexivity|].
  repeat split; try assumption; lia.
Qed.

End Titles.

Lemma gen_title_is_prefix_witness :
  exists title g' body rest,
    gen_title 10 (seeded 7) = Val (title, g')
    /\ sentence_body body
    /\ join [SPACE] body = title ++ rest
    /\ title <> []
    /\ 10 - 1 <= len title <= 10
    /\ (len title = 10 - 1 -> exists rest', rest = SPACE :: rest').
Proof. apply (gen_title_is_prefix (R := Lcg) 10 (seeded 7)); lia. Defined.

(** ** Wrapping by words *)

(** *** The chunks of words joined by single spaces *)

Lemma spaced_cons (t : str) (ts : list str) :
  spaced (t :: ts) = [SPACE] :: t :: spaced ts.
Proof. reflexivity. Qed.

Lemma spaced_app (ts us : list str) : spaced (ts ++ us) = spaced ts ++ spaced us.
Proof. apply flat_map_app. Qed.

Lemma concat_spaced_cons (t : str) (ts : list str) :
  concat (spaced (t :: ts)) = SPACE :: t ++ concat (spaced ts).
Proof. reflexivity. Qed.

Lemma join_spaced (t : str) (ts : list str) :
  join [SPACE] (t :: ts) = t ++ concat (spaced ts).
Proof.
  revert t; induction ts as [|u ts IH]; intros t.
  - cbn [join spaced flat_map concat]; now rewrite app_nil_r.
  - now rewrite join_cons2, IH, concat_spaced_cons.
Qed.

Lemma concat_spaced_head (ts : list str) :
  match concat (spaced ts) with [] => True | c :: _ => c = SPACE end.
Proof. destruct ts; [exact I | reflexivity]. Qed.

Lemma expandtabs_from_plain (tabsize : Z) (text : str) :
  forall line_pos,
    Forall (fun c => isspace c = false \/ c = SPACE) text ->
    textwrap.expandtabs_from tabsize line_pos text = text.
Proof.
  induction text as [|c text IH]; intros line_pos Ht; [reflexivity|].
  inversion Ht as [|? ? Hc Ht']; subst.
  cbn [textwrap.expandtabs_from].
  assert (E : Ascii.eqb c TAB = false).
  { destruct Hc as [Hc | ->]; [|reflexivity].
    apply Ascii.eqb_neq; now apply isspace_false_facts. }
  rewrite E; f_equal; now apply IH.
Qed.

Lemma munge_whitespace_plain (text : str) :
  Forall (fun c => isspace c = false \/ c = SPACE) text ->
  textwrap.munge_whitespace text = text.
Proof.
  intros Ht; unfold textwrap.munge_whitespace, textwrap.expandtabs.
  rewrite expandtabs_from_plain by assumption.
  unfold textwrap.translate_whitespace.
  induction Ht as [|c text Hc _ IH]; [reflexivity|].
  cbn [map]; rewrite IH; f_equal.
  destruct Hc as [Hc | ->]; [|reflexivity].
  now rewrite (proj1 (isspace_false_facts c Hc)).
Qed.

Lemma plain_word_chars (tokens : list str) :
  Forall plain_word tokens ->
  Forall (fun c => isspace c = false \/ c = SPACE) (join [SPACE] tokens).
Proof.
  intros H; apply join_Forall.
  - constructor; [now right | constructor].
  - eapply Forall_impl; [|exact H].
    intros t [_ Ht]; eapply Forall_impl; [|exact Ht].
    cbn beta; intros c [Hc _]; now left.
Qed.

Lemma dashes_then_word_plain (c : ascii) (s : str) :
  c <> HYPHEN -> textwrap.dashes_then_word (c :: s) = false.
Proof.
  intros Hc; unfold textwrap.dashes_then_word; cbn [textwrap.span].
  unfold textwrap.is_hyphen at 1.
  now rewrite (proj2 (Ascii.eqb_neq c HYPHEN) Hc).
Qed.

Lemma word_rest_plain (w : str) :
  forall before rest,
    Forall (fun c => isspace c = false /\ c <> HYPHEN) w ->
    match rest with [] => True | c :: _ => c = SPACE end ->
    textwrap.word_rest before (w ++ rest) = length w.
Proof.
  induction w as [|c w IH]; intros before rest Hw Hrest.
  - destruct rest as [|c r]; [reflexivity | subst c; reflexivity].
  - inversion Hw as [|? ? [Hs Hh] Hw']; subst.
    cbn [app textwrap.word_rest length].
    assert (E : textwrap.is_hyphen c = false)
      by (unfold textwrap.is_hyphen; now apply Ascii.eqb_neq).
    rewrite E, (proj1 (isspace_false_facts c Hs)).
    rewrite (dashes_then_word_plain c (w ++ rest) Hh), andb_false_r.
    cbn [andb]; f_equal; now apply IH.
Qed.

Lemma match_length_plain (c : ascii) (w before rest : str) :
  Forall (fun c => isspace c = false /\ c <> HYPHEN) (c :: w) ->
  match rest with [] => True | c :: _ => c = SPACE end ->
  textwrap.match_length before ((c :: w) ++ rest) = length (c :: w).
Proof.
  intros Hw Hrest; inversion Hw as [|? ? [Hs Hh] Hw']; subst.
  cbn [app textwrap.match_length length].
  rewrite (proj1 (isspace_false_facts c Hs)).
  rewrite (dashes_then_word_plain c (w ++ rest) Hh), andb_false_r.
  f_equal; now apply word_rest_plain.
Qed.

Lemma match_length_space (c : ascii) (before rest : str) :
  isspace c = false ->
  textwrap.match_length before (SPACE :: c :: rest) = 1%nat.
Proof.
  intros Hs; cbn [textwrap.match_length].
  change (textwrap.is_whitespace SPACE) with true; cbn iota.
  cbn [textwrap.span].
  change (textwrap.is_whitespace SPACE) with true; cbn iota.
  now rewrite (proj1 (isspace_false_facts c Hs)).
Qed.

Lemma firstn_length_app {A} (l1 l2 : list A) : firstn (length l1) (l1 ++ l2) = l1.
Proof. induction l1; cbn [length firstn app]; [now destruct l2 | now f_equal]. Qed.

Lemma skipn_length_app {A} (l1 l2 : list A) : skipn (length l1) (l1 ++ l2) = l2.
Proof. induction l1; cbn [length skipn app]; auto. Qed.

Lemma split_loop_step (fuel : nat) (before : str) (c : ascii) (after : str) :
  textwrap.split_loop (S fuel) before (c :: after)
  = firstn (textwrap.match_length before (c :: after)) (c :: after)
    :: textwrap.split_loop fuel
         (rev (firstn (textwrap.match_length before (c :: after)) (c :: after))
          ++ before)
         (skipn (textwrap.match_length before (c :: after)) (c :: after)).
Proof. reflexivity. Qed.

(** A word and what follows it. *)
Lemma split_loop_word (fuel : nat) (before t rest : str) :
  plain_word t ->
  match rest with [] => True | c :: _ => c = SPACE end ->
  textwrap.split_loop (S fuel) before (t ++ rest)
  = t :: textwrap.split_loop fuel (rev t ++ before) rest.
Proof.
  intros [Hne Ht] Hrest; destruct t as [|c w]; [congruence|].
  change ((c :: w) ++ rest) with (c :: w ++ rest).
  rewrite split_loop_step.
  change (c :: w ++ rest) with ((c :: w) ++ rest).
  rewrite (match_length_plain c w before rest Ht Hrest).
  now rewrite firstn_length_app, skipn_length_app.
Qed.

Lemma split_loop_spaced (tokens : list str) :
  forall fuel before,
    Forall plain_word tokens ->
    (length (concat (spaced tokens)) <= fuel)%nat ->
    textwrap.split_loop fuel before (concat (spaced tokens)) = spaced tokens.
Proof.
  induction tokens as [|t ts IH]; intros fuel before Hts Hfuel.
  - destruct fuel; reflexivity.
  - inversion Hts as [|? ? Ht Hts']; subst.
    rewrite concat_spaced_cons in *; cbn [length] in Hfuel.
    rewrite length_app in Hfuel.
    pose proof Ht as [Hne Hchars].
    destruct t as [|c w]; [congruence|].
    destruct fuel as [|[|fuel]]; cbn [length] in Hfuel; try lia.
    rewrite split_loop_step.
    change (SPACE :: (c :: w) ++ concat (spaced ts))
      with (SPACE :: c :: w ++ concat (spaced ts)).
    rewrite match_length_space by (inversion Hchars as [|? ? [Hs _] _]; exact Hs).
    cbn [firstn skipn rev app].
    change (c :: w ++ concat (spaced ts)) with ((c :: w) ++ concat (spaced ts)).
    rewrite (split_loop_word fuel _ (c :: w) _ Ht (concat_spaced_head ts)).
    rewrite spaced_cons; do 2 f_equal.
    apply IH; [assumption | lia].
Qed.

(** The chunks of words joined by single spaces are the words and the
    spaces. *)
Lemma split_chunks_words (t : str) (ts : list str) :
  Forall plain_word (t :: ts) ->
  textwrap.split_chunks (join [SPACE] (t :: ts)) = t :: spaced ts.
Proof.
  intros Hts; unfold textwrap.split_chunks.
  rewrite (munge_whitespace_plain _ (plain_word_chars _ Hts)).
  inversion Hts as [|? ? Ht Hts']; subst.
  unfold textwrap.split; rewrite join_spaced, length_app.
  pose proof Ht as [Hne _].
  destruct (length t) as [|n] eqn:En; [now destruct t|].
  cbn [Nat.add].
  rewrite (split_loop_word _ [] t _ Ht (concat_spaced_head ts)).
  f_equal; apply split_loop_spaced; [assumption | lia].
Qed.

(** *** The lines of words joined by single spaces *)

Lemma len_concat_spaced_cons (t : str) (ts : list str) :
  len (concat (spaced (t :: ts))) = 1 + len t + len (concat (spaced ts)).
Proof.
  rewrite concat_spaced_cons, len_cons, len_app; lia.
Qed.

Lemma len_join_spaced (t : str) (ts : list str) :
  len (join [SPACE] (t :: ts)) = len t + len (concat (spaced ts)).
Proof. now rewrite join_spaced, len_app. Qed.

Lemma plain_word_len (t : str) : plain_word t -> 1 <= len t.
Proof.
  intros [Hne _]; destruct t; [congruence|].
  rewrite len_cons; pose proof (len_nonneg t); lia.
Qed.

Lemma plain_word_not_blank (t : str) : plain_word t -> textwrap.is_blank t = false.
Proof.
  intros [Hne Ht]; rewrite is_blank_forallb.
  destruct t as [|c t]; [congruence|].
  inversion Ht as [|? ? [Hs _] _]; subst; cbn [forallb]; now rewrite Hs.
Qed.

(** The inner loop of [_wrap_chunks] on words and spaces: it stops before
    a space or before a word. *)
Lemma fit_chunks_spaced (width : Z) (tokens : list str) :
  forall (cur_line : list str) (cur_len : Z),
    cur_len <= width ->
    exists taken rest line' len',
      tokens = taken ++ rest
      /\ line' = cur_line ++ spaced taken
      /\ len' = cur_len + len (concat (spaced taken))
      /\ len' <= width
      /\ ((textwrap.fit_chunks width cur_line cur_len (spaced tokens)
           = (line', len', spaced rest)
           /\ (rest <> [] -> width < len' + 1))
          \/ exists t rest',
               rest = t :: rest'
               /\ textwrap.fit_chunks width cur_line cur_len (spaced tokens)
                  = (line' ++ [[SPACE]], len' + 1, t :: spaced rest')
               /\ width < len' + 1 + len t).
Proof.
  induction tokens as [|t ts IH]; intros cur_line cur_len Hlen.
  - exists [], [], cur_line, cur_len; repeat split; auto.
    + now rewrite app_nil_r.
    + cbn [spaced flat_map concat]; change (len (@nil ascii)) with 0; lia.
    + left; split; [reflexivity | congruence].
  - rewrite spaced_cons; cbn [textwrap.fit_chunks]; cbv zeta.
    change (len [SPACE]) with 1.
    destruct (Z.leb_spec (cur_len + 1) width) as [Hs | Hs].
    + destruct (Z.leb_spec (cur_len + 1 + len t) width) as [Ht | Ht].
      * destruct (IH ((cur_line ++ [[SPACE]]) ++ [t]) (cur_len + 1 + len t) Ht)
          as (taken & rest & line' & len' & -> & -> & -> & Hle & Hfit).
        exists (t :: taken), rest, (cur_line ++ spaced (t :: taken)),
          (cur_len + len (concat (spaced (t :: taken)))).
        assert (El : ((cur_line ++ [[SPACE]]) ++ [t]) ++ spaced taken
                     = cur_line ++ spaced (t :: taken))
          by (rewrite spaced_cons, <- !app_assoc; reflexivity).
        assert (En : cur_len + 1 + len t + len (concat (spaced taken))
                     = cur_len + len (concat (spaced (t :: taken))))
          by (rewrite len_concat_spaced_cons; lia).
        rewrite El, En in Hfit; rewrite En in Hle.
        repeat split; auto.
      * exists [], (t :: ts), cur_line, cur_len; repeat split; auto.
        -- now rewrite app_nil_r.
        -- cbn [spaced flat_map concat]; change (len (@nil ascii)) with 0; lia.
        -- right; exists t, ts; repeat split; auto.
    + exists [], (t :: ts), cur_line, cur_len; repeat split; auto.
      * now rewrite app_nil_r.
      * cbn [spaced flat_map concat]; change (len (@nil ascii)) with 0; lia.
Qed.

Lemma spaced_last (t : str) (taken : list str) :
  plain_word t -> Forall plain_word taken ->
  exists l x, t :: spaced taken = l ++ [x] /\ plain_word x.
Proof.
  intros Ht Htaken.
  destruct taken as [|u us]; [exists [], t; auto|].
  destruct (exists_last (l := u :: us)) as (l & x & E); [discriminate|].
  rewrite E in *; apply Forall_app in Htaken as [_ Hx].
  exists (t :: spaced l ++ [[SPACE]]), x; split; [|now inversion Hx].
  rewrite spaced_app; cbn [spaced flat_map app].
  now rewrite <- !app_assoc.
Qed.

Lemma drop_blank_end_word (l : list str) (x : str) :
  plain_word x -> textwrap.drop_blank_end (l ++ [x]) = l ++ [x].
Proof.
  intros Hx; unfold textwrap.drop_blank_end.
  rewrite rev_app_distr; cbn [rev app].
  now rewrite (plain_word_not_blank x Hx).
Qed.

Lemma drop_blank_end_space (l : list str) :
  textwrap.drop_blank_end (l ++ [[SPACE]]) = l.
Proof.
  unfold textwrap.drop_blank_end.
  rewrite rev_app_distr; cbn [rev app].
  change (textwrap.is_blank [SPACE]) with true; cbn iota.
  apply removelast_last.
Qed.

(** One pass of the outer loop of [_wrap_chunks] on words and spaces: a
    line of whole words, as many as fit. *)
Lemma wrap_line_words (width : Z) (t : str) (ts lines : list str)
  (lead : bool) :
  plain_word t -> Forall plain_word ts ->
  len t <= width -> Forall (fun x => len x <= width) ts ->
  (lead = true -> lines <> []) ->
  exists (taken rest : list str) (lead' : bool),
    ts = taken ++ rest
    /\ textwrap.wrap_line width
         ((if lead then [[SPACE]] else []) ++ t :: spaced ts) lines
       = (match rest with
          | [] => []
          | t' :: rest' =>
              (if lead' then [[SPACE]] else []) ++ t' :: spaced rest'
          end,
          lines ++ [join [SPACE] (t :: taken)])
    /\ len (join [SPACE] (t :: taken)) <= width
    /\ match rest with
       | [] => True
       | t' :: _ => width < len (join [SPACE] (t :: taken)) + 1 + len t'
       end.
Proof.
  intros Ht Hts Hlen Hlens Hlead.
  pose proof (plain_word_len t Ht) as Hpos.
  unfold textwrap.wrap_line.
  assert (E1 : textwrap.drop_blank_start
                 ((if lead then [[SPACE]] else []) ++ t :: spaced ts) lines
               = t :: spaced ts).
  { destruct lead; cbn [app textwrap.drop_blank_start].
    - destruct lines; [now specialize (Hlead eq_refl) | reflexivity].
    - destruct lines; [reflexivity|].
      now rewrite (plain_word_not_blank t Ht). }
  rewrite E1; cbn [textwrap.fit_chunks]; cbv zeta.
  rewrite Z.add_0_l.
  destruct (Z.leb_spec (len t) width) as [_|]; [|lia].
  cbn [app].
  destruct (fit_chunks_spaced width ts [t] (len t) Hlen)
    as (taken & rest & line' & len' & Ets & -> & -> & Hle & Hfit).
  assert (Htaken : Forall plain_word taken)
    by (rewrite Ets in Hts; now apply Forall_app in Hts).
  assert (Ejoin : concat ([t] ++ spaced taken) = join [SPACE] (t :: taken))
    by (rewrite join_spaced; reflexivity).
  rewrite <- len_join_spaced in *.
  destruct Hfit as [[-> Hfull] | (t' & rest' & -> & -> & Hfull)].
  - exists taken, rest, true; split; [assumption|].
    assert (E2 : match spaced rest with
                 | chunk :: _ =>
                     if width <? len chunk
                     then textwrap.handle_long_word (spaced rest)
                            ([t] ++ spaced taken)
                            (len (join [SPACE] (t :: taken))) width
                     else (spaced rest, [t] ++ spaced taken)
                 | [] => (spaced rest, [t] ++ spaced taken)
                 end = (spaced rest, [t] ++ spaced taken)).
    { destruct rest as [|r rest']; [reflexivity|].
      rewrite spaced_cons; change (len [SPACE]) with 1.
      destruct (Z.ltb_spec width 1); [lia | reflexivity]. }
    rewrite E2.
    destruct (spaced_last t taken Ht Htaken) as (l & x & El & Hx).
    cbn [app] in *; rewrite El, (drop_blank_end_word l x Hx), <- El.
    cbn [textwrap.append_line]; rewrite Ejoin.
    split; [|split; [assumption|]].
    + destruct rest; reflexivity.
    + destruct rest as [|r rest']; [exact I|].
      specialize (Hfull ltac:(discriminate)).
      rewrite Ets in Hts; apply Forall_app in Hts as [_ Hr].
      inversion Hr as [|? ? Hr' _]; subst.
      pose proof (plain_word_len r Hr'); lia.
  - exists taken, (t' :: rest'), false; split; [assumption|].
    assert (Ht' : len t' <= width).
    { rewrite Ets in Hlens; apply Forall_app in Hlens as [_ Hr].
      now inversion Hr. }
    destruct (Z.ltb_spec width (len t')); [lia|].
    rewrite drop_blank_end_space.
    cbn [app textwrap.append_line]; cbn [app] in Ejoin; rewrite Ejoin.
    repeat split; auto.
Qed.

Lemma wrap_loop_step (fuel : nat) (width : Z) (chunks lines : list str) :
  chunks <> [] ->
  textwrap.wrap_loop (S fuel) width chunks lines
  = textwrap.wrap_loop fuel width
      (fst (textwrap.wrap_line width chunks lines))
      (snd (textwrap.wrap_line width chunks lines)).
Proof.
  intros Hne; destruct chunks as [|chunk chunks]; [congruence|].
  cbn [textwrap.wrap_loop].
  now destruct (textwrap.wrap_line width (chunk :: chunks) lines).
Qed.

(** The outer loop of [_wrap_chunks] on words and spaces. *)
Lemma wrap_loop_words (width : Z) (fuel : nat) :
  forall (t : str) (ts lines : list str) (lead : bool),
    plain_word t -> Forall plain_word ts ->
    len t <= width -> Forall (fun x => len x <= width) ts ->
    (lead = true -> lines <> []) ->
    (length ts < fuel)%nat ->
    exists groups,
      textwrap.wrap_loop fuel width
        ((if lead then [[SPACE]] else []) ++ t :: spaced ts) lines
      = Val (lines ++ map (join [SPACE]) groups)
      /\ concat groups = t :: ts
      /\ Forall (fun g => g <> [] /\ len (join [SPACE] g) <= width) groups
      /\ filled width groups.
Proof.
  induction fuel as [|fuel IH]; intros t ts lines lead Ht Hts Hlen Hlens Hlead
    Hfuel; [lia|].
  rewrite wrap_loop_step by (destruct lead; discriminate).
  destruct (wrap_line_words width t ts lines lead Ht Hts Hlen Hlens Hlead)
    as (taken & rest & lead' & Ets & -> & Hle & Hfull).
  cbn [fst snd].
  destruct rest as [|t' rest'].
  - exists [t :: taken]; rewrite app_nil_r in Ets; subst taken.
    repeat split.
    + destruct fuel; reflexivity.
    + cbn [concat]; now rewrite app_nil_r.
    + constructor; [|constructor]; split; [discriminate | assumption].
  - assert (Hparts : Forall plain_word taken /\ Forall plain_word (t' :: rest'))
      by (rewrite Ets in Hts; now apply Forall_app in Hts).
    assert (Hlenp : Forall (fun x => len x <= width) (t' :: rest'))
      by (rewrite Ets in Hlens; now apply Forall_app in Hlens).
    destruct Hparts as [_ Hrest].
    destruct (IH t' rest' (lines ++ [join [SPACE] (t :: taken)]) lead')
      as (groups & -> & Econcat & Hgroups & Hfilled).
    + now inversion Hrest.
    + now inversion Hrest.
    + now inversion Hlenp.
    + now inversion Hlenp.
    + intros _; now destruct lines.
    + rewrite Ets, length_app in Hfuel; cbn [length] in Hfuel; lia.
    + exists ((t :: taken) :: groups); repeat split.
      * now rewrite <- app_assoc.
      * cbn [concat]; rewrite Econcat, Ets; reflexivity.
      * constructor; [split; [discriminate | assumption] | assumption].
      * destruct groups as [|[|w g] groups]; [exact I | exact I|].
        cbn [concat app] in Econcat; injection Econcat as -> _.
        change ((t :: taken) ++ [t']) with (t :: taken ++ [t']).
        change (t :: taken ++ [t']) with ((t :: taken) ++ [t']).
        rewrite len_join_snoc; change (len [SPACE]) with 1; lia.
      * assumption.
Qed.

Lemma length_concat_spaced (ts : list str) :
  (length ts <= length (concat (spaced ts)))%nat.
Proof.
  induction ts as [|t ts IH]; [reflexivity|].
  rewrite concat_spaced_cons; cbn [length]; rewrite length_app; lia.
Qed.

(** [textwrap.wrap] on words joined by single spaces, none of them longer
    than the width: lines of whole words in order, filled greedily. *)
Lemma wrap_words (tokens : list str) (width : Z) :
  0 < width ->
  Forall plain_word tokens -> Forall (fun t => len t <= width) tokens ->
  exists groups,
    textwrap.wrap (join [SPACE] tokens) width
    = Val (map (join [SPACE]) groups)
    /\ concat groups = tokens
    /\ Forall (fun g => g <> [] /\ len (join [SPACE] g) <= width) groups
    /\ filled width groups.
Proof.
  intros Hw Hts Hlens; unfold textwrap.wrap, textwrap.wrap_chunks.
  destruct (Z.leb_spec width 0); [lia|].
  destruct tokens as [|t ts].
  - exists []; repeat split; constructor.
  - rewrite (split_chunks_words t ts Hts).
    inversion Hts as [|? ? Ht Hts']; subst.
    inversion Hlens as [|? ? Hlen Hlens']; subst.
    destruct (wrap_loop_words width (length (concat (t :: spaced ts)))
                t ts [] false Ht Hts' Hlen Hlens' ltac:(discriminate))
      as (groups & E & Hgroups);
      [|exists groups; split; [exact E | exact Hgroups]].
    cbn [concat]; rewrite length_app.
    pose proof (length_concat_spaced ts).
    destruct Ht as [Hne _]; destruct t; [congruence|]; cbn [length]; lia.
Qed.

(** *** Documents of whole words *)

Lemma join_words_no_newline (g : list str) :
  Forall plain_word g -> ~ In NEWLINE (join [SPACE] g).
Proof.
  intros Hg Hin.
  pose proof (plain_word_chars g Hg) as Hchars.
  rewrite Forall_forall in Hchars.
  destruct (Hchars _ Hin) as [E | E]; discriminate E.
Qed.

(** The blocks of lines of paragraphs made of words joined by single
    spaces. *)
Lemma words_blocks (width : Z) (paragraphs : list (list str)) :
  0 < width ->
  Forall (fun tokens =>
            tokens <> [] /\ Forall plain_word tokens
            /\ Forall (fun t => len t <= width) tokens) paragraphs ->
  exists texts : list (list (list str)),
    Forall2 (fun p block =>
               textwrap.wrap p width = Val block
               /\ block <> []
               /\ Forall (fun line => ~ In NEWLINE line) block)
      (map (join [SPACE]) paragraphs) (map (map (join [SPACE])) texts)
    /\ Forall2 (fun tokens lines =>
                  concat lines = tokens
                  /\ Forall (fun line =>
                               line <> []
                               /\ len (join [SPACE] line) <= width) lines
                  /\ filled width lines)
         paragraphs texts.
Proof.
  intros Hw; induction 1 as [|tokens paragraphs (Hne & Hplain & Hlens) _
                              (texts & IH1 & IH2)].
  - exists []; split; constructor.
  - destruct (wrap_words tokens width Hw Hplain Hlens)
      as (lines & E & Econcat & Hlines & Hfilled).
    exists (lines :: texts); split; cbn [map]; constructor; auto.
    split; [exact E|]; split.
    + destruct lines; [|discriminate].
      cbn [concat] in Econcat; congruence.
    + apply Forall_map.
      rewrite <- Econcat in Hplain; apply Forall_concat in Hplain.
      eapply Forall_impl; [|exact Hplain].
      intros line; apply join_words_no_newline.
Qed.

(** The document of paragraphs made of words joined by single spaces. *)
Lemma render_markdown_of_words (title : str)
  (paragraphs : list (list str)) (max_line_len : Z) :
  0 < max_line_len ->
  ~ In NEWLINE title ->
  title <> [] \/ paragraphs <> [] ->
  Forall (fun tokens =>
            tokens <> [] /\ Forall plain_word tokens
            /\ Forall (fun t => len t <= max_line_len) tokens) paragraphs ->
  exists md (texts : list (list (list str))),
    render_markdown title (map (join [SPACE]) paragraphs) max_line_len = Val md
    /\ split_on NEWLINE md
       = blocks_lines (heading_block title ++ map (map (join [SPACE])) texts)
    /\ Forall2 (fun tokens lines =>
                  concat lines = tokens
                  /\ Forall (fun line =>
                               line <> []
                               /\ len (join [SPACE] line) <= max_line_len)
                       lines
                  /\ filled max_line_len lines)
         paragraphs texts.
Proof.
  intros Hw Htitle Hne Hwords.
  destruct (words_blocks max_line_len paragraphs Hw Hwords)
    as (texts & Hblocks & Htexts).
  destruct (render_markdown_of_blocks title (map (join [SPACE]) paragraphs)
              max_line_len (map (map (join [SPACE])) texts) Hw Htitle)
    as (md & E & Hlines);
    [|exact Hblocks|exists md, texts; auto].
  destruct Hne as [Hne | Hne]; [now left | right].
  now destruct paragraphs.
Qed.

(** X9: for a positive width and a title on one line, when every
    paragraph is made of words without whitespace or hyphen joined by
    single spaces and no word is longer than the width, the lines of the
    document after the heading are whole words joined by single spaces:
    each paragraph gives its words in order, on lines that fit the width,
    each line taking as many words as fit, with one empty line between
    two paragraphs. *)
Theorem render_markdown_whole_words (title : str)
  (paragraphs : list (list str)) (max_line_len : Z) :
  0 < max_line_len ->
  ~ In NEWLINE title ->
  title <> [] \/ paragraphs <> [] ->
  Forall (fun tokens =>
            tokens <> [] /\ Forall plain_word tokens
            /\ Forall (fun t => len t <= max_line_len) tokens) paragraphs ->
  exists md (texts : list (list (list str))),
    render_markdown title (map (join [SPACE]) paragraphs) max_line_len = Val md
    /\ split_on NEWLINE md
       = blocks_lines (heading_block title ++ map (map (join [SPACE])) texts)
    /\ Forall2 (fun tokens lines =>
                  concat lines = tokens
                  /\ Forall (fun line =>
                               line <> []
                               /\ len (join [SPACE] line) <= max_line_len)
                       lines
                  /\ filled max_line_len lines)
         paragraphs texts.
Proof.
  exact (render_markdown_of_words title paragraphs max_line_len).
Qed.

Lemma render_markdown_whole_words_witness :
  exists md (texts : list (list (list str))),
    render_markdown (txt "T")
      (map (join [SPACE]) [[txt "lorem"; txt "ipsum"; txt "dolor."]]) 11
    = Val md
    /\ split_on NEWLINE md
       = blocks_lines (heading_block (txt "T")
                       ++ map (map (join [SPACE])) texts)
    /\ Forall2 (fun tokens lines =>
                  concat lines = tokens
                  /\ Forall (fun line =>
                               line <> [] /\ len (join [SPACE] line) <= 11)
                       lines
                  /\ filled 11 lines)
         [[txt "lorem"; txt "ipsum"; txt "dolor."]] texts.
Proof.
  apply (render_markdown_whole_words (txt "T")
           [[txt "lorem"; txt "ipsum"; txt "dolor."]] 11).
  - lia.
  - intros [E | []]; discriminate E.
  - left; discriminate.
  - constructor; [|constructor].
    split; [discriminate|]; split.
    + repeat constructor; try discriminate; reflexivity.
    + repeat constructor; vm_compute; discriminate.
Defined.

(** *** The documents that [main] writes *)

Lemma pool_token_word (t : str) : pool_token t -> plain_word t /\ len t <= 14.
Proof.
  intros Ht; split.
  - assert (Hl : forall u, letters u ->
              Forall (fun c => isspace c = false /\ c <> HYPHEN) u).
    { intros u [_ Hu]; eapply Forall_impl; [|exact Hu].
      cbn beta; intros c Hc; split; [now apply alpha_not_space|].
      intros ->; discriminate Hc. }
    pose proof (pool_token_len t Ht) as Hlen.
    split; [intros ->; change (len (@nil ascii)) with 0 in Hlen; lia|].
    destruct (pool_token_letters t Ht) as [Hu | (u & Hu & ->)]; [now apply Hl|].
    apply Forall_app; split; [now apply Hl|].
    constructor; [split; [reflexivity | discriminate] | constructor].
  - destruct Ht as (w & Hw & Ht).
    pose proof (pool_word_max w Hw) as Hmax.
    assert (Ecap : len (capitalize w) = len w)
      by (unfold len; now rewrite capitalize_length).
    destruct Ht as [-> | [-> | [-> | ->]]];
      rewrite ?len_app, ?Ecap; change (len [PERIOD]) with 1; lia.
Qed.

Lemma sentences_words (width : Z) (sentences : list (list str)) :
  14 <= width ->
  sentences <> [] ->
  Forall (fun s => sentence s /\ 1 <= len s <= 20) sentences ->
  concat sentences <> []
  /\ Forall plain_word (concat sentences)
  /\ Forall (fun t => len t <= width) (concat sentences).
Proof.
  intros Hw Hne Hs.
  assert (Htok : Forall pool_token (concat sentences)).
  { apply Forall_concat; eapply Forall_impl; [|exact Hs].
    cbn beta; intros s [Hsent _]; now apply sentence_tokens. }
  repeat split.
  - destruct sentences as [|s sentences]; [congruence|].
    inversion Hs as [|? ? [_ Hl] _]; subst.
    destruct s; [change (len (@nil str)) with 0 in Hl; lia | discriminate].
  - eapply Forall_impl; [|exact Htok]; intros t Ht; now apply pool_token_word.
  - eapply Forall_impl; [|exact Htok]; cbn beta; intros t Ht.
    pose proof (proj2 (pool_token_word t Ht)); lia.
Qed.

Section Documents.

Context {R : RandomSource}.

Lemma gen_paragraphs_sentences (distribution : list Z) :
  Forall (fun n => 0 < n) distribution ->
  forall g paragraphs_text g',
    gen_paragraphs distribution g = Val (paragraphs_text, g') ->
    exists sentencess : list (list (list str)),
      paragraphs_text = map (join [SPACE]) (map (@concat str) sentencess)
      /\ Forall (fun sentences =>
                   sentences <> []
                   /\ Forall (fun s => sentence s /\ 1 <= len s <= 20)
                        sentences) sentencess.
Proof.
  induction 1 as [|n distribution Hn _ IH]; intros g ps g';
    cbn [gen_paragraphs].
  - intros E; injection E as <- _; exists []; split; constructor.
  - destruct (gen_paragraph_sentences n g Hn)
      as (p & g1 & sentences & -> & -> & Hne & Hall & _); cbn [bind].
    destruct (gen_paragraphs distribution g1) as [[ps' g2]| |] eqn:Eps;
      cbn [bind]; try discriminate.
    intros E; injection E as <- _.
    destruct (IH g1 ps' g2 Eps) as (sentencess & -> & Hss).
    exists (sentences :: sentencess); split; [reflexivity|].
    constructor; auto.
Qed.

(** What [main] generates when paragraphs are asked for: paragraphs made
    of sentences, and a title of letters and spaces. *)
Lemma generate_sentences (settings : Settings) (g : rng) :
  0 < paragraphs settings ->
  exists (sentencess : list (list (list str))) (title_text : str),
    generate settings g
    = Val (map (join [SPACE]) (map (@concat str) sentencess), title_text)
    /\ len sentencess = paragraphs settings
    /\ Forall (fun sentences =>
                 sentences <> []
                 /\ Forall (fun s => sentence s /\ 1 <= len s <= 20)
                      sentences) sentencess
    /\ Forall (fun c => is_alpha c = true \/ c = SPACE) title_text
    /\ (include_title settings = false -> title_text = []).
Proof.
  intros Hp.
  destruct (generate_total settings g) as (ps & title & E).
  pose proof (generate_count settings g ps title E) as Hcount.
  revert E; unfold generate.
  set (d := distribute_chars _ _).
  assert (Hd : Forall (fun n => 0 < n) d).
  { eapply Forall_impl;
      [|apply (distribute_chars_ge _ (paragraphs settings) 20);
        [lia | apply min_budget_fallback_ge]].
    cbn beta; intros; lia. }
  destruct (gen_paragraphs d g) as [[ps' g1]| |] eqn:Eps; cbn [bind];
    try discriminate.
  destruct (gen_paragraphs_sentences d Hd g ps' g1 Eps) as (sentencess & -> & Hss).
  assert (Htitle : exists t g2,
            (if include_title settings
             then gen_title (title_characters settings) g1
             else Val ([], g1)) = Val (t, g2)
            /\ Forall (fun c => is_alpha c = true \/ c = SPACE) t
            /\ (include_title settings = false -> t = [])).
  { destruct (include_title settings).
    - destruct (Z.leb_spec (title_characters settings) 0) as [Hn | Hpos].
      + rewrite (proj2 (gen_title_returns _ g1) Hn).
        exists [], g1; split; [reflexivity|]; split; [constructor | discriminate].
      + destruct (proj1 (gen_title_returns _ g1) Hpos)
          as (t & g2 & -> & _ & Hchars & _).
        exists t, g2; split; [reflexivity|]; split; [assumption | discriminate].
    - exists [], g1; split; [reflexivity|]; split; [constructor | reflexivity]. }
  destruct Htitle as (t & g2 & -> & Hchars & Hoff); cbn [bind].
  intros E; injection E as <- <-.
  exists sentencess, t; repeat split; auto.
  unfold len in *; rewrite !length_map in Hcount; lia.
Qed.

(** The document that [main] writes when paragraphs are asked for and
    the width is 14 or more. *)
Lemma main_sentences (settings : Settings) (entropy : rng) :
  0 < paragraphs settings ->
  14 <= max_line_length settings ->
  exists (md title_text : str) (sentencess texts : list (list (list str))),
    main settings entropy = Val (output_path settings, md)
    /\ split_on NEWLINE md
       = blocks_lines (heading_block title_text
                       ++ map (map (join [SPACE])) texts)
    /\ len sentencess = paragraphs settings
    /\ Forall (fun sentences =>
                 sentences <> []
                 /\ Forall (fun s => sentence s /\ 1 <= len s <= 20)
                      sentences) sentencess
    /\ Forall2 (fun sentences lines =>
                  concat lines = concat sentences
                  /\ Forall (fun line =>
                               line <> []
                               /\ len (join [SPACE] line)
                                  <= max_line_length settings) lines
                  /\ filled (max_line_length settings) lines)
         sentencess texts
    /\ Forall (fun c => is_alpha c = true \/ c = SPACE) title_text
    /\ (include_title settings = false -> title_text = []).
Proof.
  intros Hp Hw; unfold main.
  destruct (generate_sentences settings (Random (seed settings) entropy) Hp)
    as (sentencess & title & -> & Hcount & Hss & Hchars & Hoff); cbn [bind].
  destruct (render_markdown_of_words title (map (@concat str) sentencess)
              (max_line_length settings)) as (md & texts & -> & Hlines & Htexts).
  - lia.
  - intros Hin; rewrite Forall_forall in Hchars.
    destruct (Hchars _ Hin) as [E | E]; discriminate E.
  - right; destruct sentencess; [|discriminate].
    change (len (@nil (list (list str)))) with 0 in Hcount; lia.
  - apply Forall_map; eapply Forall_impl; [|exact Hss].
    cbn beta; intros sentences [Hne Hall].
    now apply sentences_words.
  - cbn [bind]; exists md, title, sentencess, texts; repeat split; auto.
    clear -Htexts; remember (map (@concat str) sentencess) as ps eqn:Eps.
    revert sentencess Eps; induction Htexts as [|p lines ps texts Hl _ IH];
      intros sentencess Eps; destruct sentencess as [|ss sentencess];
      try discriminate; constructor.
    + cbn [map] in Eps; injection Eps as -> _; exact Hl.
    + cbn [map] in Eps; injection Eps as _ ->; now apply IH.
Qed.

(** X10: asked for one paragraph or more with a line width of 14 or more,
    [main] writes a document whose lines are the heading line, if the
    title is not empty, and then the paragraphs with one empty line
    between two of them.  There are as many paragraphs as asked for; each
    is a sequence of sentences whose words, in order, fill its lines: a
    line is made of whole words joined by single spaces, fits the width
    and takes as many words as fit.  The title is made of letters and
    spaces, and it is empty when [include_title] is off. *)
Theorem main_whole_words (settings : Settings) (entropy : rng) :
  0 < paragraphs settings ->
  14 <= max_line_length settings ->
  exists (md title_text : str) (sentencess texts : list (list (list str))),
    main settings entropy = Val (output_path settings, md)
    /\ split_on NEWLINE md
       = blocks_lines (heading_block title_text
                       ++ map (map (join [SPACE])) texts)
    /\ len sentencess = paragraphs settings
    /\ Forall (fun sentences =>
                 sentences <> []
                 /\ Forall (fun s => sentence s /\ 1 <= len s <= 20)
                      sentences) sentencess
    /\ Forall2 (fun sentences lines =>
                  concat lines = concat sentences
                  /\ Forall (fun line =>
                               line <> []
                               /\ len (join [SPACE] line)
                                  <= max_line_length settings) lines
                  /\ filled (max_line_length settings) lines)
         sentencess texts
    /\ Forall (fun c => is_alpha c = true \/ c = SPACE) title_text
    /\ (include_title settings = false -> title_text = []).
Proof. exact (main_sentences settings entropy). Qed.

End Documents.

Lemma main_whole_words_witness :
  exists (md title_text : str) (sentencess texts : list (list (list str))),
    main example_settings (seeded 0)
    = Val (output_path example_settings, md)
    /\ split_on NEWLINE md
       = blocks_lines (heading_block title_text
                       ++ map (map (join [SPACE])) texts)
    /\ len sentencess = paragraphs example_settings
    /\ Forall (fun sentences =>
                 sentences <> []
                 /\ Forall (fun s => sentence s /\ 1 <= len s <= 20)
                      sentences) sentencess
    /\ Forall2 (fun sentences lines =>
                  concat lines = concat sentences
                  /\ Forall (fun line =>
                               line <> []
                               /\ len (join [SPACE] line)
                                  <= max_line_length example_settings) lines
                  /\ filled (max_line_length example_settings) lines)
         sentencess texts
    /\ Forall (fun c => is_alpha c = true \/ c = SPACE) title_text
    /\ (include_title example_settings = false -> title_text = []).
Proof.
  apply (main_whole_words (R := Lcg) example_settings (seeded 0));
    vm_compute; congruence.
Defined.

(** ** The size of the text *)

Lemma sum_cons (a : Z) (l : list Z) : sum (a :: l) = a + sum l.
Proof.
  change (a :: l) with ([a] ++ l); rewrite sum_app.
  unfold sum at 1; cbn [fold_left]; lia.
Qed.

Lemma distribute_chars_sum (total_chars paragraphs : Z) :
  0 < paragraphs ->
  sum (distribute_chars total_chars paragraphs) = total_chars
  /\ len (distribute_chars total_chars paragraphs) = paragraphs.
Proof.
  intros Hp.
  pose proof (Z.mod_pos_bound total_chars paragraphs Hp) as Hr.
  rewrite distribute_chars_pos by assumption; split.
  - unfold range; rewrite sum_entries by lia.
    rewrite Z2Nat.id by lia.
    rewrite (Z.div_mod total_chars paragraphs) at 3 by lia.
    lia.
  - unfold len; rewrite length_map; apply range_length; lia.
Qed.

Lemma sum_lengths_bounds (distribution : list Z) (paragraphs_text : list str) :
  Forall2 (fun n p => n <= len p <= n + 15) distribution paragraphs_text ->
  sum distribution <= sum (map (@len ascii) paragraphs_text)
  <= sum distribution + 15 * len distribution.
Proof.
  induction 1 as [|n p d ps Hp _ IH].
  - change (len (@nil Z)) with 0; cbn [map]; unfold sum; cbn [fold_left]; lia.
  - cbn [map]; rewrite !sum_cons, len_cons; lia.
Qed.

Lemma min_budget_fallback_max (total_chars paragraphs : Z) :
  min_budget_fallback total_chars paragraphs
  = Z.max total_chars (paragraphs * 20).
Proof.
  unfold min_budget_fallback.
  destruct (Z.ltb_spec total_chars (paragraphs * 20)); lia.
Qed.

Section Size.

Context {R : RandomSource}.

Lemma gen_paragraphs_bounds (distribution : list Z) :
  Forall (fun n => 0 < n) distribution ->
  forall g paragraphs_text g',
    gen_paragraphs distribution g = Val (paragraphs_text, g') ->
    Forall2 (fun n p => n <= len p <= n + 15) distribution paragraphs_text.
Proof.
  induction 1 as [|n distribution Hn _ IH]; intros g ps g';
    cbn [gen_paragraphs].
  - intros E; injection E as <- _; constructor.
  - destruct (gen_paragraph_sentences n g Hn)
      as (p & g1 & sentences & E1 & _ & _ & _ & _ & Hle).
    destruct (gen_paragraph_returns n g Hn) as (p' & g1' & E1' & Hge & _).
    rewrite E1 in E1'; injection E1' as <- <-.
    rewrite E1; cbn [bind].
    destruct (gen_paragraphs distribution g1) as [[ps' g2]| |] eqn:Eps;
      cbn [bind]; try discriminate.
    intros E; injection E as <- _.
    constructor; [lia | now apply (IH g1 ps' g2)].
Qed.

(** X11: asked for one paragraph or more, [main] generates paragraphs
    whose lengths add up to the number of characters asked for, or to 20
    per paragraph if that is more, and to at most 15 characters more per
    paragraph; the length of each paragraph is its share of that number,
    rounded down, or up to 16 characters more. *)
Theorem generate_size (settings : Settings) (g : rng) :
  0 < paragraphs settings ->
  exists paragraphs_text title_text,
    generate settings g = Val (paragraphs_text, title_text)
    /\ Z.max (characters settings) (paragraphs settings * 20)
       <= sum (map (@len ascii) paragraphs_text)
       <= Z.max (characters settings) (paragraphs settings * 20)
          + 15 * paragraphs settings
    /\ Forall (fun p =>
                 Z.max (characters settings) (paragraphs settings * 20)
                 / paragraphs settings
                 <= len p
                 <= Z.max (characters settings) (paragraphs settings * 20)
                    / paragraphs settings + 16) paragraphs_text.
Proof.
  intros Hp.
  destruct (generate_total settings g) as (ps & title & E).
  exists ps, title; split; [exact E|].
  revert E; unfold generate; rewrite min_budget_fallback_max.
  set (total := Z.max _ _).
  set (d := distribute_chars _ _).
  assert (Hd : Forall (fun n => 0 < n) d).
  { eapply Forall_impl;
      [|apply (distribute_chars_ge total (paragraphs settings) 20);
        [lia | subst total; lia]].
    cbn beta; intros; lia. }
  destruct (gen_paragraphs d g) as [[ps' g1]| |] eqn:Eps; cbn [bind];
    try discriminate.
  pose proof (gen_paragraphs_bounds d Hd g ps' g1 Eps) as Hb.
  destruct (if include_title settings
            then gen_title (title_characters settings) g1
            else Val ([], g1)) as [[t g2]| |]; cbn [bind]; try discriminate.
  intros E; injection E as <- _.
  destruct (distribute_chars_sum total (paragraphs settings) Hp) as [Hsum Hlen].
  fold d in Hsum, Hlen.
  split.
  - pose proof (sum_lengths_bounds d ps' Hb); lia.
  - assert (Hin : Forall (fun n => n = total / paragraphs settings
                                   \/ n = total / paragraphs settings + 1) d).
    { apply Forall_forall; intros n; now apply distribute_chars_In. }
    clear -Hb Hin; induction Hb as [|n p d ps Hn _ IH]; constructor.
    + inversion Hin as [|? ? [-> | ->] _]; subst; lia.
    + apply IH; now inversion Hin.
Qed.

End Size.

Lemma generate_size_witness :
  exists paragraphs_text title_text,
    generate example_settings (seeded 42) = Val (paragraphs_text, title_text)
    /\ Z.max (characters example_settings) (paragraphs example_settings * 20)
       <= sum (map (@len ascii) paragraphs_text)
       <= Z.max (characters example_settings)
            (paragraphs example_settings * 20)
          + 15 * paragraphs example_settings
    /\ Forall (fun p =>
                 Z.max (characters example_settings)
                   (paragraphs example_settings * 20)
                 / paragraphs example_settings
                 <= len p
                 <= Z.max (characters example_settings)
                      (paragraphs example_settings * 20)
                    / paragraphs example_settings + 16) paragraphs_text.
Proof.
  apply (generate_size (R := Lcg) example_settings (seeded 42)).
  vm_compute; congruence.
Defined.

(** ** The layout of the documents that [main] writes *)

Section Layout.

Context {R : RandomSource}.

(** X12: asked for one paragraph or more with a positive line width,
    [main] writes a document whose lines are the heading line, if the
    title is not empty, and then one block of lines for each paragraph
    asked for, with exactly one empty line between two consecutive
    blocks; the lines of the blocks are not empty and fit the width, also
    where words had to be cut, and the document does not end with a
    newline. *)
Theorem main_layout (settings : Settings) (entropy : rng) :
  0 < paragraphs settings ->
  0 < max_line_length settings ->
  exists (md title_text : str) (blocks : list (list str)),
    main settings entropy = Val (output_path settings, md)
    /\ split_on NEWLINE md = blocks_lines (heading_block title_text ++ blocks)
    /\ len blocks = paragraphs settings
    /\ Forall (fun block =>
                 block <> []
                 /\ Forall (fun line =>
                              line <> []
                              /\ len line <= max_line_length settings
                              /\ ~ In NEWLINE line) block) blocks
    /\ endswith md NEWLINE = false
    /\ Forall (fun c => is_alpha c = true \/ c = SPACE) title_text
    /\ (include_title settings = false -> title_text = []).
Proof.
  intros Hp Hw.
  destruct (main_document settings entropy Hw)
    as (md' & _ & _ & Em & Hend & _).
  revert Em; unfold main.
  destruct (generate_sentences settings (Random (seed settings) entropy) Hp)
    as (sentencess & title & E & Hcount & _ & Hchars & Hoff).
  destruct (generate_spec settings (Random (seed settings) entropy))
    as (ps & t & E' & Hvis & _).
  rewrite E in E'; injection E' as <- <-.
  rewrite E; cbn [bind].
  destruct (wrap_blocks (max_line_length settings) _ Hw Hvis)
    as (blocks & Hblocks).
  assert (Hlen : len blocks = paragraphs settings).
  { unfold len in *; rewrite <- (Forall2_length Hblocks), !length_map; lia. }
  destruct (render_markdown_of_blocks title
              (map (join [SPACE]) (map (@concat str) sentencess))
              (max_line_length settings) blocks Hw) as (md & -> & Hlines).
  - intros Hin; rewrite Forall_forall in Hchars.
    destruct (Hchars _ Hin) as [E0 | E0]; discriminate E0.
  - right; destruct sentencess; [|discriminate].
    change (len (@nil (list (list str)))) with 0 in Hcount; lia.
  - eapply Forall2_impl; [|exact Hblocks].
    cbn beta; intros p block (Ew & Hb & Hl); repeat split; auto.
    eapply Forall_impl; [|exact Hl]; intros line H; apply H.
  - cbn [bind]; intros Em; injection Em as <-.
    exists md, title, blocks; repeat split; auto.
    clear -Hblocks; induction Hblocks as [|p b ps bs (_ & Hb & Hl) _ IH];
      constructor; auto.
Qed.

End Layout.

Lemma main_layout_witness :
  exists (md title_text : str) (blocks : list (list str)),
    main example_settings (seeded 0) = Val (output_path example_settings, md)
    /\ split_on NEWLINE md = blocks_lines (heading_block title_text ++ blocks)
    /\ len blocks = paragraphs example_settings
    /\ Forall (fun block =>
                 block <> []
                 /\ Forall (fun line =>
                              line <> []
                              /\ len line <= max_line_length example_settings
                              /\ ~ In NEWLINE line) block) blocks
    /\ endswith md NEWLINE = false
    /\ Forall (fun c => is_alpha c = true \/ c = SPACE) title_text
    /\ (include_title example_settings = false -> title_text = []).
Proof.
  apply (main_layout (R := Lcg) example_settings (seeded 0));
    vm_compute; congruence.
Defined.

(** ** The characters of the documents that [main] writes *)

Lemma text_char_plain (c : ascii) :
  text_char c -> isspace c = false \/ c = SPACE.
Proof.
  intros [Hc | [-> | ->]]; [left; now apply alpha_not_space | now right | now left].
Qed.

Lemma wrap_incl (text : str) (width : Z) (lines : list str) :
  textwrap.wrap text width = Val lines ->
  Forall (fun line => incl line (textwrap.munge_whitespace text)) lines.
Proof.
  unfold textwrap.wrap, textwrap.wrap_chunks, textwrap.split_chunks.
  destruct (Z.leb_spec width 0); [discriminate|].
  destruct (split_spec (textwrap.munge_whitespace text)) as [Econcat Hne].
  destruct (wrap_loop_spec width _ ltac:(lia) _ [] Hne (Nat.le_refl _))
    as (new & -> & Hnew & _).
  intros E; injection E as <-; cbn [app].
  rewrite Econcat in Hnew.
  eapply Forall_impl; [|exact Hnew]; intros line Hline; apply Hline.
Qed.

Lemma fill_chars (P : ascii -> Prop) (text wrapped : str) (width : Z) :
  textwrap.fill text width = Val wrapped ->
  Forall P (textwrap.munge_whitespace text) -> P NEWLINE ->
  Forall P wrapped.
Proof.
  unfold textwrap.fill.
  destruct (textwrap.wrap text width) as [lines| |] eqn:E; cbn [bind];
    try discriminate.
  intros Ew Htext Hnl; injection Ew as <-.
  apply join_Forall; [constructor; [exact Hnl | constructor]|].
  eapply Forall_impl; [|exact (wrap_incl text width lines E)].
  cbn beta; intros line Hincl; rewrite Forall_forall in *; auto.
Qed.

Lemma Forall_separated (Q : str -> Prop) (parts : list str) :
  Q [] -> Forall Q parts -> Forall Q (separated parts).
Proof.
  intros Hnil; induction 1 as [|p parts Hp Hparts IH]; [constructor|].
  destruct parts as [|q parts]; [now constructor|].
  change (separated (p :: q :: parts)) with (p :: [] :: separated (q :: parts)).
  constructor; [assumption | constructor; assumption].
Qed.

(** The characters of a document come from its title and its paragraphs. *)
Lemma render_markdown_chars (P : ascii -> Prop) (title : str)
  (paragraphs : list str) (max_line_len : Z) (md : str) :
  render_markdown title paragraphs max_line_len = Val md ->
  0 < max_line_len ->
  P NEWLINE -> P SPACE -> P "#"%char ->
  Forall P title ->
  Forall (fun p => Forall P (textwrap.munge_whitespace p)) paragraphs ->
  Forall P md.
Proof.
  intros E Hw Hnl Hsp Hhash Htitle Hps.
  destruct (render_markdown_parts title paragraphs max_line_len Hw)
    as (wrapped & H2 & E').
  rewrite E in E'; injection E' as ->.
  apply join_Forall; [constructor; [exact Hnl | constructor]|].
  rewrite document_parts_separated.
  apply Forall_separated; [constructor|].
  apply Forall_app; split.
  - destruct title as [|c title]; constructor; [|constructor].
    constructor; [exact Hhash|]; constructor; [exact Hsp | exact Htitle].
  - clear -H2 Hps Hnl; induction H2 as [|p text ps wrapped Ep _ IH];
      [constructor|].
    inversion Hps as [|? ? Hp Hps']; subst.
    constructor; [exact (fill_chars P p text max_line_len Ep Hp Hnl) | auto].
Qed.

Lemma pool_token_chars (t : str) : pool_token t -> Forall text_char t.
Proof.
  intros Ht.
  assert (Hl : forall u, letters u -> Forall text_char u).
  { intros u [_ Hu]; eapply Forall_impl; [|exact Hu]; intros c Hc; now left. }
  destruct (pool_token_letters t Ht) as [Hu | (u & Hu & ->)]; [now apply Hl|].
  apply Forall_app; split; [now apply Hl|].
  constructor; [right; now right | constructor].
Qed.

Section Alphabet.

Context {R : RandomSource}.

Lemma gen_paragraph_chars (target_chars : Z) (g g' : rng) (paragraph : str) :
  gen_paragraph target_chars g = Val (paragraph, g') ->
  Forall text_char paragraph.
Proof.
  intros E; destruct (Z.leb_spec target_chars 0) as [Hn | Hp].
  - destruct (proj2 (gen_paragraph_guard target_chars g Hn) _ _ E) as [-> _].
    constructor.
  - destruct (gen_paragraph_sentences target_chars g Hp)
      as (p & g1 & sentences & E1 & -> & _ & Hall & _).
    rewrite E in E1; injection E1 as -> _.
    apply join_Forall; [constructor; [right; now left | constructor]|].
    apply Forall_concat; eapply Forall_impl; [|exact Hall].
    cbn beta; intros s [Hs _].
    eapply Forall_impl; [|exact (sentence_tokens s Hs)].
    intros t; apply pool_token_chars.
Qed.

Lemma gen_paragraphs_chars (distribution : list Z) :
  forall g paragraphs_text g',
    gen_paragraphs distribution g = Val (paragraphs_text, g') ->
    Forall (Forall text_char) paragraphs_text.
Proof.
  induction distribution as [|n distribution IH]; intros g ps g';
    cbn [gen_paragraphs].
  - intros E; injection E as <- _; constructor.
  - destruct (gen_paragraph n g) as [[p g1]| |] eqn:Ep; cbn [bind];
      try discriminate.
    destruct (gen_paragraphs distribution g1) as [[ps' g2]| |] eqn:Eps;
      cbn [bind]; try discriminate.
    intros E; injection E as <- _.
    constructor; [exact (gen_paragraph_chars n g g1 p Ep) | eauto].
Qed.

(** X13: the documents that [main] writes are made of ASCII letters,
    spaces, periods, newlines and the hash sign of the heading, and of
    nothing else, whatever the settings and the seed. *)
Theorem main_alphabet (settings : Settings) (entropy : rng) :
  0 < max_line_length settings ->
  exists md,
    main settings entropy = Val (output_path settings, md)
    /\ Forall document_char md.
Proof.
  intros Hw.
  destruct (main_total settings entropy Hw) as (md & Em).
  exists md; split; [exact Em|].
  revert Em; unfold main, generate.
  destruct (gen_paragraphs _ (Random (seed settings) entropy))
    as [[ps g1]| |] eqn:Eps; cbn [bind]; try discriminate.
  pose proof (gen_paragraphs_chars _ _ _ _ Eps) as Hps.
  assert (Htitle : forall t g2,
            (if include_title settings
             then gen_title (title_characters settings) g1
             else Val ([], g1)) = Val (t, g2) ->
            Forall document_char t).
  { intros t g2; destruct (include_title settings).
    - destruct (Z.leb_spec (title_characters settings) 0) as [Hn | Hpos].
      + rewrite (proj2 (gen_title_returns _ g1) Hn).
        intros E; injection E as <- _; constructor.
      + destruct (proj1 (gen_title_returns _ g1) Hpos)
          as (t' & g2' & -> & _ & Hchars & _).
        intros E; injection E as <- _.
        eapply Forall_impl; [|exact Hchars].
        cbn beta; intros c [Hc | ->]; left; [now left | right; now left].
    - intros E; injection E as <- _; constructor. }
  destruct (if include_title settings
            then gen_title (title_characters settings) g1
            else Val ([], g1)) as [[t g2]| |] eqn:Et; cbn [bind];
    try discriminate.
  destruct (render_markdown t ps (max_line_length settings))
    as [md'| |] eqn:Emd; cbn [bind]; try discriminate.
  intros E; injection E as <-.
  apply (render_markdown_chars document_char t ps _ md' Emd Hw).
  - right; now left.
  - left; right; now left.
  - right; now right.
  - exact (Htitle t g2 eq_refl).
  - eapply Forall_impl; [|exact Hps].
    cbn beta; intros p Hp.
    rewrite munge_whitespace_plain.
    + eapply Forall_impl; [|exact Hp]; intros c Hc; now left.
    + eapply Forall_impl; [|exact Hp]; intros c; apply text_char_plain.
Qed.

End Alphabet.

Lemma main_alphabet_witness :
  exists md,
    main example_settings (seeded 0) = Val (output_path example_settings, md)
    /\ Forall document_char md.
Proof.
  apply (main_alphabet (R := Lcg) example_settings (seeded 0)).
  vm_compute; congruence.
Defined.
